(** * convert_to_ome: the LIF splitter [split_lif_to_channels]

    A shallow embedding of [functions/lif_split_channels_to_ome.py]:
    the name sanitiser [_safe], the channel-name resolution, the file
    naming scheme and the scene / timepoint / channel loops, run against
    an explicit file system and an explicit image container. *)

From Stdlib Require Import String Ascii DecimalNat.
From stdpp Require Import base option list gmap.

Local Open Scope N_scope.
Local Open Scope nat_scope.

(** ** Python strings

    A Python [str] is a sequence of Unicode code points; a code point is a
    number of type [N]. *)

Abbreviation str := (list N).

(** A string literal of the source, read as its code points (the literals
    of this program are ASCII). *)
Definition lit (s : string) : str :=
  map N_of_ascii (list_ascii_of_string s).

Definition char_in (lo hi : N) (c : N) : bool :=
  ((lo <=? c) && (c <=? hi))%N.

(** [\w] on the ASCII range: letters, digits and the underscore. *)
Definition ascii_word (c : N) : bool :=
  char_in 48 57 c || char_in 65 90 c || char_in 97 122 c || (c =? 95)%N.

(** [\w] on the Latin-1 supplement (U+0080 .. U+00FF): the code points
    Python's [str.isalnum] accepts there: the ordinal indicators, the
    superscript digits, the micro sign, the vulgar fractions and the
    letters U+00C0 .. U+00FF except the multiplication and division signs. *)
Definition latin1_word (c : N) : bool :=
  (c =? 170)%N || (c =? 178)%N || (c =? 179)%N || (c =? 181)%N ||
  (c =? 185)%N || (c =? 186)%N || char_in 188 190 c ||
  char_in 192 214 c || char_in 216 246 c || char_in 248 255 c.

Section Sanitise.

(** The Unicode database above U+00FF is not part of the repository: which
    of those code points are alphanumeric is a parameter. *)
Variable uni_alnum : N → bool.

(** The class [\w] of Python's [re] on [str] patterns. *)
Definition is_word (c : N) : bool :=
  if (c <? 128)%N then ascii_word c
  else if (c <? 256)%N then latin1_word c
  else uni_alnum c.

(** The complement of the class [[^\w\-.]]: the characters [_safe] keeps. *)
Definition kept (c : N) : bool :=
  is_word c || (c =? 45)%N || (c =? 46)%N.

Definition underscore : N := 95%N.

(** [re.sub(r"[^\w\-.]+", "_", s)]: every maximal run of characters outside
    the kept class becomes one underscore. [in_run] tells that the previous
    character already belonged to the run being replaced. *)
Fixpoint sub_runs (in_run : bool) (s : str) : str :=
  match s with
  | [] => []
  | c :: r =>
      if kept c then c :: sub_runs false r
      else if in_run then sub_runs true r
      else underscore :: sub_runs true r
  end.

(** [s.lstrip("_")], [s.rstrip("_")] and [s.strip("_")]. *)
Fixpoint lstrip_us (s : str) : str :=
  match s with
  | c :: r => if (c =? underscore)%N then lstrip_us r else s
  | [] => []
  end.

Definition rstrip_us (s : str) : str := reverse (lstrip_us (reverse s)).

Definition strip_us (s : str) : str := rstrip_us (lstrip_us s).

(** [_safe(name)]: [name.strip("_") or "unnamed"] after the substitution. *)
Definition _safe (name : str) : str :=
  let name := sub_runs false name in
  match strip_us name with
  | [] => lit "unnamed"
  | s => s
  end.

End Sanitise.

(** The classification used for concrete runs: their strings hold no code
    point above U+00FF, where [is_word] does not consult it. *)
Definition no_wide : N → bool := λ _, false.

(** ** Command-line channel names *)

(** The code points [str.strip()] removes: Python's Unicode whitespace. *)
Definition is_space (c : N) : bool :=
  char_in 9 13 c || char_in 28 32 c || (c =? 133)%N || (c =? 160)%N ||
  (c =? 5760)%N || char_in 8192 8202 c || (c =? 8232)%N || (c =? 8233)%N ||
  (c =? 8239)%N || (c =? 8287)%N || (c =? 12288)%N.

(** [s.lstrip()] and [s.strip()]. *)
Fixpoint lstrip (s : str) : str :=
  match s with
  | c :: r => if is_space c then lstrip r else s
  | [] => []
  end.

Definition strip (s : str) : str := reverse (lstrip (reverse (lstrip s))).

(** [s.split(",")]: the pieces between the commas, at least one. *)
Fixpoint split_comma (s : str) : list str :=
  match s with
  | [] => [[]]
  | c :: r =>
      if (c =? 44)%N then [] :: split_comma r
      else
        match split_comma r with
        | piece :: pieces => (c :: piece) :: pieces
        | [] => [[c]]
        end
  end.

(** [[s.strip() for s in l if s.strip()]]. *)
Definition stripped (l : list str) : list str :=
  filter (λ s, s ≠ []) (strip <$> l).

(** [_normalize_cli_names(arg_list)]. *)
Definition _normalize_cli_names (arg_list : option (list str)) : option (list str) :=
  match arg_list with
  | None => None
  | Some [] => None
  | Some [s] =>
      if bool_decide (44%N ∈ s) then Some (stripped (split_comma s))
      else Some (stripped [s])
  | Some l => Some (stripped l)
  end.

(** ** Paths

    A [pathlib.Path] is the list of its components below its anchor (the
    root or the working directory); the empty list is the anchor itself. *)

Abbreviation path := (list (list N)).

(** [p.name]: the last component, the empty string when there is none. *)
Definition path_name (p : path) : str := default [] (last p).

(** [p.parent]. *)
Definition path_parent (p : path) : path := removelast p.

(** [name.rfind(".")], [None] for Python's -1. *)
Fixpoint rfind_dot (s : str) : option nat :=
  match s with
  | [] => None
  | c :: r =>
      match rfind_dot r with
      | Some i => Some (S i)
      | None => if (c =? 46)%N then Some 0 else None
      end
  end.

(** [p.stem] of a path whose name is [name]: the name up to its last dot,
    when that dot is neither the first nor the last character. *)
Definition stem_of (name : str) : str :=
  match rfind_dot name with
  | Some i =>
      if bool_decide (0 < i) && bool_decide (i < length name - 1)
      then take i name else name
  | None => name
  end.

(** ** Number formatting *)

Fixpoint uint_chars (u : Decimal.uint) : str :=
  match u with
  | Decimal.Nil => []
  | Decimal.D0 u => 48%N :: uint_chars u
  | Decimal.D1 u => 49%N :: uint_chars u
  | Decimal.D2 u => 50%N :: uint_chars u
  | Decimal.D3 u => 51%N :: uint_chars u
  | Decimal.D4 u => 52%N :: uint_chars u
  | Decimal.D5 u => 53%N :: uint_chars u
  | Decimal.D6 u => 54%N :: uint_chars u
  | Decimal.D7 u => 55%N :: uint_chars u
  | Decimal.D8 u => 56%N :: uint_chars u
  | Decimal.D9 u => 57%N :: uint_chars u
  end.

(** [f"{c:02d}"]: decimal digits, padded with zeros to two characters. *)
Definition fmt_02d (c : nat) : str :=
  let digits := uint_chars (Nat.to_uint c) in
  replicate (2 - length digits) 48%N ++ digits.

(** [f"_c{c:02d}"], the index-based channel label. *)
Definition index_label (c : nat) : str := lit "_c" ++ fmt_02d c.

(** ** The image container, as the imaging library reports it *)

(** The attribute [img.channel_names]: reading it may raise, and it may be
    [None]. *)
Inductive names_attr :=
  | NamesRaise
  | NamesNone
  | NamesList (l : list str).

(** What the handle answers while a scene is selected. *)
Record scene_view := SceneView {
  sv_dims : str;                          (* img.dims.order, e.g. TCZYX *)
  sv_shape : list nat;                    (* img.dask_data.shape *)
  sv_channel_names : names_attr;          (* img.channel_names *)
  sv_readable : option nat → nat → bool;  (* can get_image_data("ZYX", T=t, C=c) be served *)
}.

Record image := Image {
  img_scenes : list str;                  (* img.scenes, in the library's order *)
  img_first : str;                        (* the scene selected on opening *)
  img_view : str → scene_view;            (* the answers after set_scene *)
}.

(** An extracted Z-stack: which sub-volume it is and the cast applied. *)
Record volume := Volume {
  vol_scene : str;
  vol_t : option nat;
  vol_c : nat;
  vol_dtype : option str;
}.

(** ** Exceptions, the file system and the trace of calls *)

Inductive exn :=
  | FileNotFoundError
  | ValueError
  | IndexError
  | FileExistsError
  | NotADirectoryError
  | IsADirectoryError
  | OSError              (* another error of the operating system *)
  | ReaderError          (* raised by the image reader *)
.

(** A node of the file system: a directory, or a file with what the LIF
    reader makes of it ([None]: not a LIF container). *)
Inductive node :=
  | Dir
  | File (lif : option image).

Abbreviation fsys :=
  (@gmap (list (list N)) (@list_eq_dec (list N) (@list_eq_dec N N.eq_dec))
         (@list_countable (list N) (@list_eq_dec N N.eq_dec)
            (@list_countable N N.eq_dec N_countable)) node).

(** The anchor is always a directory. *)
Definition node_at (fs : fsys) (p : path) : option node :=
  match p with
  | [] => Some Dir
  | _ => fs !! p
  end.

Inductive message :=
  | MsgOpened (p : path)
  | MsgScenes (n : nat) (dims : str) (shape : list nat)
  | MsgBaseNames (l : list str)
  | MsgOverride (l : list str)
  | MsgSkip (scene : str) (nC nZ : nat)
  | MsgScene (scene : str) (labels : str) (shape : list nat) (nT nC nZ : nat)
  | MsgNote (given nC : nat)
  | MsgSaved (p : path)
  | MsgDone (n : nat) (outdir : path).

(** The calls that create, open, read, write or print, in program order. *)
Inductive event :=
  | EvMkdir (p : path)
  | EvOpen (p : path)
  | EvSetScene (s : str)
  | EvRead (s : str) (t : option nat) (c : nat)
  | EvSave (p : path) (v : volume) (bigtiff : bool)
  | EvPrint (m : message).

(** The outcome of a computation: the value or the exception raised, the
    file system it leaves and the calls it made. *)
Record outcome (A : Type) := Outcome {
  out_res : exn + A;
  out_fs : fsys;
  out_trace : list event;
}.
Arguments Outcome {A} _ _ _.
Arguments out_res {A} _.
Arguments out_fs {A} _.
Arguments out_trace {A} _.

Definition M (A : Type) : Type := fsys → outcome A.

Definition run_bind {A B} (k : A → M B) (m : M A) : M B := λ fs,
  let o := m fs in
  match out_res o with
  | inl e => Outcome (inl e) (out_fs o) (out_trace o)
  | inr a =>
      let o' := k a (out_fs o) in
      Outcome (out_res o') (out_fs o') (out_trace o ++ out_trace o')
  end.

#[global] Instance M_ret : MRet M := λ A a fs, Outcome (inr a) fs [].
#[global] Instance M_bind : MBind M := λ A B k m, run_bind k m.

Definition raise {A} (e : exn) : M A := λ fs, Outcome (inl e) fs [].
Definition emit (ev : event) : M unit := λ fs, Outcome (inr ()) fs [ev].
Definition get_fs : M fsys := λ fs, Outcome (inr fs) fs [].
Definition put_fs (fs : fsys) : M unit := λ _, Outcome (inr ()) fs [].
Definition lift_exn {A} (r : exn + A) : M A :=
  match r with inl e => raise e | inr a => mret a end.

(** ** The calls on the file system and on the imaging library *)

(** [p.exists()]. *)
Definition path_exists (p : path) : M bool :=
  fs ← get_fs; mret (bool_decide (is_Some (node_at fs p))).

(** [mkdir -p]: walk the components from the anchor; an existing directory
    is kept, a missing one is created, a file in the way is an error. *)
Fixpoint mkdir_from (done : path) (todo : list (list N)) (fs : fsys) : exn + fsys :=
  match todo with
  | [] => inr fs
  | x :: r =>
      let q := done ++ [x] in
      match fs !! q with
      | Some Dir => mkdir_from q r fs
      | Some (File _) =>
          inl (match r with [] => FileExistsError | _ => NotADirectoryError end)
      | None => mkdir_from q r (<[q := Dir]> fs)
      end
  end.

(** [p.mkdir(parents=True, exist_ok=True)]. *)
Definition mkdir (p : path) : M unit :=
  emit (EvMkdir p);;
  fs ← get_fs;
  match mkdir_from [] p fs with
  | inl e => raise e
  | inr fs' => put_fs fs'
  end.

(** [BioImage(str(lif_path), reader=bioio_lif.Reader)]: the reader accepts
    a LIF container only and raises on anything else. *)
Definition open_image (p : path) : M image :=
  emit (EvOpen p);;
  fs ← get_fs;
  match node_at fs p with
  | Some (File (Some img)) => mret img
  | _ => raise ReaderError
  end.

(** [img.set_scene(scene)]. *)
Definition set_scene (scene : str) : M unit := emit (EvSetScene scene).

(** [img.get_image_data("ZYX", T=t, C=c)], or without [T] when [sel] is
    [None]. *)
Definition get_image_data (scene : str) (view : scene_view)
    (sel : option nat) (c : nat) : M volume :=
  emit (EvRead scene sel c);;
  if sv_readable view sel c then mret (Volume scene sel c None)
  else raise ReaderError.

(** [zyx.astype(dtype_map[dtype], copy=False)]. *)
Definition astype (v : volume) (dtype : str) : volume :=
  Volume (vol_scene v) (vol_t v) (vol_c v) (Some dtype).

(** What the external writer makes of a call, which the exporter does not
    control: [Some e] when it rejects the array, the metadata it derives
    from it or the name of the file and raises [e] (a validation error,
    which is a ValueError, on an axis of length 0; an OSError on a name
    that is too long), [None] when it goes on to write. *)
Definition writer : Type := path → volume → bool → option exn.

(** A writer that rejects nothing. *)
Definition accepts_all : writer := λ _ _ _, None.

(** [OmeTiffWriter.save(zyx, uri=str(out_path), dim_order="ZYX",
    bigtiff=bigtiff)]: a call the writer rejects raises and writes
    nothing; otherwise the file is created or overwritten, and what it
    holds is not a LIF container. *)
Definition save (wr : writer) (v : volume) (p : path) (bigtiff : bool) : M unit :=
  emit (EvSave p v bigtiff);;
  match wr p v bigtiff with
  | Some e => raise e
  | None =>
      fs ← get_fs;
      match node_at fs p with
      | Some Dir => raise IsADirectoryError
      | _ =>
          match node_at fs (path_parent p) with
          | Some Dir => put_fs (<[p := File None]> fs)
          | Some (File _) => raise NotADirectoryError
          | None => raise FileNotFoundError
          end
      end
  end.

(** [for x in l: ...], each round appending to [written]. *)
Fixpoint for_each {A B} (l : list A) (body : A → M (list B)) : M (list B) :=
  match l with
  | [] => mret []
  | x :: r => ys ← body x; zs ← for_each r body; mret (ys ++ zs)
  end.

(** ** The exporter *)

Record request := Request {
  lif_path : path;
  outdir : option path;
  bigtiff : bool;
  dtype : str;
  include_empty : bool;
  verbose : bool;
  channel_names : option (list str);
}.

(** [_dim_labels(dims)]: the characters of the dimension order. *)
Definition _dim_labels (order : str) : list N := order.

(** [dict(zip(labels, shape))]: a later pair replaces an earlier one. *)
Definition dict_zip (labels : list N) (shape : list nat) : gmap N nat :=
  foldl (λ m kv, <[kv.1 := kv.2]> m) ∅ (zip labels shape).

(** [size_map.get(k, 1)]. *)
Definition size_get (size_map : gmap N nat) (k : N) : nat :=
  default 1 (size_map !! k).

Definition label_T : N := 84%N.
Definition label_C : N := 67%N.
Definition label_Z : N := 90%N.

(** Python's truth value of a list that may be [None]. *)
Definition truthy {A} (o : option (list A)) : bool :=
  match o with
  | Some (_ :: _) => true
  | _ => false
  end.

(** [list(img.channel_names) if img.channel_names is not None else
    fallback], with [fallback] also on an exception. *)
Definition names_or (a : names_attr) (fallback : option (list str)) : option (list str) :=
  match a with
  | NamesList l => Some l
  | NamesNone => fallback
  | NamesRaise => fallback
  end.

(** [list(channel_names) if channel_names else None]. *)
Definition override_of (channel_names : option (list str)) : option (list str) :=
  if truthy channel_names then channel_names else None.

(** The names used for a scene (lines 159-162). *)
Definition resolve_names (override_names scene_channel_names : option (list str))
    (nC : nat) : list (option str) :=
  match override_names with
  | Some (x :: l) =>
      let ov := x :: l in
      (λ i, if bool_decide (i < length ov) then ov !! i else None) <$> seq 0 nC
  | _ =>
      match scene_channel_names with
      | Some (x :: l) => Some <$> (x :: l)
      | _ => replicate nC None
      end
  end.

(** The keys of [dtype_map]. *)
Definition dtype_map : list str := [lit "uint16"; lit "uint8"; lit "float32"].

(** The default output directory: the parent of [lif_path] with its suffix
    removed, joined with [f"{lif_path.stem}_export"]; [with_suffix] refuses
    a path with an empty name. *)
Definition default_outdir (lif_path : path) : exn + path :=
  match path_name lif_path with
  | [] => inl ValueError
  | name => inr (path_parent lif_path ++ [stem_of name ++ lit "_export"])
  end.

(** [Path(outdir) if outdir is not None else] the default. *)
Definition outdir_of (rq : request) : exn + path :=
  match outdir rq with
  | Some d => inr d
  | None => default_outdir (lif_path rq)
  end.

Section Exporter.

Variable uni_alnum : N → bool.
Variable wr : writer.
Variable rq : request.

Definition _log (msg : message) : M unit :=
  if verbose rq then emit (EvPrint msg) else mret ().

(** The channel part of a file name (lines 179-182); indexing the names
    out of range raises. *)
Definition ch_part (scene_names : list (option str)) (c : nat) : exn + str :=
  match scene_names with
  | [] => inr (index_label c)
  | _ =>
      match scene_names !! c with
      | None => inl IndexError
      | Some (Some (x :: n)) => inr (lit "_ch-" ++ _safe uni_alnum (x :: n))
      | Some _ => inr (index_label c)
      end
  end.

(** [f"{lif_path.stem}_scene-{_safe(scene)}{ch_part}.ome.tif"]. *)
Definition file_name (scene : str) (part : str) : str :=
  stem_of (path_name (lif_path rq)) ++ lit "_scene-" ++ _safe uni_alnum scene
    ++ part ++ lit ".ome.tif".

(** [outdir / f"scene_{_safe(scene)}"]. *)
Definition scene_dir_of (out : path) (scene : str) : path :=
  out ++ [lit "scene_" ++ _safe uni_alnum scene].

(** The body of the loop over [c] (lines 168-195). *)
Definition write_channel (scene : str) (scene_dir : path) (view : scene_view)
    (labels : list N) (scene_names : list (option str)) (t c : nat) : M (list path) :=
  zyx ← get_image_data scene view
         (if bool_decide (label_T ∈ labels) then Some t else None) c;
  let zyx :=
    if bool_decide (dtype rq ≠ lit "native") then astype zyx (dtype rq) else zyx in
  part ← lift_exn (ch_part scene_names c);
  let fname := file_name scene part in
  let out_path := scene_dir ++ [fname] in
  save wr zyx out_path (bigtiff rq);;
  _log (MsgSaved out_path);;
  mret [out_path].

(** The body of the loop over the scenes (lines 130-195). *)
Definition process_scene (img : image) (out : path)
    (base_channel_names override_names : option (list str)) (scene : str)
    : M (list path) :=
  set_scene scene;;
  let scene_dir := scene_dir_of out scene in
  mkdir scene_dir;;
  let view := img_view img scene in
  let shape := sv_shape view in
  let labels := _dim_labels (sv_dims view) in
  let size_map := dict_zip labels shape in
  let nT := size_get size_map label_T in
  let nC := size_get size_map label_C in
  let nZ := size_get size_map label_Z in
  let scene_channel_names := names_or (sv_channel_names view) base_channel_names in
  if (bool_decide (nC = 0) || bool_decide (nZ = 0)) && negb (include_empty rq) then
    _log (MsgSkip scene nC nZ);;
    mret []
  else
    _log (MsgScene scene labels shape nT nC nZ);;
    (if truthy override_names
        && bool_decide (length (default [] override_names) ≠ nC)
     then _log (MsgNote (length (default [] override_names)) nC)
     else mret ());;
    let scene_names := resolve_names override_names scene_channel_names nC in
    _log (MsgScenes (length (img_scenes img)) labels shape);;
    for_each (seq 0 nT) (λ t,
      for_each (seq 0 nC) (λ c,
        write_channel scene scene_dir view labels scene_names t c)).

Definition split_lif_to_channels : M (list path) :=
  ex ← path_exists (lif_path rq);
  if negb ex then raise FileNotFoundError else
  out ← lift_exn (outdir_of rq);
  mkdir out;;
  img ← open_image (lif_path rq);
  let first := img_view img (img_first img) in
  let base_channel_names := names_or (sv_channel_names first) None in
  let override_names := override_of (channel_names rq) in
  _log (MsgOpened (lif_path rq));;
  _log (MsgScenes (length (img_scenes img)) (_dim_labels (sv_dims first)) (sv_shape first));;
  (if truthy base_channel_names
   then _log (MsgBaseNames (default [] base_channel_names)) else mret ());;
  (if truthy override_names
   then _log (MsgOverride (default [] override_names)) else mret ());;
  if bool_decide (dtype rq ≠ lit "native") && bool_decide (dtype rq ∉ dtype_map)
  then raise ValueError else
  written ← for_each (img_scenes img)
              (process_scene img out base_channel_names override_names);
  _log (MsgDone (length written) out);;
  mret written.

End Exporter.

(** ** The command-line wrapper *)

(** The choices of [--dtype]. *)
Inductive dtype_choice := Native | Uint16 | Uint8 | Float32.

Definition dtype_name (d : dtype_choice) : str :=
  match d with
  | Native => lit "native"
  | Uint16 => lit "uint16"
  | Uint8 => lit "uint8"
  | Float32 => lit "float32"
  end.

(** The namespace [parse_args] returns: the parser of [_build_argparser]
    accepts for [--dtype] one of its choices only, and gives [None] for
    [--outdir] and [--channel-names] when they are absent. *)
Record namespace := Namespace {
  ns_lif_path : path;
  ns_outdir : option path;
  ns_bigtiff : bool;
  ns_dtype : dtype_choice;
  ns_include_empty : bool;
  ns_quiet : bool;
  ns_channel_names : option (list str);
}.

(** The call [main] makes (lines 230-238). *)
Definition main_request (args : namespace) : request :=
  Request (ns_lif_path args) (ns_outdir args) (ns_bigtiff args)
          (dtype_name (ns_dtype args)) (ns_include_empty args)
          (negb (ns_quiet args))
          (_normalize_cli_names (ns_channel_names args)).

(** [main], once the arguments are parsed: the list of paths is dropped. *)
Definition main (ua : N → bool) (wr : writer) (args : namespace) : M unit :=
  split_lif_to_channels ua wr (main_request args);; mret ().

(** ** A concrete container: two scenes A and B, T=1, C=2, Z=5, Y=X=10 *)

Definition view_TCZYX (shape : list nat) (names : names_attr) : scene_view :=
  SceneView (lit "TCZYX") shape names (λ _ _, true).

Definition two_scenes : image :=
  Image [lit "A"; lit "B"] (lit "A")
        (λ _, view_TCZYX [1; 2; 5; 10; 10] NamesNone).

Definition data_dir : path := [lit "data"].
Definition sample_lif : path := [lit "data"; lit "sample.lif"].

Definition disk (img : image) : fsys :=
  <[sample_lif := File (Some img)]> (<[data_dir := Dir]> ∅).

Definition plain_request : request :=
  Request sample_lif None false (lit "native") false true None.


Definition export_dir : path := data_dir ++ [lit "sample_export"].

Definition two_scenes_paths : list path :=
  [ export_dir ++ [lit "scene_A"; lit "sample_scene-A_c00.ome.tif"];
    export_dir ++ [lit "scene_A"; lit "sample_scene-A_c01.ome.tif"];
    export_dir ++ [lit "scene_B"; lit "sample_scene-B_c00.ome.tif"];
    export_dir ++ [lit "scene_B"; lit "sample_scene-B_c01.ome.tif"] ].

(** A request with a [dtype] outside the accepted ones. *)
Definition int128_request : request :=
  Request sample_lif None false (lit "int128") false true None.

(** A request whose input path is the directory [data]. *)
Definition directory_request : request :=
  Request data_dir None false (lit "native") false true None.

(** A container whose second scene has no channel. *)
Definition with_empty : image :=
  Image [lit "A"; lit "E"] (lit "A")
        (λ s, if decide (s = lit "E")
              then view_TCZYX [1; 0; 5; 10; 10] NamesNone
              else view_TCZYX [1; 2; 5; 10; 10] NamesNone).

(** Two scenes, the second with two channels and Z size 0; a request that
    keeps such scenes; and a writer that rejects the volumes of the second
    scene, as the real one rejects an axis of length 0. *)
Definition flat_scene : image :=
  Image [lit "A"; lit "F"] (lit "A")
        (λ s, if decide (s = lit "F")
              then view_TCZYX [1; 2; 0; 10; 10] NamesNone
              else view_TCZYX [1; 2; 5; 10; 10] NamesNone).

Definition keep_empty_request : request :=
  Request sample_lif None false (lit "native") true true None.

Definition rejects_flat : writer :=
  λ _ v _, if decide (vol_scene v = lit "F") then Some ValueError else None.

(** One scene with two timepoints and one channel. *)
Definition two_timepoints : image :=
  Image [lit "S"] (lit "S") (λ _, view_TCZYX [2; 1; 1; 1; 1] NamesNone).

(** One scene with two channels, the metadata naming only the first. *)
Definition short_names : image :=
  Image [lit "S"] (lit "S")
        (λ _, view_TCZYX [1; 2; 1; 1; 1] (NamesList [lit "DAPI"])).

(** Scene A has one named channel; scene B has two channels and no names of
    its own, so that the names of the file are used for it. *)
Definition fallback_names : image :=
  Image [lit "A"; lit "B"] (lit "A")
        (λ s, if decide (s = lit "B")
              then view_TCZYX [1; 2; 1; 1; 1] NamesNone
              else view_TCZYX [1; 1; 1; 1; 1] (NamesList [lit "DAPI"])).

(** One scene with three channels and no channel names. *)
Definition three_channels : image :=
  Image [lit "S"] (lit "S") (λ _, view_TCZYX [1; 3; 1; 1; 1] NamesNone).

(** [channel_names=["DAPI", "GFP"]]. *)
Definition dapi_gfp_request : request :=
  Request sample_lif None false (lit "native") false true
          (Some [lit "DAPI"; lit "GFP"]).

Definition scene_S : path := export_dir ++ [lit "scene_S"].

(** ** Notions used to state the properties *)

(** The sizes a scene is processed with (lines 138-141). *)
Definition size_of (view : scene_view) (label : N) : nat :=
  size_get (dict_zip (_dim_labels (sv_dims view)) (sv_shape view)) label.

(** The test of line 149. *)
Definition skipped (rq : request) (view : scene_view) : bool :=
  (bool_decide (size_of view label_C = 0) || bool_decide (size_of view label_Z = 0))
  && negb (include_empty rq).

(** The paths handed to the writer, in the order of the calls. *)
Definition saved_paths (tr : list event) : list path :=
  omap (λ ev, match ev with EvSave p _ _ => Some p | _ => None end) tr.

(** What was handed to the writer: the paths with the volumes. *)
Definition saved_volumes (tr : list event) : list (path * volume) :=
  omap (λ ev, match ev with EvSave p v _ => Some (p, v) | _ => None end) tr.

(** The calls other than printing. *)
Definition is_call (ev : event) : bool :=
  match ev with EvPrint _ => false | _ => true end.

Definition calls (tr : list event) : list event :=
  filter (λ ev, is_call ev) tr.

(** [fs'] keeps the directories and the written files of [fs], and the
    node at [L] when there is one. *)
Definition ext (L : path) (fs fs' : fsys) : Prop :=
  ∀ p x, fs !! p = Some x → x = Dir ∨ x = File None ∨ p = L → fs' !! p = Some x.

(** The channel part of a name, empty where [ch_part] raises. *)
Definition chan_label (ua : N → bool) (names : list (option str)) (c : nat) : str :=
  match ch_part ua names c with
  | inr part => part
  | inl _ => []
  end.

(** The names resolved for a scene of an opened container. *)
Definition scene_names_of (rq : request) (img : image) (scene : str) : list (option str) :=
  resolve_names (override_of (channel_names rq))
    (names_or (sv_channel_names (img_view img scene))
       (names_or (sv_channel_names (img_view img (img_first img))) None))
    (size_of (img_view img scene) label_C).

(** The path of channel [c] of a scene. *)
Definition channel_path (ua : N → bool) (rq : request) (img : image) (out : path)
    (scene : str) (c : nat) : path :=
  scene_dir_of ua out scene
    ++ [file_name ua rq scene (chan_label ua (scene_names_of rq img scene) c)].

(** The paths of a scene: none when it is skipped, else one per timepoint
    and channel, timepoints first. *)
Definition scene_paths (ua : N → bool) (rq : request) (img : image) (out : path)
    (scene : str) : list path :=
  if skipped rq (img_view img scene) then []
  else
    _ ← seq 0 (size_of (img_view img scene) label_T);
    c ← seq 0 (size_of (img_view img scene) label_C);
    [channel_path ua rq img out scene c].

(** The paths of a run, scene by scene. *)
Definition expected_paths (ua : N → bool) (rq : request) (img : image) (out : path)
    : list path :=
  scene ← img_scenes img; scene_paths ua rq img out scene.

(** The number of files of a scene. *)
Definition scene_count (rq : request) (img : image) (scene : str) : nat :=
  if skipped rq (img_view img scene) then 0
  else size_of (img_view img scene) label_T * size_of (img_view img scene) label_C.

(** A computation that only adds to the file system, in the sense of [ext]. *)
Definition inflates (L : path) {A} (m : M A) : Prop :=
  ∀ fs, ext L fs (out_fs (m fs)).

(** A computation that, run again on any file system that kept what its
    first run left, returns the same value, makes the same calls and
    changes nothing. *)
Definition replays (L : path) {A} (m : M A) : Prop :=
  ∀ fs F a, out_res (m fs) = inr a → ext L (out_fs (m fs)) F →
    m F = Outcome (inr a) F (out_trace (m fs)).

(** A computation whose value is the list of the paths it saved. *)
Definition returns_saved (m : M (list path)) : Prop :=
  ∀ fs l, out_res (m fs) = inr l → saved_paths (out_trace (m fs)) = l.

(** The output directory and the directories on the way to it exist. *)
Definition out_made (out : path) (fs : fsys) : Prop :=
  ∀ k, 0 < k ≤ length out → fs !! take k out = Some Dir.

(** The reads and the names a run needs: every channel of every timepoint
    of every scene that is not skipped can be read and has an entry in the
    names of its scene. *)
Definition servable (ua : N → bool) (rq : request) (img : image) : Prop :=
  ∀ scene t c,
    scene ∈ img_scenes img →
    skipped rq (img_view img scene) = false →
    t < size_of (img_view img scene) label_T →
    c < size_of (img_view img scene) label_C →
    sv_readable (img_view img scene)
      (if bool_decide (label_T ∈ _dim_labels (sv_dims (img_view img scene)))
       then Some t else None) c = true ∧
    ∃ part, ch_part ua (scene_names_of rq img scene) c = inr part.

(** Reading decimal digits back: the inverse of [uint_chars]. *)
Fixpoint chars_uint (s : str) : Decimal.uint :=
  match s with
  | [] => Decimal.Nil
  | c :: r =>
      let u := chars_uint r in
      if (c =? 48)%N then Decimal.D0 u else
      if (c =? 49)%N then Decimal.D1 u else
      if (c =? 50)%N then Decimal.D2 u else
      if (c =? 51)%N then Decimal.D3 u else
      if (c =? 52)%N then Decimal.D4 u else
      if (c =? 53)%N then Decimal.D5 u else
      if (c =? 54)%N then Decimal.D6 u else
      if (c =? 55)%N then Decimal.D7 u else
      if (c =? 56)%N then Decimal.D8 u else Decimal.D9 u
  end.

(** The class [[A-Za-z0-9_.-]] of the specification. *)
Definition safe_class (c : N) : bool :=
  ascii_word c || (c =? 45)%N || (c =? 46)%N.

(** A name the sanitiser has nothing to do on. *)
Definition clean (ua : N → bool) (s : str) : Prop :=
  s ≠ [] ∧ Forall (λ c, kept ua c = true) s ∧
  head s ≠ Some underscore ∧ last s ≠ Some underscore.

(** What a run with output directory [out] may have done to the node at
    [p]: left it as it was; made a directory where nothing was, at [out],
    on the way to it or directly below it; or written a file, handed to
    the writer, two levels below [out] where no directory was. *)
Definition touched (out : path) (tr : list event) (fs fs' : fsys) (p : path) : Prop :=
  fs' !! p = fs !! p ∨
  (fs !! p = None ∧ fs' !! p = Some Dir ∧ (p `prefix_of` out ∨ ∃ x, p = out ++ [x])) ∨
  (fs !! p ≠ Some Dir ∧ fs' !! p = Some (File None) ∧
   p ∈ saved_paths tr ∧ ∃ x y, p = out ++ [x; y]).

(** A computation that changes the file system in that way only. *)
Definition confined (out : path) {A} (m : M A) : Prop :=
  ∀ fs p, touched out (out_trace (m fs)) fs (out_fs (m fs)) p.

(** The volume written for timepoint [t] and channel [c] of a scene
    (lines 169-176): read with a [T] selector only when the scene has a
    [T] label, cast unless [dtype] is native. *)
Definition scene_volume (rq : request) (view : scene_view) (scene : str)
    (t c : nat) : volume :=
  Volume scene
    (if bool_decide (label_T ∈ _dim_labels (sv_dims view)) then Some t else None) c
    (if bool_decide (dtype rq ≠ lit "native") then Some (dtype rq) else None).

(** The writer takes what a run hands to it: for every channel of every
    timepoint of every scene that is not skipped, it does not reject the
    volume, the path and the flag of the call made for it. *)
Definition accepted (ua : N → bool) (wr : writer) (rq : request) (img : image)
    (out : path) : Prop :=
  ∀ scene t c,
    scene ∈ img_scenes img →
    skipped rq (img_view img scene) = false →
    t < size_of (img_view img scene) label_T →
    c < size_of (img_view img scene) label_C →
    wr (channel_path ua rq img out scene c)
       (scene_volume rq (img_view img scene) scene t c) (bigtiff rq) = None.

(** Nothing stands in the way of the output: there is no file where the
    directory of a scene goes, and no directory where a file of a scene
    that is not skipped goes. Whatever else the file system holds, in the
    output directory or elsewhere, is of no account. *)
Definition writable_tree (ua : N → bool) (rq : request) (img : image) (out : path)
    (fs : fsys) : Prop :=
  (∀ scene x, scene ∈ img_scenes img →
     fs !! scene_dir_of ua out scene ≠ Some (File x)) ∧
  (∀ scene t c,
     scene ∈ img_scenes img →
     skipped rq (img_view img scene) = false →
     t < size_of (img_view img scene) label_T →
     c < size_of (img_view img scene) label_C →
     fs !! channel_path ua rq img out scene c ≠ Some Dir).

(** The calls for timepoint [t] and channel [c] of a scene: the volume is
    read, then written. *)
Definition channel_calls (ua : N → bool) (rq : request) (img : image) (out : path)
    (scene : str) (t c : nat) : list event :=
  [ EvRead scene
      (if bool_decide (label_T ∈ _dim_labels (sv_dims (img_view img scene)))
       then Some t else None) c;
    EvSave (channel_path ua rq img out scene c)
      (scene_volume rq (img_view img scene) scene t c) (bigtiff rq) ].

(** The calls for a scene: it is selected, its directory is made and,
    unless it is skipped, its channels are read and written, timepoints
    first. *)
Definition scene_calls (ua : N → bool) (rq : request) (img : image) (out : path)
    (scene : str) : list event :=
  EvSetScene scene :: EvMkdir (scene_dir_of ua out scene) ::
  (if skipped rq (img_view img scene) then []
   else
     t ← seq 0 (size_of (img_view img scene) label_T);
     c ← seq 0 (size_of (img_view img scene) label_C);
     channel_calls ua rq img out scene t c).

(** The calls of a run: the output directory is made, the container is
    opened, and the scenes follow in the order of the container. *)
Definition expected_calls (ua : N → bool) (rq : request) (img : image) (out : path)
    : list event :=
  EvMkdir out :: EvOpen (lif_path rq) ::
  (scene ← img_scenes img; scene_calls ua rq img out scene).

(** The request with [verbose] set to [v]. *)
Definition with_verbose (v : bool) (rq : request) : request :=
  Request (lif_path rq) (outdir rq) (bigtiff rq) (dtype rq) (include_empty rq) v
          (channel_names rq).

(** Two computations that differ in what they print only. *)
Definition same_calls {A} (m m' : M A) : Prop :=
  ∀ fs, out_res (m fs) = out_res (m' fs) ∧ out_fs (m fs) = out_fs (m' fs) ∧
        calls (out_trace (m fs)) = calls (out_trace (m' fs)).

(** A computation that prints nothing. *)
Definition silent {A} (m : M A) : Prop :=
  ∀ fs, calls (out_trace (m fs)) = out_trace (m fs).

(** The writer rejected the last call of the run and raised [e]. *)
Definition rejected (wr : writer) (e : exn) (tr : list event) : Prop :=
  ∃ p v b, last tr = Some (EvSave p v b) ∧ wr p v b = Some e.

(** What the exception of a failed scene tells when it does not come from
    the writer, from the file system and the calls the scene left: the
    last call is the one that failed. *)
Definition scene_cause (rq : request) (img : image) (e : exn) (fs' : fsys)
    (tr : list event) : Prop :=
  match e with
  | IndexError =>
      override_of (channel_names rq) = None ∧
      ∃ s t c, last tr = Some (EvRead s t c) ∧
               scene_names_of rq img s ≠ [] ∧
               length (scene_names_of rq img s) ≤ c < size_of (img_view img s) label_C
  | ReaderError =>
      ∃ s t c, last tr = Some (EvRead s t c) ∧ sv_readable (img_view img s) t c = false
  | IsADirectoryError =>
      ∃ p v b, last tr = Some (EvSave p v b) ∧ fs' !! p = Some Dir
  | FileExistsError =>
      ∃ q x, last tr = Some (EvMkdir q) ∧ fs' !! q = Some (File x)
  | NotADirectoryError =>
      ∃ q k x, last tr = Some (EvMkdir q) ∧ 0 < k < length q ∧
               fs' !! take k q = Some (File x)
  | FileNotFoundError | ValueError | OSError => False
  end.

(** What the exception of a failed scene tells. *)
Definition scene_fault (wr : writer) (rq : request) (img : image) (e : exn)
    (fs' : fsys) (tr : list event) : Prop :=
  rejected wr e tr ∨ scene_cause rq img e fs' tr.

(** What the exception of a failed run tells: the writer raised it, or the
    exporter or the file system did. *)
Definition failure (wr : writer) (rq : request) (fs : fsys) (e : exn) (fs' : fsys)
    (tr : list event) : Prop :=
  rejected wr e tr ∨
  match e with
  | FileNotFoundError => node_at fs (lif_path rq) = None ∧ tr = [] ∧ fs' = fs
  | ValueError =>
      (outdir rq = None ∧ path_name (lif_path rq) = [] ∧ tr = [] ∧ fs' = fs) ∨
      (dtype rq ≠ lit "native" ∧ (dtype rq ∉ dtype_map) ∧
       ∃ out, calls tr = [EvMkdir out; EvOpen (lif_path rq)])
  | ReaderError =>
      (last tr = Some (EvOpen (lif_path rq)) ∧
       ∀ img, node_at fs (lif_path rq) ≠ Some (File (Some img))) ∨
      (∃ img, node_at fs (lif_path rq) = Some (File (Some img)) ∧
              scene_cause rq img ReaderError fs' tr)
  | IndexError =>
      ∃ img, node_at fs (lif_path rq) = Some (File (Some img)) ∧
             scene_cause rq img IndexError fs' tr
  | IsADirectoryError =>
      ∃ p v b, last tr = Some (EvSave p v b) ∧ fs' !! p = Some Dir
  | FileExistsError =>
      ∃ q x, last tr = Some (EvMkdir q) ∧ fs' !! q = Some (File x)
  | NotADirectoryError =>
      ∃ q k x, last tr = Some (EvMkdir q) ∧ 0 < k < length q ∧
               fs' !! take k q = Some (File x)
  | OSError => False
  end.

(** A computation after which every path handed to the writer holds a
    written file, unless the write to it is the last call and failed. *)
Definition settled {A} (m : M A) : Prop :=
  ∀ fs, Forall (λ p,
      out_fs (m fs) !! p = Some (File None) ∨
      ((∃ e, out_res (m fs) = inl e) ∧
       ∃ v b, last (out_trace (m fs)) = Some (EvSave p v b)))
    (saved_paths (out_trace (m fs))).

(** The names written as one argument, separated by commas. *)
Fixpoint join_comma (l : list str) : str :=
  match l with
  | [] => []
  | [s] => s
  | s :: r => s ++ 44%N :: join_comma r
  end.

(** [t] is [s] without the whitespace at its two ends. *)
Definition trims (s t : str) : Prop :=
  ∃ a b, s = a ++ t ++ b ∧
    Forall (λ c, is_space c = true) a ∧ Forall (λ c, is_space c = true) b ∧
    (∀ c, head t = Some c → is_space c = false) ∧
    (∀ c, last t = Some c → is_space c = false).

(** The pieces the arguments of [--channel-names] stand for: those between
    the commas of a single argument that holds a comma, else the arguments
    themselves, commas and all. *)
Definition cli_pieces (l pieces : list str) : Prop :=
  (∃ s, l = [s] ∧ 44%N ∈ s ∧ join_comma pieces = s ∧
        Forall (λ x, 44%N ∉ x) pieces) ∨
  ((∀ s, l = [s] → 44%N ∉ s) ∧ pieces = l).

(** The path separator. *)
Definition slash : N := 47%N.

(** * Properties *)

(** ** The sanitiser *)

Section SanitiseFacts.

Variable ua : N → bool.

Lemma kept_underscore : kept ua underscore = true.
Proof. reflexivity. Qed.

Lemma sub_runs_kept b s : Forall (λ c, kept ua c = true) (sub_runs ua b s).
Proof.
  revert b. induction s as [|c r IH]; intros b; simpl; [constructor|].
  destruct (kept ua c) eqn:Hc.
  - constructor; [done | apply IH].
  - destruct b; [apply IH|].
    constructor; [apply kept_underscore | apply IH].
Qed.

Lemma lstrip_us_suffix s : ∃ k, s = replicate k underscore ++ lstrip_us s.
Proof.
  induction s as [|c r [k IH]]; simpl.
  - by exists 0.
  - destruct (c =? underscore)%N eqn:Hc.
    + apply N.eqb_eq in Hc as ->. exists (S k). simpl. by f_equal.
    + by exists 0.
Qed.

Lemma lstrip_us_head s : head (lstrip_us s) ≠ Some underscore.
Proof.
  induction s as [|c r IH]; simpl; [done|].
  destruct (c =? underscore)%N eqn:Hc; [done|].
  simpl. intros [= ->]. by rewrite N.eqb_refl in Hc.
Qed.

Lemma lstrip_us_Forall (P : N → Prop) s : Forall P s → Forall P (lstrip_us s).
Proof.
  induction 1 as [|c r Hc Hr IH]; simpl; [constructor|].
  destruct (c =? underscore)%N; [done | by constructor].
Qed.

Lemma lstrip_us_id s : head s ≠ Some underscore → lstrip_us s = s.
Proof.
  destruct s as [|c r]; simpl; [done|]. intros H.
  destruct (c =? underscore)%N eqn:Hc; [|done].
  apply N.eqb_eq in Hc as ->. done.
Qed.

Lemma lstrip_us_replicate k : lstrip_us (replicate k underscore) = [].
Proof. induction k; simpl; done. Qed.

Lemma rstrip_us_Forall (P : N → Prop) s : Forall P s → Forall P (rstrip_us s).
Proof.
  intros H. unfold rstrip_us.
  apply Forall_reverse, lstrip_us_Forall, Forall_reverse, H.
Qed.

Lemma rstrip_us_last s : last (rstrip_us s) ≠ Some underscore.
Proof.
  unfold rstrip_us. rewrite last_reverse. apply lstrip_us_head.
Qed.

(** Stripping on the right keeps the first character of what is left. *)
Lemma rstrip_us_head s :
  head s ≠ Some underscore → head (rstrip_us s) ≠ Some underscore.
Proof.
  unfold rstrip_us. intros Hs.
  destruct (lstrip_us_suffix (reverse s)) as [k Hk].
  assert (s = reverse (lstrip_us (reverse s)) ++ replicate k underscore) as Hs'.
  { rewrite <- (reverse_involutive s) at 1. rewrite Hk at 1.
    by rewrite reverse_app, reverse_replicate. }
  destruct (reverse (lstrip_us (reverse s))) as [|c r] eqn:Hr; [done|].
  simpl. rewrite Hs' in Hs. simpl in Hs. done.
Qed.

Lemma strip_us_Forall (P : N → Prop) s : Forall P s → Forall P (strip_us s).
Proof. intros H. by apply rstrip_us_Forall, lstrip_us_Forall. Qed.

Lemma strip_us_head s : head (strip_us s) ≠ Some underscore.
Proof. apply rstrip_us_head, lstrip_us_head. Qed.

Lemma strip_us_last s : last (strip_us s) ≠ Some underscore.
Proof. apply rstrip_us_last. Qed.

Lemma strip_us_replicate k : strip_us (replicate k underscore) = [].
Proof. unfold strip_us. by rewrite lstrip_us_replicate. Qed.

(** What [_safe] returns is either the stripped substitution or the
    default name. *)
Lemma safe_cases s :
  (strip_us (sub_runs ua false s) = [] ∧ _safe ua s = lit "unnamed") ∨
  (strip_us (sub_runs ua false s) ≠ [] ∧ _safe ua s = strip_us (sub_runs ua false s)).
Proof.
  unfold _safe. destruct (strip_us (sub_runs ua false s)); [by left | by right].
Qed.

Lemma safe_nonempty s : _safe ua s ≠ [].
Proof. destruct (safe_cases s) as [[_ ->]|[H ->]]; done. Qed.

Lemma safe_kept s : Forall (λ c, kept ua c = true) (_safe ua s).
Proof.
  destruct (safe_cases s) as [[_ ->]|[_ ->]].
  - repeat constructor.
  - apply strip_us_Forall, sub_runs_kept.
Qed.

(** A run of characters outside the kept class, between kept characters,
    becomes one underscore. *)
Lemma sub_runs_keeps b k rest :
  Forall (λ c, kept ua c = true) k →
  sub_runs ua b (k ++ rest) = k ++ sub_runs ua (if k is [] then b else false) rest.
Proof.
  intros Hk. revert b. induction Hk as [|c r Hc Hr IH]; intros b; simpl; [done|].
  rewrite Hc. f_equal. rewrite IH. by destruct r.
Qed.

Lemma sub_runs_in_run run rest :
  Forall (λ c, kept ua c = false) run →
  sub_runs ua true (run ++ rest) = sub_runs ua true rest.
Proof. induction 1 as [|c r Hc Hr IH]; simpl; [done|]. by rewrite Hc. Qed.

Lemma sub_runs_first_kept b rest :
  (∀ c, head rest = Some c → kept ua c = true) →
  sub_runs ua b rest = sub_runs ua false rest.
Proof.
  destruct rest as [|c r]; simpl; [done|]. intros H. by rewrite (H c eq_refl).
Qed.

Lemma sub_runs_collapse k run rest :
  Forall (λ c, kept ua c = true) k →
  run ≠ [] → Forall (λ c, kept ua c = false) run →
  (∀ c, head rest = Some c → kept ua c = true) →
  sub_runs ua false (k ++ run ++ rest) = k ++ underscore :: sub_runs ua false rest.
Proof.
  intros Hk Hne Hrun Hrest. rewrite sub_runs_keeps by done. f_equal.
  destruct run as [|c r]; [done|]. inversion Hrun as [|?? Hc Hr]; subst.
  assert (sub_runs ua (if k is [] then false else false) ((c :: r) ++ rest)
          = underscore :: sub_runs ua true (r ++ rest)) as ->.
  { destruct k; simpl; by rewrite Hc. }
  f_equal. rewrite sub_runs_in_run by done. by apply sub_runs_first_kept.
Qed.

(** A name without a letter, a digit, a hyphen or a dot gets the default. *)
Lemma sub_runs_no_kept b s :
  Forall (λ c, kept ua c = false ∨ c = underscore) s →
  ∃ k, sub_runs ua b s = replicate k underscore.
Proof.
  intros H. revert b. induction H as [|c r Hc Hr IH]; intros b; simpl.
  - by exists 0.
  - destruct (kept ua c) eqn:Hk.
    + destruct Hc as [Hc | ->]; [congruence|].
      destruct (IH false) as [k ->]. by exists (S k).
    + destruct b.
      * apply IH.
      * destruct (IH true) as [k ->]. by exists (S k).
Qed.

Lemma safe_unnamed s :
  Forall (λ c, kept ua c = false ∨ c = underscore) s → _safe ua s = lit "unnamed".
Proof.
  intros H. destruct (sub_runs_no_kept false s H) as [k Hk].
  unfold _safe. by rewrite Hk, strip_us_replicate.
Qed.

Lemma kept_ascii c : (c < 128)%N → kept ua c = true → safe_class c = true.
Proof.
  unfold kept, safe_class, is_word. intros Hc.
  apply N.ltb_lt in Hc. by rewrite Hc.
Qed.

Lemma sub_runs_ascii b s :
  Forall (λ c, (c < 128)%N) s → Forall (λ c, safe_class c = true) (sub_runs ua b s).
Proof.
  intros H. revert b. induction H as [|c r Hc Hr IH]; intros b; simpl; [constructor|].
  destruct (kept ua c) eqn:Hk.
  - constructor; [by apply kept_ascii | apply IH].
  - destruct b; [apply IH|]. constructor; [done | apply IH].
Qed.

Lemma safe_ascii s :
  Forall (λ c, (c < 128)%N) s → Forall (λ c, safe_class c = true) (_safe ua s).
Proof.
  intros H. destruct (safe_cases s) as [[_ ->]|[_ ->]].
  - repeat constructor.
  - by apply strip_us_Forall, sub_runs_ascii.
Qed.

(** A sanitised name holds no path separator. *)
Lemma safe_no_slash s : 47%N ∉ _safe ua s.
Proof.
  intros Hin. pose proof (safe_kept s) as Hk.
  rewrite Forall_forall in Hk. by apply Hk in Hin.
Qed.

(** A sanitised name neither starts nor ends with an underscore. *)
Lemma safe_head_last s :
  head (_safe ua s) ≠ Some underscore ∧ last (_safe ua s) ≠ Some underscore.
Proof.
  destruct (safe_cases s) as [[_ ->]|[_ ->]].
  - split; by vm_compute.
  - split; [apply strip_us_head | apply strip_us_last].
Qed.

End SanitiseFacts.

(** C4 (as amended). [_safe] maps every string to a non-empty string over
    the characters it keeps (the word characters of [\w], the hyphen and
    the dot), which for an ASCII input is a string over [[A-Za-z0-9_.-]];
    the result neither starts nor ends with an underscore. It is the
    stripped substitution, or the default name when that is empty; the
    substitution turns a run of other characters into one underscore.
    A name made only of underscores and of characters outside the kept
    class maps to the default name, and "Red/Green 1" maps to
    "Red_Green_1". *)
Theorem safe_sanitises (ua : N → bool) (s : str) :
  _safe ua s ≠ [] ∧
  Forall (λ c, kept ua c = true) (_safe ua s) ∧
  (Forall (λ c, (c < 128)%N) s → Forall (λ c, safe_class c = true) (_safe ua s)) ∧
  head (_safe ua s) ≠ Some underscore ∧
  last (_safe ua s) ≠ Some underscore ∧
  _safe ua s =
    (if decide (strip_us (sub_runs ua false s) = []) then lit "unnamed"
     else strip_us (sub_runs ua false s)) ∧
  (∀ k run rest,
     Forall (λ c, kept ua c = true) k →
     run ≠ [] → Forall (λ c, kept ua c = false) run →
     (∀ c, head rest = Some c → kept ua c = true) →
     sub_runs ua false (k ++ run ++ rest) = k ++ underscore :: sub_runs ua false rest) ∧
  (Forall (λ c, kept ua c = false ∨ c = underscore) s → _safe ua s = lit "unnamed") ∧
  _safe ua (lit "Red/Green 1") = lit "Red_Green_1".
Proof.
  split; [apply safe_nonempty|].
  split; [apply safe_kept|].
  split; [apply safe_ascii|].
  split; [apply safe_head_last|].
  split; [apply safe_head_last|].
  split.
  { destruct (safe_cases ua s) as [[H ->]|[H ->]]; by case_decide. }
  split; [apply sub_runs_collapse|].
  split; [apply safe_unnamed|].
  reflexivity.
Qed.

Lemma safe_sanitises_witness :
  Forall (λ c, safe_class c = true) (_safe no_wide (lit "a b/c")) ∧
  _safe no_wide (lit "/_ ") = lit "unnamed".
Proof.
  split.
  - apply (safe_sanitises no_wide (lit "a b/c")).
    repeat (constructor; [reflexivity|]). constructor.
  - apply (safe_sanitises no_wide (lit "/_ ")).
    repeat (constructor; [first [by left | by right]|]). constructor.
Defined.

(** C4 (as stated) fails twice: a name of dots is all punctuation and is
    kept as it is, and U+00E9, a letter outside [[A-Za-z0-9_.-]], is kept. *)
Lemma safe_class_counterexample :
  _safe no_wide (lit "...") = lit "..." ∧
  lit "..." ≠ lit "unnamed" ∧
  _safe no_wide [233%N] = [233%N] ∧
  safe_class 233 = false.
Proof. repeat split; done. Qed.

#[global] Arguments lit : simpl never.
#[global] Arguments save : simpl never.
#[global] Arguments mkdir : simpl never.
#[global] Arguments open_image : simpl never.
#[global] Arguments get_image_data : simpl never.
#[global] Arguments _log : simpl never.
#[global] Arguments write_channel : simpl never.
#[global] Arguments process_scene : simpl never.

(** ** Running computations *)

Lemma outcome_eta {A} (o : outcome A) :
  Outcome (out_res o) (out_fs o) (out_trace o) = o.
Proof. by destruct o. Qed.

Lemma bind_eq {A B} (m : M A) (k : A → M B) fs :
  (m ≫= k) fs =
  match out_res (m fs) with
  | inl e => Outcome (inl e) (out_fs (m fs)) (out_trace (m fs))
  | inr a =>
      Outcome (out_res (k a (out_fs (m fs)))) (out_fs (k a (out_fs (m fs))))
              (out_trace (m fs) ++ out_trace (k a (out_fs (m fs))))
  end.
Proof. reflexivity. Qed.

Lemma bind_inl {A B} (m : M A) (k : A → M B) fs e :
  out_res (m fs) = inl e →
  (m ≫= k) fs = Outcome (inl e) (out_fs (m fs)) (out_trace (m fs)).
Proof. intros H. by rewrite bind_eq, H. Qed.

Lemma bind_inr {A B} (m : M A) (k : A → M B) fs a :
  out_res (m fs) = inr a →
  (m ≫= k) fs =
  Outcome (out_res (k a (out_fs (m fs)))) (out_fs (k a (out_fs (m fs))))
          (out_trace (m fs) ++ out_trace (k a (out_fs (m fs)))).
Proof. intros H. by rewrite bind_eq, H. Qed.

(** A successful sequence ran both of its parts. *)
Lemma bind_ok {A B} (m : M A) (k : A → M B) fs b :
  out_res ((m ≫= k) fs) = inr b →
  ∃ a, out_res (m fs) = inr a ∧ out_res (k a (out_fs (m fs))) = inr b.
Proof.
  rewrite bind_eq. destruct (out_res (m fs)) as [e|a]; simpl; [done|]. eauto.
Qed.

Lemma emit_bind {B} ev (k : unit → M B) fs :
  (emit ev ≫= k) fs =
  Outcome (out_res (k () fs)) (out_fs (k () fs)) (ev :: out_trace (k () fs)).
Proof. reflexivity. Qed.

Lemma ret_bind {A B} (a : A) (k : A → M B) fs : (mret a ≫= k) fs = k a fs.
Proof. rewrite bind_eq. simpl. apply outcome_eta. Qed.

Lemma get_fs_bind {B} (k : fsys → M B) fs : (get_fs ≫= k) fs = k fs fs.
Proof. rewrite bind_eq. simpl. apply outcome_eta. Qed.

Lemma log_eq rq msg fs :
  _log rq msg fs = Outcome (inr ()) fs (if verbose rq then [EvPrint msg] else []).
Proof. unfold _log. by destruct (verbose rq). Qed.

Lemma mkdir_eq p fs :
  mkdir p fs =
  match mkdir_from [] p fs with
  | inl e => Outcome (inl e) fs [EvMkdir p]
  | inr fs' => Outcome (inr ()) fs' [EvMkdir p]
  end.
Proof.
  unfold mkdir. rewrite emit_bind, get_fs_bind.
  by destruct (mkdir_from [] p fs).
Qed.

Lemma save_eq wr v p b fs :
  save wr v p b fs =
  match wr p v b with
  | Some e => Outcome (inl e) fs [EvSave p v b]
  | None =>
      match node_at fs p with
      | Some Dir => Outcome (inl IsADirectoryError) fs [EvSave p v b]
      | _ =>
          match node_at fs (path_parent p) with
          | Some Dir => Outcome (inr ()) (<[p := File None]> fs) [EvSave p v b]
          | Some (File _) => Outcome (inl NotADirectoryError) fs [EvSave p v b]
          | None => Outcome (inl FileNotFoundError) fs [EvSave p v b]
          end
      end
  end.
Proof.
  unfold save. rewrite emit_bind. destruct (wr p v b) as [e|]; [done|].
  rewrite get_fs_bind.
  destruct (node_at fs p) as [[|?]|]; try done;
    by destruct (node_at fs (path_parent p)) as [[|?]|].
Qed.

Lemma open_image_eq p fs :
  open_image p fs =
  match node_at fs p with
  | Some (File (Some img)) => Outcome (inr img) fs [EvOpen p]
  | _ => Outcome (inl ReaderError) fs [EvOpen p]
  end.
Proof.
  unfold open_image. rewrite emit_bind, get_fs_bind.
  by destruct (node_at fs p) as [[|[?|]]|].
Qed.

Lemma get_image_data_eq scene view sel c fs :
  get_image_data scene view sel c fs =
  if sv_readable view sel c
  then Outcome (inr (Volume scene sel c None)) fs [EvRead scene sel c]
  else Outcome (inl ReaderError) fs [EvRead scene sel c].
Proof.
  unfold get_image_data. rewrite emit_bind. by destruct (sv_readable view sel c).
Qed.

Lemma lift_exn_eq {A} (r : exn + A) fs : lift_exn r fs = Outcome r fs [].
Proof. by destruct r. Qed.

(** ** Directories *)

Lemma mkdir_from_subseteq d todo fs fs' :
  mkdir_from d todo fs = inr fs' → fs ⊆ fs'.
Proof.
  revert d fs. induction todo as [|x r IH]; intros d fs; simpl.
  - by intros [= ->].
  - destruct (fs !! (d ++ [x])) as [[|?]|] eqn:Hq; [apply IH|done|].
    intros H. apply IH in H. etrans; [|exact H].
    by apply insert_subseteq.
Qed.

(** After [mkdir -p] every prefix of the path is a directory. *)
Lemma mkdir_from_dirs d todo fs fs' k :
  mkdir_from d todo fs = inr fs' → 0 < k ≤ length todo →
  fs' !! (d ++ take k todo) = Some Dir.
Proof.
  revert d fs k. induction todo as [|x r IH]; intros d fs k; simpl; [lia|].
  intros H Hk.
  assert (∀ fs0, fs0 !! (d ++ [x]) = Some Dir →
            mkdir_from (d ++ [x]) r fs0 = inr fs' →
            fs' !! (d ++ take k (x :: r)) = Some Dir) as Hstep.
  { intros fs0 Hx H0. destruct k as [|k]; [lia|]. simpl.
    destruct k as [|k].
    - rewrite take_0. eapply lookup_weaken; [exact Hx|].
      by eapply mkdir_from_subseteq.
    - replace (d ++ x :: take (S k) r) with ((d ++ [x]) ++ take (S k) r)
        by (by rewrite <- app_assoc).
      eapply IH; [exact H0|]. simpl in Hk. lia. }
  destruct (fs !! (d ++ [x])) as [[|?]|] eqn:Hq; [|done|].
  - by eapply Hstep.
  - eapply Hstep; [|exact H]. by rewrite lookup_insert_eq.
Qed.

(** Where every prefix already is a directory, [mkdir -p] changes nothing. *)
Lemma mkdir_from_fixed d todo F :
  (∀ k, 0 < k ≤ length todo → F !! (d ++ take k todo) = Some Dir) →
  mkdir_from d todo F = inr F.
Proof.
  revert d. induction todo as [|x r IH]; intros d H; simpl; [done|].
  pose proof (H 1) as H1. simpl in H1. rewrite take_0 in H1.
  rewrite H1 by lia. apply IH.
  intros k Hk. specialize (H (S k)). simpl in H.
  rewrite <- app_assoc. apply H. lia.
Qed.

(** [mkdir -p] touches the prefixes of its path only. *)
Lemma mkdir_from_frame d todo fs fs' q :
  mkdir_from d todo fs = inr fs' →
  (∀ k, 0 < k ≤ length todo → q ≠ d ++ take k todo) →
  fs' !! q = fs !! q.
Proof.
  revert d fs. induction todo as [|x r IH]; intros d fs; simpl.
  - by intros [= ->].
  - intros H Hq.
    assert (∀ k, 0 < k ≤ length r → q ≠ (d ++ [x]) ++ take k r) as Hq'.
    { intros k Hk. rewrite <- app_assoc. apply (Hq (S k)). lia. }
    destruct (fs !! (d ++ [x])) as [[|?]|] eqn:Hx; [by eapply IH|done|].
    rewrite (IH _ _ H Hq'). apply lookup_insert_ne.
    intros <-. by apply (Hq 1); [simpl; lia|].
Qed.

Lemma mkdir_from_target p fs fs' :
  mkdir_from [] p fs = inr fs' → node_at fs' p = Some Dir.
Proof.
  intros H. destruct p as [|x r]; [done|]. simpl.
  pose proof (mkdir_from_dirs [] (x :: r) fs fs' (length (x :: r)) H) as Hd.
  rewrite firstn_all in Hd. apply Hd. simpl. lia.
Qed.

Lemma path_parent_ne (p : path) : p ≠ [] → path_parent p ≠ p.
Proof.
  intros Hp Heq. apply (f_equal length) in Heq. unfold path_parent in Heq.
  rewrite removelast_firstn_len, length_take in Heq.
  destruct p; [done|]. simpl in Heq. lia.
Qed.

(** A successful save found no directory at the path and a directory
    above it, and left a written file. *)
Lemma save_ok wr v p b fs :
  out_res (save wr v p b fs) = inr () →
  p ≠ [] ∧ fs !! p ≠ Some Dir ∧ node_at fs (path_parent p) = Some Dir ∧
  save wr v p b fs = Outcome (inr ()) (<[p := File None]> fs) [EvSave p v b].
Proof.
  rewrite save_eq. destruct (wr p v b) as [e|]; [done|].
  destruct p as [|x r]; [done|].
  change (node_at fs (x :: r)) with (fs !! (x :: r)).
  destruct (fs !! (x :: r)) as [[|?]|]; [done| |];
    by destruct (node_at fs (path_parent (x :: r))) as [[|?]|].
Qed.

(** A successful save was accepted by the writer. *)
Lemma save_accepted wr v p b fs :
  out_res (save wr v p b fs) = inr () → wr p v b = None.
Proof. rewrite save_eq. by destruct (wr p v b). Qed.

(** Saving over a written file changes nothing. *)
Lemma save_fixed wr (v : volume) (p : path) (b : bool) (F : fsys) :
  wr p v b = None →
  p ≠ [] → F !! p = Some (File None) → node_at F (path_parent p) = Some Dir →
  save wr v p b F = Outcome (inr ()) F [EvSave p v b].
Proof.
  intros Hw Hp HF Hpar. rewrite save_eq, Hw. destruct p as [|x r]; [done|].
  change (node_at F (x :: r)) with (F !! (x :: r)).
  rewrite HF, Hpar. by rewrite insert_id.
Qed.

(** ** What later calls keep *)

Lemma ext_refl (L : path) fs : ext L fs fs.
Proof. by intros p x. Qed.

Lemma ext_trans (L : path) fs1 fs2 fs3 : ext L fs1 fs2 → ext L fs2 fs3 → ext L fs1 fs3.
Proof. intros H1 H2 p x Hp Hx. by eapply H2, Hx; eapply H1. Qed.

Lemma ext_subseteq (L : path) (fs fs' : fsys) : fs ⊆ fs' → ext L fs fs'.
Proof. intros H p x Hp _. by eapply lookup_weaken. Qed.

Lemma ext_save (L : path) (fs : fsys) p :
  p ≠ L → fs !! p ≠ Some Dir → ext L fs (<[p := File None]> fs).
Proof.
  intros HL Hd q x Hq Hx. destruct (decide (p = q)) as [<-|Hne].
  - rewrite lookup_insert_eq. destruct Hx as [-> | [-> | ->]]; done.
  - by rewrite lookup_insert_ne.
Qed.

Lemma ext_node_at (L : path) fs F p :
  ext L fs F → node_at fs p = Some Dir → node_at F p = Some Dir.
Proof. destruct p; [done|]. simpl. intros H Hp. eapply H; eauto. Qed.

(** ** File names *)

Lemma rfind_dot_lookup s i : rfind_dot s = Some i → s !! i = Some 46%N.
Proof.
  revert i. induction s as [|c r IH]; intros i; simpl; [done|].
  destruct (rfind_dot r) as [j|].
  - intros [= <-]. simpl. by apply IH.
  - destruct (c =? 46)%N eqn:Hc; [|done].
    intros [= <-]. simpl. by apply N.eqb_eq in Hc as ->.
Qed.

(** A name is its stem followed by its suffix, which is empty or starts
    with a dot. *)
Lemma stem_of_split name :
  ∃ sfx, name = stem_of name ++ sfx ∧ (sfx = [] ∨ head sfx = Some 46%N).
Proof.
  unfold stem_of. destruct (rfind_dot name) as [i|] eqn:Hi.
  - destruct (bool_decide (0 < i) && bool_decide (i < length name - 1)).
    + exists (drop i name). split; [by rewrite take_drop|]. right.
      apply rfind_dot_lookup in Hi. by rewrite head_lookup, lookup_drop, Nat.add_0_r.
    + exists []. split; [by rewrite app_nil_r | by left].
  - exists []. split; [by rewrite app_nil_r | by left].
Qed.

(** No output file has the name of the input file. *)
Lemma file_name_ne ua rq scene part :
  file_name ua rq scene part ≠ path_name (lif_path rq).
Proof.
  unfold file_name. destruct (stem_of_split (path_name (lif_path rq))) as (sfx & Hn & Hs).
  intros H. rewrite Hn in H at 2. apply app_inv_head in H.
  destruct Hs as [-> | Hs]; [done|]. by rewrite <- H in Hs.
Qed.

Lemma out_path_ne ua rq d scene part :
  d ++ [file_name ua rq scene part] ≠ lif_path rq.
Proof.
  intros H. apply (file_name_ne ua rq scene part).
  unfold path_name. by rewrite <- H, last_snoc.
Qed.

(** ** Computations that only add to the file system *)

Section Inflates.

Variable L : path.

Lemma inflates_ret {A} (a : A) : inflates L (mret a).
Proof. intros fs. apply ext_refl. Qed.

Lemma inflates_raise {A} e : inflates L (raise (A:=A) e).
Proof. intros fs. apply ext_refl. Qed.

Lemma inflates_emit ev : inflates L (emit ev).
Proof. intros fs. apply ext_refl. Qed.

Lemma inflates_log rq msg : inflates L (_log rq msg).
Proof. intros fs. rewrite log_eq. apply ext_refl. Qed.

Lemma inflates_lift {A} (r : exn + A) : inflates L (lift_exn r).
Proof. intros fs. rewrite lift_exn_eq. apply ext_refl. Qed.

Lemma inflates_bind {A B} (m : M A) (k : A → M B) :
  inflates L m → (∀ a, inflates L (k a)) → inflates L (m ≫= k).
Proof.
  intros Hm Hk fs. rewrite bind_eq.
  destruct (out_res (m fs)) as [e|a]; simpl; [apply Hm|].
  eapply ext_trans; [apply Hm | apply Hk].
Qed.

Lemma inflates_for_each {A B} (l : list A) (body : A → M (list B)) :
  (∀ x, inflates L (body x)) → inflates L (for_each l body).
Proof.
  intros Hb. induction l as [|x r IH]; simpl; [apply inflates_ret|].
  apply inflates_bind; [apply Hb|]. intros ys.
  apply inflates_bind; [apply IH|]. intros zs. apply inflates_ret.
Qed.

Lemma inflates_mkdir p : inflates L (mkdir p).
Proof.
  intros fs. rewrite mkdir_eq.
  destruct (mkdir_from [] p fs) as [e|fs'] eqn:H; simpl; [apply ext_refl|].
  by eapply ext_subseteq, mkdir_from_subseteq.
Qed.

Lemma inflates_save wr v p b : p ≠ L → inflates L (save wr v p b).
Proof.
  intros HL fs. rewrite save_eq. destruct (wr p v b) as [e|]; [apply ext_refl|].
  destruct p as [|x r] eqn:Hp; [apply ext_refl|]. rewrite <- Hp in *.
  assert (node_at fs p = fs !! p) as -> by by rewrite Hp.
  destruct (fs !! p) as [[|?]|] eqn:Hn; simpl; [apply ext_refl| |];
    (destruct (node_at fs (path_parent p)) as [[|?]|]; simpl;
      [apply ext_save; [done | by rewrite Hn] | apply ext_refl | apply ext_refl]).
Qed.

Lemma inflates_get_image_data scene view sel c :
  inflates L (get_image_data scene view sel c).
Proof.
  intros fs. rewrite get_image_data_eq.
  destruct (sv_readable view sel c); apply ext_refl.
Qed.

Lemma inflates_open p : inflates L (open_image p).
Proof.
  intros fs. rewrite open_image_eq.
  destruct (node_at fs p) as [[|[?|]]|]; apply ext_refl.
Qed.

End Inflates.

Lemma inflates_write_channel ua wr rq scene scene_dir view labels names t c :
  inflates (lif_path rq) (write_channel ua wr rq scene scene_dir view labels names t c).
Proof.
  unfold write_channel.
  apply inflates_bind; [apply inflates_get_image_data|]. intros zyx.
  apply inflates_bind; [apply inflates_lift|]. intros part.
  apply inflates_bind; [apply inflates_save, out_path_ne|]. intros _.
  apply inflates_bind; [apply inflates_log|]. intros _. apply inflates_ret.
Qed.

Lemma inflates_process_scene ua wr rq img out base ov scene :
  inflates (lif_path rq) (process_scene ua wr rq img out base ov scene).
Proof.
  unfold process_scene.
  apply inflates_bind; [apply inflates_emit|]. intros _.
  apply inflates_bind; [apply inflates_mkdir|]. intros _.
  match goal with |- context [if ?b then _ else _] => destruct b end.
  - apply inflates_bind; [apply inflates_log|]. intros _. apply inflates_ret.
  - apply inflates_bind; [apply inflates_log|]. intros _.
    apply inflates_bind.
    { match goal with |- context [if ?b then _ else _] => destruct b end;
        [apply inflates_log | apply inflates_ret]. }
    intros _. apply inflates_bind; [apply inflates_log|]. intros _.
    apply inflates_for_each. intros t. apply inflates_for_each. intros c.
    apply inflates_write_channel.
Qed.

(** ** Computations that can be run again *)

Section Replays.

Variable L : path.

Lemma replays_ret {A} (a : A) : replays L (mret a).
Proof. by intros fs F a' [= <-] _. Qed.

Lemma replays_raise {A} e : replays L (raise (A:=A) e).
Proof. by intros fs F a. Qed.

Lemma replays_emit ev : replays L (emit ev).
Proof. by intros fs F [] _ _. Qed.

Lemma replays_log rq msg : replays L (_log rq msg).
Proof. intros fs F [] _ _. by rewrite !log_eq. Qed.

Lemma replays_lift {A} (r : exn + A) : replays L (lift_exn r).
Proof. intros fs F a. rewrite !lift_exn_eq. simpl. by intros -> _. Qed.

Lemma replays_bind {A B} (m : M A) (k : A → M B) :
  replays L m → (∀ a, inflates L (k a)) → (∀ a, replays L (k a)) →
  replays L (m ≫= k).
Proof.
  intros Hm Hi Hk fs F b Hb HF.
  destruct (bind_ok _ _ _ _ Hb) as (a & Ha & Hka).
  rewrite (bind_inr _ _ _ _ Ha) in HF |- *. simpl in HF.
  assert (m F = Outcome (inr a) F (out_trace (m fs))) as HmF.
  { apply Hm; [done|]. eapply ext_trans; [apply Hi | exact HF]. }
  rewrite bind_eq, HmF. simpl.
  by rewrite (Hk a _ F b Hka HF).
Qed.

Lemma replays_for_each {A B} (l : list A) (body : A → M (list B)) :
  (∀ x, inflates L (body x)) → (∀ x, replays L (body x)) →
  replays L (for_each l body).
Proof.
  intros Hi Hb. induction l as [|x r IH]; simpl; [apply replays_ret|].
  apply replays_bind; [apply Hb | | ].
  - intros ys. apply inflates_bind; [by apply inflates_for_each|].
    intros zs. apply inflates_ret.
  - intros ys. apply replays_bind; [apply IH | |].
    + intros zs. apply inflates_ret.
    + intros zs. apply replays_ret.
Qed.

Lemma replays_mkdir p : replays L (mkdir p).
Proof.
  intros fs F [] Hr HF. rewrite mkdir_eq in Hr, HF |- *. rewrite mkdir_eq.
  destruct (mkdir_from [] p fs) as [e|fs'] eqn:H; [done|]. simpl in HF.
  rewrite mkdir_from_fixed; [done|].
  intros k Hk. eapply HF; [|by left]. simpl.
  by eapply (mkdir_from_dirs []).
Qed.

Lemma replays_save wr v p b : replays L (save wr v p b).
Proof.
  intros fs F [] Hr HF.
  destruct (save_ok _ _ _ _ _ Hr) as (Hp & Hd & Hpar & Heq).
  pose proof (save_accepted _ _ _ _ _ Hr) as Hw.
  rewrite Heq in HF |- *. simpl in HF.
  apply save_fixed; [done | done | |].
  - eapply HF; [apply lookup_insert_eq | right; by left].
  - eapply ext_node_at; [exact HF|].
    destruct (path_parent p) as [|y q] eqn:Hq; [done|]. simpl in *.
    rewrite lookup_insert_ne; [done|].
    intros Heq'. apply (path_parent_ne p Hp). by rewrite Hq.
Qed.

Lemma replays_get_image_data scene view sel c :
  replays L (get_image_data scene view sel c).
Proof.
  intros fs F a. rewrite !get_image_data_eq.
  destruct (sv_readable view sel c); simpl; [|done]. by intros [= <-] _.
Qed.

Lemma replays_open : replays L (open_image L).
Proof.
  intros fs F img. rewrite !open_image_eq.
  destruct L as [|x r] eqn:HL; [done|]. simpl.
  destruct (fs !! (x :: r)) as [[|[img'|]]|] eqn:Hn; simpl; try done.
  intros [= <-] HF. rewrite (HF _ _ Hn); [done | right; by right].
Qed.

End Replays.

Lemma replays_write_channel ua wr rq scene scene_dir view labels names t c :
  replays (lif_path rq) (write_channel ua wr rq scene scene_dir view labels names t c).
Proof.
  unfold write_channel.
  apply replays_bind; [apply replays_get_image_data | |].
  { intros zyx.
    apply inflates_bind; [apply inflates_lift|]. intros part.
    apply inflates_bind; [apply inflates_save, out_path_ne|]. intros _.
    apply inflates_bind; [apply inflates_log|]. intros _. apply inflates_ret. }
  intros zyx. apply replays_bind; [apply replays_lift | |].
  { intros part.
    apply inflates_bind; [apply inflates_save, out_path_ne|]. intros _.
    apply inflates_bind; [apply inflates_log|]. intros _. apply inflates_ret. }
  intros part. apply replays_bind; [apply replays_save | |].
  { intros _. apply inflates_bind; [apply inflates_log|]. intros _. apply inflates_ret. }
  intros _. apply replays_bind; [apply replays_log | |].
  { intros _. apply inflates_ret. }
  intros _. apply replays_ret.
Qed.

Ltac inflate :=
  repeat first
    [ apply inflates_ret | apply inflates_raise | apply inflates_emit
    | apply inflates_log | apply inflates_lift | apply inflates_mkdir
    | apply inflates_get_image_data | apply inflates_open
    | apply inflates_write_channel | apply inflates_process_scene
    | apply inflates_for_each; intros ?
    | apply inflates_bind; [|intros ?]
    | match goal with |- inflates _ (if ?b then _ else _) => destruct b end ].

Ltac replay_with known :=
  repeat first
    [ known
    | apply replays_ret | apply replays_raise | apply replays_emit
    | apply replays_log | apply replays_lift | apply replays_mkdir
    | apply replays_get_image_data | apply replays_open
    | apply replays_write_channel
    | apply replays_for_each; [intros ?; inflate | intros ?]
    | apply replays_bind; [ | intros ?; inflate | intros ?]
    | match goal with |- replays _ (if ?b then _ else _) => destruct b end ].

Lemma replays_process_scene ua wr rq img out base ov scene :
  replays (lif_path rq) (process_scene ua wr rq img out base ov scene).
Proof. unfold process_scene, set_scene. replay_with fail. Qed.

Lemma path_exists_bind {B} p (k : bool → M B) fs :
  (path_exists p ≫= k) fs = k (bool_decide (is_Some (node_at fs p))) fs.
Proof. unfold path_exists. rewrite bind_eq. simpl. apply outcome_eta. Qed.

Lemma ext_exists (L : path) fs F :
  ext L fs F → is_Some (node_at fs L) → is_Some (node_at F L).
Proof.
  destruct L as [|x r]; [done|]. simpl. intros H [n Hn].
  exists n. eapply H; [done|]. right; by right.
Qed.

(** A computation guarded by the existence of [L] can be run again when
    what it guards can. *)
Lemma rerun_guarded {A} (L : path) (rest : M A) fs a :
  inflates L rest → replays L rest →
  out_res ((ex ← path_exists L;
            if negb ex then raise FileNotFoundError else rest) fs) = inr a →
  (ex ← path_exists L; if negb ex then raise FileNotFoundError else rest)
    (out_fs ((ex ← path_exists L;
              if negb ex then raise FileNotFoundError else rest) fs)) =
  Outcome (inr a)
    (out_fs ((ex ← path_exists L;
              if negb ex then raise FileNotFoundError else rest) fs))
    (out_trace ((ex ← path_exists L;
                 if negb ex then raise FileNotFoundError else rest) fs)).
Proof.
  intros Hi Hr. rewrite !path_exists_bind.
  destruct (bool_decide (is_Some (node_at fs L))) eqn:Hex; simpl; [|done].
  apply bool_decide_eq_true in Hex. intros Ha.
  rewrite bool_decide_eq_true_2 by (eapply ext_exists; [apply Hi | done]).
  simpl. apply Hr; [done | apply ext_refl].
Qed.

(** C9. When a call returns a list of paths, the same call on the file
    system it left returns the same list, makes the same calls (so it
    writes to the same paths) and leaves the file system as it was: the
    files are overwritten, none is added. *)
Theorem rerun_same_paths (ua : N → bool) (wr : writer) (rq : request) (fs : fsys) (written : list path) :
  out_res (split_lif_to_channels ua wr rq fs) = inr written →
  split_lif_to_channels ua wr rq (out_fs (split_lif_to_channels ua wr rq fs)) =
  Outcome (inr written)
          (out_fs (split_lif_to_channels ua wr rq fs))
          (out_trace (split_lif_to_channels ua wr rq fs)).
Proof.
  unfold split_lif_to_channels. apply rerun_guarded.
  - inflate.
  - replay_with ltac:(apply replays_process_scene).
Qed.

Lemma rerun_same_paths_witness :
  split_lif_to_channels no_wide accepts_all plain_request
    (out_fs (split_lif_to_channels no_wide accepts_all plain_request (disk two_scenes))) =
  Outcome (inr two_scenes_paths)
    (out_fs (split_lif_to_channels no_wide accepts_all plain_request (disk two_scenes)))
    (out_trace (split_lif_to_channels no_wide accepts_all plain_request (disk two_scenes))).
Proof.
  apply (rerun_same_paths no_wide accepts_all plain_request (disk two_scenes) two_scenes_paths).
  vm_compute. reflexivity.
Defined.

Lemma split_missing ua wr rq fs :
  node_at fs (lif_path rq) = None →
  split_lif_to_channels ua wr rq fs = Outcome (inl FileNotFoundError) fs [].
Proof.
  intros H. unfold split_lif_to_channels. rewrite path_exists_bind, H.
  rewrite bool_decide_eq_false_2; [done|]. by intros [? ?].
Qed.

(** The header of the run, up to the test of [dtype]: what is left to do
    once the input exists, the output directory is made and the container
    is open. *)
Lemma split_opened rq fs out fs1 img :
  is_Some (node_at fs (lif_path rq)) →
  outdir_of rq = inr out →
  mkdir_from [] out fs = inr fs1 →
  node_at fs1 (lif_path rq) = Some (File (Some img)) →
  ∃ header : list event,
    calls header = [EvMkdir out; EvOpen (lif_path rq)] ∧
    saved_paths header = [] ∧
    ∀ rest : path → image → M (list path),
      (ex ← path_exists (lif_path rq);
       if negb ex then raise FileNotFoundError else
       out' ← lift_exn (outdir_of rq);
       mkdir out';;
       img' ← open_image (lif_path rq);
       let first := img_view img' (img_first img') in
       let base_channel_names := names_or (sv_channel_names first) None in
       let override_names := override_of (channel_names rq) in
       _log rq (MsgOpened (lif_path rq));;
       _log rq (MsgScenes (length (img_scenes img'))
                  (_dim_labels (sv_dims first)) (sv_shape first));;
       (if truthy base_channel_names
        then _log rq (MsgBaseNames (default [] base_channel_names)) else mret ());;
       (if truthy override_names
        then _log rq (MsgOverride (default [] override_names)) else mret ());;
       rest out' img') fs =
      Outcome (out_res (rest out img fs1)) (out_fs (rest out img fs1))
              (header ++ out_trace (rest out img fs1)).
Proof.
  intros Hex Hout Hmk Himg.
  exists ([EvMkdir out; EvOpen (lif_path rq)]
     ++ (if verbose rq then [EvPrint (MsgOpened (lif_path rq))] else [])
     ++ (if verbose rq then
           [EvPrint (MsgScenes (length (img_scenes img))
              (_dim_labels (sv_dims (img_view img (img_first img))))
              (sv_shape (img_view img (img_first img))))] else [])
     ++ (if truthy (names_or (sv_channel_names (img_view img (img_first img))) None)
            && verbose rq
         then [EvPrint (MsgBaseNames (default []
                 (names_or (sv_channel_names (img_view img (img_first img))) None)))]
         else [])
     ++ (if truthy (override_of (channel_names rq)) && verbose rq
         then [EvPrint (MsgOverride (default [] (override_of (channel_names rq))))]
         else [])).
  split; [|split].
  - destruct (verbose rq), (truthy _), (truthy _); reflexivity.
  - destruct (verbose rq), (truthy _), (truthy _); reflexivity.
  - intros rest. rewrite path_exists_bind.
    rewrite bool_decide_eq_true_2 by done. cbv beta iota delta [negb].
    rewrite bind_eq, lift_exn_eq, Hout. simpl.
    rewrite bind_eq, mkdir_eq, Hmk. simpl.
    rewrite bind_eq, open_image_eq, Himg. simpl.
    rewrite !bind_eq, !log_eq. simpl.
    destruct (truthy (names_or _ None)), (truthy (override_of _)); simpl;
      rewrite ?log_eq; simpl; destruct (verbose rq); simpl; reflexivity.
Qed.

Lemma mkdir_from_files d todo fs fs' p x :
  mkdir_from d todo fs = inr fs' →
  fs' !! p = Some (File x) → fs !! p = Some (File x).
Proof.
  revert d fs. induction todo as [|y r IH]; intros d fs; simpl.
  - by intros [= ->].
  - destruct (fs !! (d ++ [y])) as [[|?]|] eqn:Hq; [apply IH|done|].
    intros H Hp. specialize (IH _ _ H Hp).
    destruct (decide (d ++ [y] = p)) as [<-|Hne].
    + by rewrite lookup_insert_eq in IH.
    + by rewrite lookup_insert_ne in IH.
Qed.

Lemma calls_app tr1 tr2 : calls (tr1 ++ tr2) = calls tr1 ++ calls tr2.
Proof. unfold calls. apply filter_app. Qed.

Lemma saved_paths_app tr1 tr2 :
  saved_paths (tr1 ++ tr2) = saved_paths tr1 ++ saved_paths tr2.
Proof. unfold saved_paths. apply omap_app. Qed.

(** The test of line 126. *)
Lemma dtype_test rq :
  dtype rq ≠ lit "native" → dtype rq ∉ dtype_map →
  bool_decide (dtype rq ≠ lit "native") && bool_decide (dtype rq ∉ dtype_map) = true.
Proof. intros H1 H2. by rewrite !bool_decide_eq_true_2. Qed.

(** How far a run gets before the container is open. *)
Lemma split_early ua wr rq fs :
  (node_at fs (lif_path rq) = None ∧
   split_lif_to_channels ua wr rq fs = Outcome (inl FileNotFoundError) fs []) ∨
  (∃ e, is_Some (node_at fs (lif_path rq)) ∧ outdir_of rq = inl e ∧
        split_lif_to_channels ua wr rq fs = Outcome (inl e) fs []) ∨
  (∃ out e, outdir_of rq = inr out ∧ mkdir_from [] out fs = inl e ∧
        split_lif_to_channels ua wr rq fs = Outcome (inl e) fs [EvMkdir out]) ∨
  (∃ out fs1 e, outdir_of rq = inr out ∧ mkdir_from [] out fs = inr fs1 ∧
        (node_at fs1 (lif_path rq) = None ∨ node_at fs1 (lif_path rq) = Some Dir ∨
         node_at fs1 (lif_path rq) = Some (File None)) ∧
        split_lif_to_channels ua wr rq fs
          = Outcome (inl e) fs1 [EvMkdir out; EvOpen (lif_path rq)]) ∨
  (∃ out fs1 img, is_Some (node_at fs (lif_path rq)) ∧ outdir_of rq = inr out ∧
        mkdir_from [] out fs = inr fs1 ∧
        node_at fs1 (lif_path rq) = Some (File (Some img))).
Proof.
  destruct (node_at fs (lif_path rq)) as [n|] eqn:Hex;
    [|left; split; [done | by apply split_missing]].
  right. unfold split_lif_to_channels. rewrite path_exists_bind, Hex.
  rewrite bool_decide_eq_true_2 by eauto. cbv beta iota delta [negb].
  rewrite bind_eq, lift_exn_eq. simpl.
  destruct (outdir_of rq) as [e|out] eqn:Hout; simpl; [left; eauto|].
  right. rewrite bind_eq, mkdir_eq.
  destruct (mkdir_from [] out fs) as [e|fs1] eqn:Hmk; simpl; [left; eauto|].
  right. rewrite bind_eq, open_image_eq.
  destruct (node_at fs1 (lif_path rq)) as [[|[img|]]|] eqn:Himg; simpl.
  - left. exists out, fs1. eauto 10.
  - right. exists out, fs1, img. eauto.
  - left. exists out, fs1. eauto 10.
  - left. exists out, fs1. eauto 10.
Qed.

(** C8 (as amended). When nothing exists at the input path, neither a file
    nor a directory, the call raises FileNotFoundError at once: it makes no
    call and leaves the file system as it was, so that no output directory
    is created. When something exists there, a file or a directory, the
    guard lets the call through: its first call creates the output
    directory. *)
Theorem missing_input_rejected (ua : N → bool) (wr : writer) (rq : request) (fs : fsys) :
  (node_at fs (lif_path rq) = None →
   split_lif_to_channels ua wr rq fs = Outcome (inl FileNotFoundError) fs []) ∧
  (is_Some (node_at fs (lif_path rq)) →
   ∀ out, outdir_of rq = inr out →
     ∃ rest, calls (out_trace (split_lif_to_channels ua wr rq fs)) = EvMkdir out :: rest).
Proof.
  split.
  - intros H. unfold split_lif_to_channels. rewrite path_exists_bind, H.
    rewrite bool_decide_eq_false_2; [done|]. by intros [? ?].
  - intros Hex out Hout.
    destruct (split_early ua wr rq fs)
      as [[Hno _] | [(e & _ & He & _) | [(out' & e & Hout' & _ & ->) |
          [(out' & fs1 & e & Hout' & _ & _ & ->) |
           (out' & fs1 & img & _ & Hout' & Hmk & Himg)]]]].
    + rewrite Hno in Hex. by destruct Hex.
    + congruence.
    + assert (out' = out) as -> by congruence. by eexists.
    + assert (out' = out) as -> by congruence. by eexists.
    + assert (out' = out) as -> by congruence.
      destruct (split_opened rq fs out fs1 img Hex Hout Hmk Himg)
        as (header & Hcalls & _ & Hrun).
      unfold split_lif_to_channels. rewrite Hrun. cbn.
      rewrite calls_app, Hcalls. by eexists.
Qed.

Lemma missing_input_rejected_witness :
  split_lif_to_channels no_wide accepts_all plain_request ∅ =
    Outcome (inl FileNotFoundError) ∅ [] ∧
  ∃ rest, calls (out_trace (split_lif_to_channels no_wide accepts_all directory_request
                              (disk two_scenes)))
          = EvMkdir [lit "data_export"] :: rest.
Proof.
  split.
  - apply (missing_input_rejected no_wide accepts_all plain_request ∅). reflexivity.
  - apply (missing_input_rejected no_wide accepts_all directory_request (disk two_scenes)).
    + by eexists.
    + reflexivity.
Defined.

(** C8 (as stated) fails for an input path that is a directory: no file
    exists there, yet [exists()] holds, the output directory is created and
    the error comes from the reader. *)
Lemma directory_input_counterexample :
  disk two_scenes !! data_dir = Some Dir ∧
  disk two_scenes !! [lit "data_export"] = None ∧
  out_res (split_lif_to_channels no_wide accepts_all directory_request (disk two_scenes))
    = inl ReaderError ∧
  out_fs (split_lif_to_channels no_wide accepts_all directory_request (disk two_scenes))
    !! [lit "data_export"] = Some Dir ∧
  out_trace (split_lif_to_channels no_wide accepts_all directory_request (disk two_scenes))
    = [EvMkdir [lit "data_export"]; EvOpen data_dir].
Proof. repeat split; vm_compute; reflexivity. Qed.

(** C1 (as amended). A call whose [dtype] is neither "native" nor a key of
    [dtype_map] never returns a list: it fails, its calls are at most the
    creation of the output directory and the opening of the container, in
    that order, and it creates or changes no file. When the input exists,
    the output directory can be made and the container opens, the failure
    is the ValueError: it is raised after the output directory was created
    and the container opened, before any scene is selected, and the file
    system is left as the creation of the output directory left it. *)
Theorem invalid_dtype_rejected (ua : N → bool) (wr : writer) (rq : request) (fs : fsys) :
  dtype rq ≠ lit "native" → dtype rq ∉ dtype_map →
  (∃ e, out_res (split_lif_to_channels ua wr rq fs) = inl e) ∧
  (∀ out, outdir_of rq = inr out →
     calls (out_trace (split_lif_to_channels ua wr rq fs))
       `prefix_of` [EvMkdir out; EvOpen (lif_path rq)]) ∧
  (∀ p x, out_fs (split_lif_to_channels ua wr rq fs) !! p = Some (File x) →
          fs !! p = Some (File x)) ∧
  (∀ out fs1 img,
     is_Some (node_at fs (lif_path rq)) →
     outdir_of rq = inr out →
     mkdir_from [] out fs = inr fs1 →
     node_at fs1 (lif_path rq) = Some (File (Some img)) →
     out_res (split_lif_to_channels ua wr rq fs) = inl ValueError ∧
     out_fs (split_lif_to_channels ua wr rq fs) = fs1 ∧
     node_at fs1 out = Some Dir ∧
     calls (out_trace (split_lif_to_channels ua wr rq fs))
       = [EvMkdir out; EvOpen (lif_path rq)]).
Proof.
  intros Hn Hm.
  assert (∀ out fs1 img,
     is_Some (node_at fs (lif_path rq)) →
     outdir_of rq = inr out →
     mkdir_from [] out fs = inr fs1 →
     node_at fs1 (lif_path rq) = Some (File (Some img)) →
     out_res (split_lif_to_channels ua wr rq fs) = inl ValueError ∧
     out_fs (split_lif_to_channels ua wr rq fs) = fs1 ∧
     node_at fs1 out = Some Dir ∧
     calls (out_trace (split_lif_to_channels ua wr rq fs))
       = [EvMkdir out; EvOpen (lif_path rq)]) as Hfull.
  { intros out fs1 img Hex Hout Hmk Himg.
    destruct (split_opened rq fs out fs1 img Hex Hout Hmk Himg)
      as (header & Hcalls & _ & Hrun).
    unfold split_lif_to_channels. rewrite Hrun. simpl.
    rewrite dtype_test by done. simpl.
    rewrite app_nil_r. eauto using mkdir_from_target. }
  destruct (split_early ua wr rq fs)
    as [[Hex ->] | [(e & Hex & Hout & ->) | [(out & e & Hout & Hmk & ->) |
        [(out & fs1 & e & Hout & Hmk & Himg & ->) |
         (out & fs1 & img & Hex & Hout & Hmk & Himg)]]]]; [simpl..|].
  - split; [eauto|]. split; [intros; apply prefix_nil|]. split; [done|].
    intros ??? [? ?]; congruence.
  - split; [eauto|]. split; [intros; apply prefix_nil|]. split; [done|].
    intros; congruence.
  - split; [eauto|]. split; [|split; [done|intros; congruence]].
    intros out' Ho. assert (out' = out) as -> by congruence.
    by exists [EvOpen (lif_path rq)].
  - split; [eauto|]. split.
    { intros out' Ho. by assert (out' = out) as -> by congruence. }
    split; [intros p x; by eapply mkdir_from_files|].
    intros out' fs1' img' _ Ho Hm' Hi'.
    assert (out' = out) as -> by congruence.
    assert (fs1' = fs1) as -> by congruence.
    destruct Himg as [|[|]]; congruence.
  - destruct (Hfull out fs1 img) as (H1 & H2 & H3 & H4); [done..|].
    refine (conj _ (conj _ (conj _ Hfull))).
    + rewrite H1. eauto.
    + intros out' Ho. rewrite H4. by assert (out' = out) as -> by congruence.
    + rewrite H2. intros p x. by eapply mkdir_from_files.
Qed.

Lemma invalid_dtype_rejected_witness :
  out_res (split_lif_to_channels no_wide accepts_all int128_request (disk two_scenes))
    = inl ValueError ∧
  out_fs (split_lif_to_channels no_wide accepts_all int128_request (disk two_scenes))
    = <[export_dir := Dir]> (disk two_scenes) ∧
  node_at (<[export_dir := Dir]> (disk two_scenes)) export_dir = Some Dir ∧
  calls (out_trace (split_lif_to_channels no_wide accepts_all int128_request (disk two_scenes)))
    = [EvMkdir export_dir; EvOpen sample_lif].
Proof.
  apply (invalid_dtype_rejected no_wide accepts_all int128_request (disk two_scenes))
    with (img := two_scenes).
  - discriminate.
  - apply (bool_decide_unpack _). reflexivity.
  - by eexists.
  - reflexivity.
  - reflexivity.
  - reflexivity.
Defined.

(** C1 (as stated) fails: with the dtype "int128" the ValueError comes
    after the output directory, absent before the call, has been created
    and after the container has been opened. *)
Lemma invalid_dtype_counterexample :
  dtype int128_request ≠ lit "native" ∧
  (dtype int128_request ∉ dtype_map) ∧
  disk two_scenes !! export_dir = None ∧
  out_res (split_lif_to_channels no_wide accepts_all int128_request (disk two_scenes))
    = inl ValueError ∧
  out_fs (split_lif_to_channels no_wide accepts_all int128_request (disk two_scenes))
    !! export_dir = Some Dir ∧
  calls (out_trace (split_lif_to_channels no_wide accepts_all int128_request (disk two_scenes)))
    = [EvMkdir export_dir; EvOpen sample_lif].
Proof.
  split; [discriminate|].
  split; [apply (bool_decide_unpack _); reflexivity|].
  repeat split; vm_compute; reflexivity.
Qed.

(** ** One scene *)

(** A scene starts with its selection and the creation of its directory;
    the rest runs on the file system the creation left. *)
Lemma process_scene_start ua wr rq img out base ov scene fs :
  ∃ rest : M (list path),
    inflates (lif_path rq) rest ∧
    (skipped rq (img_view img scene) = true →
     rest = (_log rq (MsgSkip scene (size_of (img_view img scene) label_C)
                                    (size_of (img_view img scene) label_Z));;
             mret [])) ∧
    process_scene ua wr rq img out base ov scene fs =
    match mkdir_from [] (scene_dir_of ua out scene) fs with
    | inl e =>
        Outcome (inl e) fs [EvSetScene scene; EvMkdir (scene_dir_of ua out scene)]
    | inr fs' =>
        Outcome (out_res (rest fs')) (out_fs (rest fs'))
          (EvSetScene scene :: EvMkdir (scene_dir_of ua out scene)
             :: out_trace (rest fs'))
    end.
Proof.
  unfold process_scene, set_scene, skipped, size_of.
  eexists. split; [|split]; cycle 2.
  - rewrite emit_bind, bind_eq, mkdir_eq.
    destruct (mkdir_from [] (scene_dir_of ua out scene) fs) as [e|fs']; simpl;
      reflexivity.
  - inflate.
  - intros ->. reflexivity.
Qed.

Lemma skip_eq rq msg fs :
  (_log rq msg;; mret []) fs =
  Outcome (inr (@nil path)) fs (if verbose rq then [EvPrint msg] else []).
Proof. rewrite bind_eq, log_eq. simpl. by rewrite app_nil_r. Qed.

(** C6. A scene whose channel count or Z size is 0, with [include_empty]
    false, hands no path to the writer and leaves every file as it was;
    unless its directory cannot be made, which raises, it contributes the
    empty list to the returned paths. *)
Theorem empty_scene_skipped (ua : N → bool) (wr : writer) (rq : request) (img : image)
    (out : path) (base ov : option (list str)) (scene : str) (fs : fsys) :
  size_of (img_view img scene) label_C = 0 ∨ size_of (img_view img scene) label_Z = 0 →
  include_empty rq = false →
  saved_paths (out_trace (process_scene ua wr rq img out base ov scene fs)) = [] ∧
  (∀ p x, out_fs (process_scene ua wr rq img out base ov scene fs) !! p = Some (File x)
          ↔ fs !! p = Some (File x)) ∧
  match mkdir_from [] (scene_dir_of ua out scene) fs with
  | inl e => out_res (process_scene ua wr rq img out base ov scene fs) = inl e
  | inr _ => out_res (process_scene ua wr rq img out base ov scene fs) = inr []
  end.
Proof.
  intros Hz Hi.
  assert (skipped rq (img_view img scene) = true) as Hs.
  { unfold skipped. rewrite Hi. destruct Hz as [-> | ->]; simpl; [done|].
    by rewrite orb_true_r. }
  destruct (process_scene_start ua wr rq img out base ov scene fs)
    as (rest & _ & Hrest & ->).
  rewrite (Hrest Hs).
  destruct (mkdir_from [] (scene_dir_of ua out scene) fs) as [e|fs'] eqn:Hmk; simpl.
  { done. }
  rewrite skip_eq. simpl. split; [by destruct (verbose rq)|]. split; [|done].
  intros p x. split; [by eapply mkdir_from_files|].
  intros Hp. eapply lookup_weaken; [exact Hp|]. by eapply mkdir_from_subseteq.
Qed.

Lemma empty_scene_skipped_witness :
  saved_paths (out_trace (process_scene no_wide accepts_all plain_request with_empty export_dir
                            None None (lit "E") (disk with_empty))) = [] ∧
  (∀ p x, out_fs (process_scene no_wide accepts_all plain_request with_empty export_dir
                    None None (lit "E") (disk with_empty)) !! p = Some (File x)
          ↔ disk with_empty !! p = Some (File x)) ∧
  out_res (process_scene no_wide accepts_all plain_request with_empty export_dir
             None None (lit "E") (disk with_empty)) = inr [].
Proof.
  pose proof (empty_scene_skipped no_wide accepts_all plain_request with_empty export_dir
                None None (lit "E") (disk with_empty)
                (or_introl eq_refl) eq_refl) as (H1 & H2 & H3).
  split; [exact H1|]. split; [exact H2|]. exact H3.
Defined.

(** ** Loops *)

Lemma for_each_cons_ok {A B} (x : A) (r : list A) (body : A → M (list B)) fs zs :
  out_res (for_each (x :: r) body fs) = inr zs →
  ∃ ys zs',
    out_res (body x fs) = inr ys ∧
    out_res (for_each r body (out_fs (body x fs))) = inr zs' ∧
    zs = ys ++ zs' ∧
    out_fs (for_each (x :: r) body fs) = out_fs (for_each r body (out_fs (body x fs))) ∧
    out_trace (for_each (x :: r) body fs) =
      out_trace (body x fs) ++ out_trace (for_each r body (out_fs (body x fs))).
Proof.
  simpl. intros H.
  destruct (bind_ok _ _ _ _ H) as (ys & Hys & H').
  destruct (bind_ok _ _ _ _ H') as (zs' & Hzs & Hret).
  exists ys, zs'. rewrite (bind_inr _ _ _ _ Hys). simpl.
  rewrite (bind_inr _ _ _ _ Hzs). simpl. rewrite app_nil_r.
  repeat split; try done. by injection Hret as <-.
Qed.

(** A loop whose rounds return known lists returns their concatenation. *)
Lemma for_each_value {A B} (f : A → list B) (body : A → M (list B)) :
  (∀ x fs ys, out_res (body x fs) = inr ys → ys = f x) →
  ∀ l fs zs, out_res (for_each l body fs) = inr zs → zs = l ≫= f.
Proof.
  intros Hb l. induction l as [|x r IH]; intros fs zs H.
  - by injection H as <-.
  - destruct (for_each_cons_ok _ _ _ _ _ H) as (ys & zs' & Hys & Hzs & -> & _).
    simpl. by rewrite (Hb _ _ _ Hys), (IH _ _ Hzs).
Qed.

Lemma returns_saved_for_each {A} (l : list A) (body : A → M (list path)) :
  (∀ x, returns_saved (body x)) → returns_saved (for_each l body).
Proof.
  intros Hb. induction l as [|x r IH]; intros fs zs H.
  - by injection H as <-.
  - destruct (for_each_cons_ok _ _ _ _ _ H) as (ys & zs' & Hys & Hzs & -> & _ & ->).
    by rewrite saved_paths_app, (Hb _ _ _ Hys), (IH _ _ Hzs).
Qed.

(** What holds of the values of a round when it ends still holds of them
    when the loop ends. *)
Lemma for_each_Forall {A B : Type} (L : path) (Q : B → fsys → Prop)
    (body : A → M (list B)) :
  (∀ x, inflates L (body x)) →
  (∀ y fs F, Q y fs → ext L fs F → Q y F) →
  (∀ x fs ys, out_res (body x fs) = inr ys →
     Forall (λ y, Q y (out_fs (body x fs))) ys) →
  ∀ l fs zs, out_res (for_each l body fs) = inr zs →
    Forall (λ y, Q y (out_fs (for_each l body fs))) zs.
Proof.
  intros Hi Hmono Hb l. induction l as [|x r IH]; intros fs zs H.
  - injection H as <-. constructor.
  - destruct (for_each_cons_ok _ _ _ _ _ H) as (ys & zs' & Hys & Hzs & -> & -> & _).
    apply Forall_app. split; [|by apply IH].
    eapply Forall_impl; [by apply Hb|]. intros y Hy.
    eapply Hmono; [exact Hy|]. by apply inflates_for_each.
Qed.

(** What holds of an element after its round still holds when the loop
    ends. *)
Lemma for_each_rounds {A B : Type} (L : path) (Q : A → fsys → Prop)
    (body : A → M (list B)) :
  (∀ x, inflates L (body x)) →
  (∀ x fs F, Q x fs → ext L fs F → Q x F) →
  (∀ x fs ys, out_res (body x fs) = inr ys → Q x (out_fs (body x fs))) →
  ∀ l fs zs, out_res (for_each l body fs) = inr zs →
    Forall (λ x, Q x (out_fs (for_each l body fs))) l.
Proof.
  intros Hi Hmono Hb l. induction l as [|x r IH]; intros fs zs H; [constructor|].
  destruct (for_each_cons_ok _ _ _ _ _ H) as (ys & zs' & Hys & Hzs & -> & -> & _).
  constructor; [|by eapply IH].
  eapply Hmono; [by eapply Hb|]. by apply inflates_for_each.
Qed.

Lemma log_bind {B} rq msg (k : unit → M B) fs :
  (_log rq msg ≫= k) fs =
  Outcome (out_res (k () fs)) (out_fs (k () fs))
          ((if verbose rq then [EvPrint msg] else []) ++ out_trace (k () fs)).
Proof. by rewrite bind_eq, log_eq. Qed.

(** The volume handed to the writer for timepoint [t] and channel [c]. *)
Lemma write_channel_eq ua wr rq scene scene_dir view labels names t c fs :
  write_channel ua wr rq scene scene_dir view labels names t c fs =
  let sel := if bool_decide (label_T ∈ labels) then Some t else None in
  let zyx := if bool_decide (dtype rq ≠ lit "native")
             then astype (Volume scene sel c None) (dtype rq)
             else Volume scene sel c None in
  if sv_readable view sel c then
    match ch_part ua names c with
    | inl e => Outcome (inl e) fs [EvRead scene sel c]
    | inr part =>
        let p := scene_dir ++ [file_name ua rq scene part] in
        let o := save wr zyx p (bigtiff rq) fs in
        match out_res o with
        | inl e => Outcome (inl e) (out_fs o) (EvRead scene sel c :: out_trace o)
        | inr _ =>
            Outcome (inr [p]) (out_fs o)
              (EvRead scene sel c :: out_trace o
                 ++ if verbose rq then [EvPrint (MsgSaved p)] else [])
        end
    end
  else Outcome (inl ReaderError) fs [EvRead scene sel c].
Proof.
  unfold write_channel. rewrite bind_eq, get_image_data_eq.
  destruct (sv_readable view _ c); cbn; [|done].
  rewrite bind_eq, lift_exn_eq. cbn.
  destruct (ch_part ua names c) as [e|part]; cbn; [done|].
  rewrite bind_eq.
  destruct (out_res (save _ _ _ _ fs)) as [e|[]] eqn:Hs; cbn; [done|].
  rewrite log_bind. cbn. by rewrite app_nil_r.
Qed.

(** A successful round of the channel loop read the volume, resolved the
    channel part and saved one file, whose path it returns. *)
Lemma write_channel_ok ua wr rq scene scene_dir view labels names t c fs l :
  out_res (write_channel ua wr rq scene scene_dir view labels names t c fs) = inr l →
  ∃ part,
    ch_part ua names c = inr part ∧
    l = [scene_dir ++ [file_name ua rq scene part]] ∧
    saved_paths (out_trace (write_channel ua wr rq scene scene_dir view labels names t c fs)) = l ∧
    out_fs (write_channel ua wr rq scene scene_dir view labels names t c fs)
      !! (scene_dir ++ [file_name ua rq scene part]) = Some (File None).
Proof.
  pose proof (write_channel_eq ua wr rq scene scene_dir view labels names t c fs) as E.
  set (o := write_channel ua wr rq scene scene_dir view labels names t c fs) in *.
  clearbody o. subst o. cbv zeta.
  destruct (sv_readable view _ c); cbn; [|done].
  destruct (ch_part ua names c) as [e|part]; cbn; [done|].
  destruct (out_res (save _ _ _ _ fs)) as [e|[]] eqn:Hs; cbn; [done|].
  destruct (save_ok _ _ _ _ _ Hs) as (_ & _ & _ & Heq).
  intros [= <-]. exists part. rewrite Heq. cbn.
  repeat split; [by destruct (verbose rq) | apply lookup_insert_eq].
Qed.

Lemma app3_assoc {A} (a b c r : list A) : a ++ b ++ c ++ r = (a ++ b ++ c) ++ r.
Proof. by rewrite <- !app_assoc. Qed.

Lemma log_if_eq rq (b : bool) msg fs :
  (if b then _log rq msg else mret ()) fs =
  Outcome (inr ()) fs (if b && verbose rq then [EvPrint msg] else []).
Proof. destruct b; [apply log_eq | done]. Qed.

(** A scene that is not skipped: once its directory is made, the loops
    over the timepoints and the channels run. *)
Lemma process_scene_run ua wr rq img out base ov scene fs :
  skipped rq (img_view img scene) = false →
  ∃ hdr : list event,
    saved_paths hdr = [] ∧
    process_scene ua wr rq img out base ov scene fs =
    match mkdir_from [] (scene_dir_of ua out scene) fs with
    | inl e =>
        Outcome (inl e) fs [EvSetScene scene; EvMkdir (scene_dir_of ua out scene)]
    | inr fs' =>
        let loops :=
          for_each (seq 0 (size_of (img_view img scene) label_T)) (λ t,
            for_each (seq 0 (size_of (img_view img scene) label_C)) (λ c,
              write_channel ua wr rq scene (scene_dir_of ua out scene)
                (img_view img scene) (_dim_labels (sv_dims (img_view img scene)))
                (resolve_names ov
                   (names_or (sv_channel_names (img_view img scene)) base)
                   (size_of (img_view img scene) label_C)) t c)) in
        Outcome (out_res (loops fs')) (out_fs (loops fs'))
          (EvSetScene scene :: EvMkdir (scene_dir_of ua out scene)
             :: hdr ++ out_trace (loops fs'))
    end.
Proof.
  intros Hs. unfold skipped, size_of in Hs.
  eexists. split; cycle 1.
  - unfold process_scene, set_scene, size_of.
    rewrite emit_bind, bind_eq, mkdir_eq.
    destruct (mkdir_from [] (scene_dir_of ua out scene) fs) as [e|fs']; cbn;
      [reflexivity|].
    rewrite Hs. rewrite log_bind. cbn. rewrite bind_eq.
    rewrite log_if_eq. cbn. rewrite log_bind. cbn.
    do 3 f_equal. apply app3_assoc.
  - rewrite !saved_paths_app.
    repeat match goal with |- context [if ?b then _ else _] => destruct b end;
      reflexivity.
Qed.

Lemma written_kept (L : path) (p : path) (fs F : fsys) :
  fs !! p = Some (File None) → ext L fs F → F !! p = Some (File None).
Proof. intros Hp HF. eapply HF; [exact Hp|]. right; by left. Qed.

(** A scene that ran to its end returned its paths, which are the paths it
    saved, in order; the files exist, and so does its directory. *)
Lemma process_scene_ok ua wr rq img out scene fs l :
  out_res (process_scene ua wr rq img out
             (names_or (sv_channel_names (img_view img (img_first img))) None)
             (override_of (channel_names rq)) scene fs) = inr l →
  l = scene_paths ua rq img out scene ∧
  saved_paths (out_trace (process_scene ua wr rq img out
             (names_or (sv_channel_names (img_view img (img_first img))) None)
             (override_of (channel_names rq)) scene fs)) = l ∧
  Forall (λ p, out_fs (process_scene ua wr rq img out
             (names_or (sv_channel_names (img_view img (img_first img))) None)
             (override_of (channel_names rq)) scene fs) !! p = Some (File None)) l ∧
  node_at (out_fs (process_scene ua wr rq img out
             (names_or (sv_channel_names (img_view img (img_first img))) None)
             (override_of (channel_names rq)) scene fs))
          (scene_dir_of ua out scene) = Some Dir.
Proof.
  destruct (skipped rq (img_view img scene)) eqn:Hs.
  - destruct (process_scene_start ua wr rq img out
                (names_or (sv_channel_names (img_view img (img_first img))) None)
                (override_of (channel_names rq)) scene fs)
      as (rest & _ & Hrest & ->).
    rewrite (Hrest Hs).
    destruct (mkdir_from [] (scene_dir_of ua out scene) fs) as [e|fs'] eqn:Hmk;
      cbn; [done|].
    rewrite skip_eq. cbn. intros [= <-]. unfold scene_paths. rewrite Hs.
    split; [done|]. split; [by destruct (verbose rq)|]. split; [constructor|].
    by eapply mkdir_from_target.
  - destruct (process_scene_run ua wr rq img out
                (names_or (sv_channel_names (img_view img (img_first img))) None)
                (override_of (channel_names rq)) scene fs Hs)
      as (hdr & Hhdr & ->).
    destruct (mkdir_from [] (scene_dir_of ua out scene) fs) as [e|fs'] eqn:Hmk;
      cbn; [done|].
    intros Hl. unfold scene_paths. rewrite Hs.
    rewrite saved_paths_app, Hhdr. cbn.
    split; [|split; [|split]].
    + eapply for_each_value; [|exact Hl]. intros t fs1 ys H1.
      eapply for_each_value; [|exact H1]. intros c fs2 zs H2.
      destruct (write_channel_ok _ _ _ _ _ _ _ _ _ _ _ _ H2) as (part & Hp & -> & _).
      unfold channel_path, chan_label, scene_names_of. by rewrite Hp.
    + eapply returns_saved_for_each; [|exact Hl]. intros t.
      apply returns_saved_for_each. intros c fs2 zs H2.
      by destruct (write_channel_ok _ _ _ _ _ _ _ _ _ _ _ _ H2) as (part & _ & _ & ? & _).
    + eapply (for_each_Forall (lif_path rq) (λ p fs0, fs0 !! p = Some (File None)));
        [| |  |exact Hl].
      * intros t. inflate.
      * intros p fs1 F. apply written_kept.
      * intros t fs1 ys H1.
        eapply (for_each_Forall (lif_path rq) (λ p fs0, fs0 !! p = Some (File None)));
          [| | |exact H1].
        -- intros c. inflate.
        -- intros p fs2 F. apply written_kept.
        -- intros c fs2 zs H2.
           destruct (write_channel_ok _ _ _ _ _ _ _ _ _ _ _ _ H2)
             as (part & _ & -> & _ & Hf).
           by constructor.
    + eapply (ext_node_at (lif_path rq) fs'); [|by eapply mkdir_from_target].
      assert (inflates (lif_path rq)
        (for_each (seq 0 (size_of (img_view img scene) label_T)) (λ t,
           for_each (seq 0 (size_of (img_view img scene) label_C)) (λ c,
             write_channel ua wr rq scene (scene_dir_of ua out scene)
               (img_view img scene) (_dim_labels (sv_dims (img_view img scene)))
               (resolve_names (override_of (channel_names rq))
                  (names_or (sv_channel_names (img_view img scene))
                     (names_or (sv_channel_names (img_view img (img_first img))) None))
                  (size_of (img_view img scene) label_C)) t c)))) as Hi by inflate.
      apply Hi.
Qed.

(** ** A run that returns *)

(** A run that returns got through its header and its loop over the
    scenes. *)
Lemma split_ok_inv ua wr rq fs written :
  out_res (split_lif_to_channels ua wr rq fs) = inr written →
  ∃ out fs1 img header,
    outdir_of rq = inr out ∧
    mkdir_from [] out fs = inr fs1 ∧
    node_at fs (lif_path rq) = Some (File (Some img)) ∧
    saved_paths header = [] ∧
    out_res (for_each (img_scenes img)
               (process_scene ua wr rq img out
                  (names_or (sv_channel_names (img_view img (img_first img))) None)
                  (override_of (channel_names rq))) fs1) = inr written ∧
    out_fs (split_lif_to_channels ua wr rq fs) =
      out_fs (for_each (img_scenes img)
               (process_scene ua wr rq img out
                  (names_or (sv_channel_names (img_view img (img_first img))) None)
                  (override_of (channel_names rq))) fs1) ∧
    out_trace (split_lif_to_channels ua wr rq fs) =
      header ++
      out_trace (for_each (img_scenes img)
               (process_scene ua wr rq img out
                  (names_or (sv_channel_names (img_view img (img_first img))) None)
                  (override_of (channel_names rq))) fs1) ++
      (if verbose rq then [EvPrint (MsgDone (length written) out)] else []).
Proof.
  destruct (split_early ua wr rq fs)
    as [[Hex ->] | [(e & Hex & Hout & ->) | [(out & e & Hout & Hmk & ->) |
        [(out & fs1 & e & Hout & Hmk & Himg & ->) |
         (out & fs1 & img & Hex & Hout & Hmk & Himg)]]]]; [done..|].
  destruct (split_opened rq fs out fs1 img Hex Hout Hmk Himg)
    as (header & _ & Hsaved & Hrun).
  unfold split_lif_to_channels. rewrite Hrun. cbn.
  destruct (bool_decide (dtype rq ≠ lit "native") && bool_decide (dtype rq ∉ dtype_map));
    cbn; [done|].
  intros H. destruct (bind_ok _ _ _ _ H) as (l & Hl & H').
  rewrite (bind_inr _ _ _ _ Hl) in H |- *. cbn in H |- *.
  rewrite log_bind in H |- *. cbn in H |- *. injection H as ->.
  exists out, fs1, img, header. rewrite app_nil_r.
  repeat split; try done.
  destruct (lif_path rq) as [|x r] eqn:HL; [done|].
  destruct Hex as [n Hn]. cbn in *. rewrite Hn. f_equal.
  pose proof (mkdir_from_subseteq _ _ _ _ Hmk) as Hsub.
  apply (lookup_weaken _ _ _ _ Hn) in Hsub. congruence.
Qed.

Lemma channel_path_suffix ua rq img out scene c :
  lit ".ome.tif" `suffix_of` path_name (channel_path ua rq img out scene c).
Proof.
  unfold channel_path, path_name. rewrite last_snoc. cbn. unfold file_name.
  exists (stem_of (default [] (last (lif_path rq))) ++ lit "_scene-"
            ++ _safe ua scene ++ chan_label ua (scene_names_of rq img scene) c).
  by rewrite <- !app_assoc.
Qed.

Lemma scene_paths_suffix ua rq img out scene :
  Forall (λ p, lit ".ome.tif" `suffix_of` path_name p) (scene_paths ua rq img out scene).
Proof.
  unfold scene_paths. destruct (skipped rq (img_view img scene)); [constructor|].
  apply Forall_bind, Forall_forall. intros t _. cbn.
  apply Forall_bind, Forall_forall. intros c _. cbn.
  constructor; [apply channel_path_suffix | constructor].
Qed.

Lemma bind_const_length {A B} (l : list A) (k : list B) :
  length (l ≫= λ _, k) = length l * length k.
Proof.
  induction l as [|x r IH]; [done|]. rewrite bind_cons, length_app, IH. cbn. lia.
Qed.

Lemma scene_paths_length ua rq img out scene :
  length (scene_paths ua rq img out scene) = scene_count rq img scene.
Proof.
  unfold scene_paths, scene_count.
  destruct (skipped rq (img_view img scene)); [done|].
  rewrite bind_const_length, length_seq. f_equal.
  generalize 0.
  induction (size_of (img_view img scene) label_C) as [|n IH]; intros s; [done|].
  cbn [seq]. rewrite bind_cons. cbn. by rewrite IH.
Qed.

Lemma expected_paths_length ua rq img out :
  length (expected_paths ua rq img out) =
  sum_list_with (scene_count rq img) (img_scenes img).
Proof.
  unfold expected_paths. induction (img_scenes img) as [|x r IH]; [done|].
  rewrite bind_cons, length_app, IH, scene_paths_length. done.
Qed.

(** What a run returns. *)
Lemma split_value (ua : N → bool) (wr : writer) (rq : request) (fs : fsys) (written : list path) :
  out_res (split_lif_to_channels ua wr rq fs) = inr written →
  ∃ out img,
    outdir_of rq = inr out ∧
    node_at fs (lif_path rq) = Some (File (Some img)) ∧
    written = expected_paths ua rq img out ∧
    saved_paths (out_trace (split_lif_to_channels ua wr rq fs)) = written ∧
    Forall (λ p, lit ".ome.tif" `suffix_of` path_name p) written ∧
    length written = sum_list_with (scene_count rq img) (img_scenes img) ∧
    Forall (λ p, out_fs (split_lif_to_channels ua wr rq fs) !! p = Some (File None)) written.
Proof.
  intros H.
  destruct (split_ok_inv ua wr rq fs written H)
    as (out & fs1 & img & header & Hout & Hmk & Himg & Hsaved & Hloop & Hfs & Htr).
  exists out, img.
  assert (written = expected_paths ua rq img out) as Hw.
  { eapply for_each_value; [|exact Hloop]. intros scene fs2 ys H2.
    by destruct (process_scene_ok _ _ _ _ _ _ _ _ H2) as [-> _]. }
  split; [done|]. split; [done|]. split; [done|]. split; [|split; [|split]].
  - rewrite Htr, !saved_paths_app, Hsaved.
    assert (returns_saved (for_each (img_scenes img)
               (process_scene ua wr rq img out
                  (names_or (sv_channel_names (img_view img (img_first img))) None)
                  (override_of (channel_names rq))))) as Hrs.
    { apply returns_saved_for_each. intros scene fs2 ys H2.
      by destruct (process_scene_ok _ _ _ _ _ _ _ _ H2) as (_ & ? & _). }
    rewrite (Hrs _ _ Hloop).
    cbn. destruct (verbose rq); cbn; by rewrite app_nil_r.
  - rewrite Hw. unfold expected_paths.
    apply Forall_bind, Forall_forall. intros scene _. apply scene_paths_suffix.
  - rewrite Hw. apply expected_paths_length.
  - rewrite Hfs.
    eapply (for_each_Forall (lif_path rq) (λ p fs0, fs0 !! p = Some (File None)));
      [| | |exact Hloop].
    + intros scene. inflate.
    + intros p fs2 F. apply written_kept.
    + intros scene fs2 ys H2.
      by destruct (process_scene_ok _ _ _ _ _ _ _ _ H2) as (_ & _ & ? & _).
Qed.

(** C10. Every scene starts with its selection and the creation of its
    directory [scene_<id>] under the output directory, before the test for
    an empty scene: when the directory cannot be made the scene stops
    there, and otherwise the directory exists when the scene ends. A scene
    skipped for C=0 or Z=0 then returns no path, hands nothing to the
    writer and makes no other call, and leaves the file system as the
    creation of its directory left it: the directory exists and nothing
    below it was created or changed. In a run that returns, the directory
    of every scene of the container exists at the end. *)
Theorem scene_dir_before_skip (ua : N → bool) (wr : writer) (rq : request) (img : image)
    (out : path) (base ov : option (list str)) (scene : str) (fs : fsys) :
  (∃ rest, out_trace (process_scene ua wr rq img out base ov scene fs) =
           EvSetScene scene :: EvMkdir (scene_dir_of ua out scene) :: rest) ∧
  (∀ e, mkdir_from [] (scene_dir_of ua out scene) fs = inl e →
     process_scene ua wr rq img out base ov scene fs =
     Outcome (inl e) fs [EvSetScene scene; EvMkdir (scene_dir_of ua out scene)]) ∧
  (∀ fs', mkdir_from [] (scene_dir_of ua out scene) fs = inr fs' →
     out_fs (process_scene ua wr rq img out base ov scene fs)
       !! scene_dir_of ua out scene = Some Dir) ∧
  (skipped rq (img_view img scene) = true →
   ∀ fs', mkdir_from [] (scene_dir_of ua out scene) fs = inr fs' →
     out_res (process_scene ua wr rq img out base ov scene fs) = inr [] ∧
     out_fs (process_scene ua wr rq img out base ov scene fs) = fs' ∧
     saved_paths (out_trace (process_scene ua wr rq img out base ov scene fs)) = [] ∧
     calls (out_trace (process_scene ua wr rq img out base ov scene fs)) =
       [EvSetScene scene; EvMkdir (scene_dir_of ua out scene)] ∧
     fs' !! scene_dir_of ua out scene = Some Dir ∧
     (∀ p, scene_dir_of ua out scene `prefix_of` p → p ≠ scene_dir_of ua out scene →
           fs' !! p = fs !! p)) ∧
  (∀ fs0 written,
     out_res (split_lif_to_channels ua wr rq fs0) = inr written →
     ∃ out0 img0,
       outdir_of rq = inr out0 ∧
       node_at fs0 (lif_path rq) = Some (File (Some img0)) ∧
       Forall (λ s, out_fs (split_lif_to_channels ua wr rq fs0)
                      !! scene_dir_of ua out0 s = Some Dir) (img_scenes img0)).
Proof.
  destruct (process_scene_start ua wr rq img out base ov scene fs)
    as (rest & Hinf & Hrest & Heq).
  assert (∀ fs' : fsys, mkdir_from [] (scene_dir_of ua out scene) fs = inr fs' →
            fs' !! scene_dir_of ua out scene = Some Dir) as Hdir.
  { intros fs' Hmk. apply mkdir_from_target in Hmk.
    unfold scene_dir_of in *. by destruct out. }
  split; [|split; [|split; [|split]]].
  - rewrite Heq. destruct (mkdir_from [] (scene_dir_of ua out scene) fs); cbn; eauto.
  - intros e He. by rewrite Heq, He.
  - intros fs' Hmk. rewrite Heq, Hmk. cbn.
    eapply (Hinf fs'); [by apply Hdir | by left].
  - intros Hs fs' Hmk. rewrite Heq, Hmk, (Hrest Hs), skip_eq. cbn.
    split; [done|]. split; [done|]. split; [by destruct (verbose rq)|].
    split; [by destruct (verbose rq)|]. split; [by apply Hdir|].
    intros p [k ->] Hne. eapply mkdir_from_frame; [exact Hmk|].
    intros j Hj Heq'. cbn in Heq'. apply (f_equal length) in Heq'.
    rewrite length_app, length_take in Heq'.
    assert (k = []) as -> by (destruct k; [done | cbn in Heq'; lia]).
    by rewrite app_nil_r in Hne.
  - intros fs0 written H.
    destruct (split_ok_inv ua wr rq fs0 written H)
      as (out0 & fs1 & img0 & header & Hout & Hmk & Himg & _ & Hloop & Hfs & _).
    exists out0, img0. split; [done|]. split; [done|]. rewrite Hfs.
    eapply (for_each_rounds (lif_path rq)
              (λ s fs2, fs2 !! scene_dir_of ua out0 s = Some Dir));
      [| | |exact Hloop].
    + intros s. inflate.
    + intros s fs2 F Hs HF. eapply HF; [exact Hs | by left].
    + intros s fs2 ys H2.
      destruct (process_scene_ok _ _ _ _ _ _ _ _ H2) as (_ & _ & _ & Hd).
      unfold scene_dir_of in *. by destruct out0.
Qed.

Lemma scene_dir_before_skip_witness :
  out_res (process_scene no_wide accepts_all plain_request with_empty export_dir
             None None (lit "E") (disk with_empty)) = inr [] ∧
  out_fs (process_scene no_wide accepts_all plain_request with_empty export_dir
            None None (lit "E") (disk with_empty))
    = <[export_dir ++ [lit "scene_E"] := Dir]> (<[export_dir := Dir]> (disk with_empty)) ∧
  calls (out_trace (process_scene no_wide accepts_all plain_request with_empty export_dir
                      None None (lit "E") (disk with_empty)))
    = [EvSetScene (lit "E"); EvMkdir (export_dir ++ [lit "scene_E"])] ∧
  Forall (λ s, out_fs (split_lif_to_channels no_wide accepts_all plain_request (disk with_empty))
                 !! scene_dir_of no_wide export_dir s = Some Dir)
         [lit "A"; lit "E"].
Proof.
  pose proof (scene_dir_before_skip no_wide accepts_all plain_request with_empty export_dir
                None None (lit "E") (disk with_empty)) as (_ & _ & _ & Hskip & Hrun).
  destruct (Hskip eq_refl
              (<[export_dir ++ [lit "scene_E"] := Dir]>
                 (<[export_dir := Dir]> (disk with_empty))) eq_refl)
    as (H1 & H2 & _ & H4 & _).
  split; [exact H1|]. split; [exact H2|]. split; [exact H4|].
  destruct (Hrun (disk with_empty)
              [ export_dir ++ [lit "scene_A"; lit "sample_scene-A_c00.ome.tif"];
                export_dir ++ [lit "scene_A"; lit "sample_scene-A_c01.ome.tif"] ])
    as (out0 & img0 & Hout & Himg & Hall).
  { vm_compute. reflexivity. }
  injection Hout as <-. injection Himg as <-. exact Hall.
Defined.

(** ** Channel names *)

Lemma resolve_names_override ov meta nC x l :
  ov = Some (x :: l) →
  resolve_names ov meta nC =
  (λ i, if bool_decide (i < length (x :: l)) then (x :: l) !! i else None) <$> seq 0 nC.
Proof. by intros ->. Qed.

Lemma override_of_Some channel_names ov :
  override_of channel_names = Some ov → channel_names = Some ov ∧ ov ≠ [].
Proof.
  unfold override_of. destruct channel_names as [[|x l]|]; cbn; [done| |done].
  by intros [= <-].
Qed.

(** C5. When an override is in effect (a non-empty [channel_names]), the
    names of a scene with [nC] channels are the override taken by
    position, whatever the metadata says: the list has [nC] entries,
    entry [c] is [override[c]] when [c] is below the length of the
    override and [None] otherwise. The channel part of the file name is
    then "_ch-" followed by the sanitised [override[c]] where that name
    is not empty, and the index label "_cNN" from the length of the
    override on. With ["DAPI", "GFP"] and three channels the files are
    named ..._ch-DAPI, ..._ch-GFP and ..._c02. *)
Theorem override_positional (ua : N → bool) (rq : request) (ov : list str)
    (meta : option (list str)) (nC c : nat) :
  override_of (channel_names rq) = Some ov →
  c < nC →
  length (resolve_names (Some ov) meta nC) = nC ∧
  resolve_names (Some ov) meta nC !! c = Some (ov !! c) ∧
  (length ov ≤ c →
     ch_part ua (resolve_names (Some ov) meta nC) c = inr (index_label c)) ∧
  (∀ name, ov !! c = Some name → name ≠ [] →
     ch_part ua (resolve_names (Some ov) meta nC) c
       = inr (lit "_ch-" ++ _safe ua name)) ∧
  (∀ img scene, scene_names_of rq img scene =
     resolve_names (Some ov)
       (names_or (sv_channel_names (img_view img scene))
          (names_or (sv_channel_names (img_view img (img_first img))) None))
       (size_of (img_view img scene) label_C)) ∧
  out_res (split_lif_to_channels no_wide accepts_all dapi_gfp_request (disk three_channels)) =
    inr [ scene_S ++ [lit "sample_scene-S_ch-DAPI.ome.tif"];
          scene_S ++ [lit "sample_scene-S_ch-GFP.ome.tif"];
          scene_S ++ [lit "sample_scene-S_c02.ome.tif"] ].
Proof.
  intros Hov Hc.
  assert (∀ img scene, scene_names_of rq img scene =
     resolve_names (Some ov)
       (names_or (sv_channel_names (img_view img scene))
          (names_or (sv_channel_names (img_view img (img_first img))) None))
       (size_of (img_view img scene) label_C)) as Hscene.
  { intros img scene. unfold scene_names_of. by rewrite Hov. }
  apply override_of_Some in Hov as [_ Hne].
  destruct ov as [|x l]; [done|].
  rewrite (resolve_names_override (Some (x :: l)) meta nC x l eq_refl).
  assert (((λ i, if bool_decide (i < length (x :: l)) then (x :: l) !! i else None)
             <$> seq 0 nC) !! c = Some ((x :: l) !! c)) as Hlk.
  { rewrite list_lookup_fmap, lookup_seq_lt by done. cbn [fmap option_fmap option_map].
    f_equal. case_bool_decide as Hlt; [done|].
    symmetry. apply lookup_ge_None. lia. }
  split; [by rewrite length_fmap, length_seq|].
  split; [exact Hlk|].
  assert (∀ names : list (option str), names !! c = Some ((x :: l) !! c) →
            ch_part ua names c =
            match (x :: l) !! c with
            | Some (y :: n) => inr (lit "_ch-" ++ _safe ua (y :: n))
            | _ => inr (index_label c)
            end) as Hpart.
  { intros names Hn. unfold ch_part. rewrite Hn.
    destruct names; [done|]. by destruct ((x :: l) !! c) as [[|??]|]. }
  split; [|split; [|split]].
  - intros Hge. rewrite (Hpart _ Hlk).
    by rewrite (proj2 (lookup_ge_None (x :: l) c) Hge).
  - intros name Hname Hnz. rewrite (Hpart _ Hlk), Hname. by destruct name.
  - exact Hscene.
  - vm_compute. reflexivity.
Qed.

Lemma override_positional_witness :
  resolve_names (Some [lit "DAPI"; lit "GFP"]) (Some [lit "x"]) 3
    = [Some (lit "DAPI"); Some (lit "GFP"); None] ∧
  ch_part no_wide (resolve_names (Some [lit "DAPI"; lit "GFP"]) (Some [lit "x"]) 3) 2
    = inr (lit "_c02") ∧
  ch_part no_wide (resolve_names (Some [lit "DAPI"; lit "GFP"]) (Some [lit "x"]) 3) 1
    = inr (lit "_ch-GFP").
Proof.
  split; [reflexivity|].
  destruct (override_positional no_wide dapi_gfp_request [lit "DAPI"; lit "GFP"]
              (Some [lit "x"]) 3 2 eq_refl) as (_ & _ & H2 & _); [lia|].
  destruct (override_positional no_wide dapi_gfp_request [lit "DAPI"; lit "GFP"]
              (Some [lit "x"]) 3 1 eq_refl) as (_ & _ & _ & H1 & _ & _); [lia|].
  split; [apply H2; cbn; lia|].
  apply (H1 (lit "GFP")); [reflexivity | discriminate].
Defined.

(** ** Runs that return *)

Lemma mkdir_from_skip d a b (fs : fsys) :
  (∀ k, 0 < k ≤ length a → fs !! (d ++ take k a) = Some Dir) →
  mkdir_from d (a ++ b) fs = mkdir_from (d ++ a) b fs.
Proof.
  revert d. induction a as [|x r IH]; intros d H; cbn.
  - by rewrite app_nil_r.
  - pose proof (H 1) as H1. cbn in H1. rewrite take_0 in H1.
    rewrite H1 by lia.
    rewrite IH; [by rewrite <- app_assoc|].
    intros k Hk. rewrite <- app_assoc. apply (H (S k)). cbn. lia.
Qed.

Lemma out_made_insert out (q : path) (n : node) (fs : fsys) :
  length out < length q → out_made out fs → out_made out (<[q := n]> fs).
Proof.
  intros Hq Hk k Hlt. rewrite lookup_insert_ne; [by apply Hk|].
  intros Heq. apply (f_equal length) in Heq. rewrite length_take in Heq. lia.
Qed.

Lemma channel_path_split ua rq img out scene c :
  ∃ x y, scene_dir_of ua out scene = out ++ [x] ∧
         channel_path ua rq img out scene c = out ++ [x; y].
Proof.
  unfold channel_path, scene_dir_of. eexists _, _. split; [done|].
  by rewrite <- app_assoc.
Qed.

Lemma writable_insert_dir ua rq img out x (fs : fsys) :
  writable_tree ua rq img out fs →
  writable_tree ua rq img out (<[out ++ [x] := Dir]> fs).
Proof.
  intros [H1 H2]. split.
  - intros scene n Hin.
    destruct (decide (out ++ [x] = scene_dir_of ua out scene)) as [<-|Hne].
    + by rewrite lookup_insert_eq.
    + rewrite lookup_insert_ne by done. by apply H1.
  - intros scene t c Hin Hs Ht Hc.
    destruct (channel_path_split ua rq img out scene c) as (x' & y & _ & E).
    rewrite lookup_insert_ne; [by eapply H2|].
    rewrite E. intros Heq. by apply app_inv_head in Heq.
Qed.

Lemma writable_insert_file ua rq img out x y (fs : fsys) :
  writable_tree ua rq img out fs →
  writable_tree ua rq img out (<[out ++ [x; y] := File None]> fs).
Proof.
  intros [H1 H2]. split.
  - intros scene n Hin. rewrite lookup_insert_ne; [by apply H1|].
    unfold scene_dir_of. intros Heq. by apply app_inv_head in Heq.
  - intros scene t c Hin Hs Ht Hc.
    destruct (decide (out ++ [x; y] = channel_path ua rq img out scene c)) as [<-|Hne].
    + by rewrite lookup_insert_eq.
    + rewrite lookup_insert_ne by done. by eapply H2.
Qed.

(** Where no file is in the way, the directory of a scene can be made in
    the output directory. *)
Lemma mkdir_scene_ok out x (fs : fsys) :
  out_made out fs → (∀ n, fs !! (out ++ [x]) ≠ Some (File n)) →
  ∃ fs', mkdir_from [] (out ++ [x]) fs = inr fs' ∧
         (fs' = fs ∨ fs' = <[out ++ [x] := Dir]> fs) ∧
         fs' !! (out ++ [x]) = Some Dir.
Proof.
  intros Hk Hx. rewrite mkdir_from_skip by done. cbn.
  destruct (fs !! (out ++ [x])) as [[|n]|] eqn:E.
  - exists fs. eauto.
  - by destruct (Hx n).
  - eexists. split; [done|]. split; [by right|]. apply lookup_insert_eq.
Qed.

(** Where no directory is in the way, a file the writer accepts can be
    saved in the directory of a scene. *)
Lemma save_scene_ok wr v b out x y (fs : fsys) :
  wr (out ++ [x; y]) v b = None →
  fs !! (out ++ [x]) = Some Dir → fs !! (out ++ [x; y]) ≠ Some Dir →
  save wr v (out ++ [x; y]) b fs =
    Outcome (inr ()) (<[out ++ [x; y] := File None]> fs) [EvSave (out ++ [x; y]) v b].
Proof.
  intros Hw Hx Hp. rewrite save_eq, Hw.
  assert (path_parent (out ++ [x; y]) = out ++ [x]) as ->.
  { unfold path_parent. change [x; y] with ([x] ++ [y]).
    by rewrite app_assoc, removelast_last. }
  assert (node_at fs (out ++ [x]) = Some Dir) as -> by (by destruct out).
  assert (node_at fs (out ++ [x; y]) = fs !! (out ++ [x; y])) as ->
    by (by destruct out).
  by destruct (fs !! (out ++ [x; y])) as [[|?]|].
Qed.

(** A loop whose rounds return and keep an invariant returns and keeps it. *)
Lemma for_each_returns {A B : Type} (I : fsys → Prop) (l : list A)
    (body : A → M (list B)) :
  (∀ x fs, x ∈ l → I fs →
     ∃ ys, out_res (body x fs) = inr ys ∧ I (out_fs (body x fs))) →
  ∀ fs, I fs →
    ∃ zs, out_res (for_each l body fs) = inr zs ∧ I (out_fs (for_each l body fs)).
Proof.
  induction l as [|x r IH]; intros Hb fs HI; [by exists []|].
  destruct (Hb x fs) as (ys & Hys & HI1); [by left | done |].
  destruct (IH (λ x' fs' Hx', Hb x' fs' (list_elem_of_further _ _ _ Hx'))
               _ HI1) as (zs & Hzs & HI2).
  exists (ys ++ zs). cbn. rewrite (bind_inr _ _ _ _ Hys). cbn.
  rewrite (bind_inr _ _ _ _ Hzs). by cbn.
Qed.

Lemma write_channel_returns ua wr rq scene out x view labels names t c part (fs : fsys) :
  fs !! (out ++ [x]) = Some Dir →
  sv_readable view (if bool_decide (label_T ∈ labels) then Some t else None) c = true →
  ch_part ua names c = inr part →
  wr (out ++ [x; file_name ua rq scene part])
     (Volume scene (if bool_decide (label_T ∈ labels) then Some t else None) c
        (if bool_decide (dtype rq ≠ lit "native") then Some (dtype rq) else None))
     (bigtiff rq) = None →
  fs !! (out ++ [x; file_name ua rq scene part]) ≠ Some Dir →
  ∃ ys, out_res (write_channel ua wr rq scene (out ++ [x]) view labels names t c fs) = inr ys ∧
        out_fs (write_channel ua wr rq scene (out ++ [x]) view labels names t c fs)
          = <[out ++ [x; file_name ua rq scene part] := File None]> fs.
Proof.
  intros Hx Hread Hpart Hw Hp. rewrite write_channel_eq. cbv zeta.
  rewrite Hread, Hpart. rewrite <- (app_assoc out [x]). cbn [app].
  rewrite save_scene_ok; [by eexists | | done | done].
  by destruct (bool_decide (dtype rq ≠ lit "native")).
Qed.

Lemma process_scene_returns ua wr rq img out scene (fs : fsys) :
  servable ua rq img → accepted ua wr rq img out → scene ∈ img_scenes img →
  out_made out fs → writable_tree ua rq img out fs →
  ∃ ys, out_res (process_scene ua wr rq img out
                   (names_or (sv_channel_names (img_view img (img_first img))) None)
                   (override_of (channel_names rq)) scene fs) = inr ys ∧
        out_made out (out_fs (process_scene ua wr rq img out
                   (names_or (sv_channel_names (img_view img (img_first img))) None)
                   (override_of (channel_names rq)) scene fs)) ∧
        writable_tree ua rq img out (out_fs (process_scene ua wr rq img out
                   (names_or (sv_channel_names (img_view img (img_first img))) None)
                   (override_of (channel_names rq)) scene fs)).
Proof.
  intros Hsrv Hacc Hin Hk Hok.
  destruct (mkdir_scene_ok out (lit "scene_" ++ _safe ua scene) fs Hk)
    as (fs' & Hmk & Hfs' & Hd).
  { intros n. by apply (proj1 Hok scene n). }
  assert (out_made out fs' ∧ writable_tree ua rq img out fs') as [Hk' Hok'].
  { destruct Hfs' as [-> | ->]; [done|]. split.
    - apply out_made_insert; [|done]. rewrite length_app. cbn. lia.
    - by apply writable_insert_dir. }
  destruct (skipped rq (img_view img scene)) eqn:Hs.
  - destruct (process_scene_start ua wr rq img out
                (names_or (sv_channel_names (img_view img (img_first img))) None)
                (override_of (channel_names rq)) scene fs)
      as (rest & _ & Hrest & ->).
    unfold scene_dir_of. rewrite Hmk, (Hrest Hs), skip_eq. cbn. eauto.
  - destruct (process_scene_run ua wr rq img out
                (names_or (sv_channel_names (img_view img (img_first img))) None)
                (override_of (channel_names rq)) scene fs Hs)
      as (hdr & _ & ->).
    unfold scene_dir_of. rewrite Hmk. cbn.
    destruct (for_each_returns
                (λ fs0, (out_made out fs0 ∧ writable_tree ua rq img out fs0) ∧
                        fs0 !! (out ++ [lit "scene_" ++ _safe ua scene]) = Some Dir)
                (seq 0 (size_of (img_view img scene) label_T))
                (λ t, for_each (seq 0 (size_of (img_view img scene) label_C)) (λ c,
                   write_channel ua wr rq scene (out ++ [lit "scene_" ++ _safe ua scene])
                     (img_view img scene) (_dim_labels (sv_dims (img_view img scene)))
                     (resolve_names (override_of (channel_names rq))
                        (names_or (sv_channel_names (img_view img scene))
                           (names_or (sv_channel_names (img_view img (img_first img))) None))
                        (size_of (img_view img scene) label_C)) t c)))
      with (fs := fs') as (zs & Hzs & [[Hk2 Hok2] _]); [| |by eauto].
    + intros t fs1 Ht HI.
      apply (for_each_returns
               (λ fs0, (out_made out fs0 ∧ writable_tree ua rq img out fs0) ∧
                       fs0 !! (out ++ [lit "scene_" ++ _safe ua scene]) = Some Dir));
        [|done].
      intros c fs2 Hc [[Hk2 Hok2] Hd2].
      apply elem_of_seq in Ht, Hc.
      destruct (Hsrv scene t c Hin Hs) as (Hread & part & Hpart); [lia..|].
      assert (channel_path ua rq img out scene c
              = out ++ [lit "scene_" ++ _safe ua scene; file_name ua rq scene part]) as Hcp.
      { unfold channel_path, chan_label, scene_dir_of. rewrite Hpart.
        by rewrite <- app_assoc. }
      destruct (write_channel_returns ua wr rq scene out _ (img_view img scene)
                  (_dim_labels (sv_dims (img_view img scene))) _ t c part fs2
                  Hd2 Hread Hpart) as (ys & Hys & Hfs2).
      { rewrite <- Hcp. apply (Hacc scene t c Hin Hs); lia. }
      { rewrite <- Hcp. apply (proj2 Hok2 scene t c Hin Hs); lia. }
      unfold scene_names_of in Hys, Hfs2.
      exists ys. split; [done|]. rewrite Hfs2. split; [split|].
      * apply out_made_insert; [|done]. rewrite length_app. cbn. lia.
      * by apply writable_insert_file.
      * rewrite lookup_insert_ne; [done|]. intros Heq. by apply app_inv_head in Heq.
    + done.
Qed.

(** Progress. A call returns a list when the input is a LIF container, the
    dtype is accepted, the output directory can be made, nothing stands in
    the way of the directories and the files of the scenes, the container
    serves the reads and the names the loops ask for, and the writer takes
    what it is handed. *)
Lemma split_returns ua wr rq (fs fs1 : fsys) img out :
  node_at fs (lif_path rq) = Some (File (Some img)) →
  dtype rq = lit "native" ∨ dtype rq ∈ dtype_map →
  outdir_of rq = inr out →
  mkdir_from [] out fs = inr fs1 →
  writable_tree ua rq img out fs →
  servable ua rq img →
  accepted ua wr rq img out →
  ∃ written, out_res (split_lif_to_channels ua wr rq fs) = inr written.
Proof.
  intros Himg Hdt Hout Hmk Hok Hsrv Hacc.
  assert (node_at fs1 (lif_path rq) = Some (File (Some img))) as Himg1.
  { destruct (lif_path rq) as [|x r]; [done|]. cbn in *.
    eapply lookup_weaken; [exact Himg|]. by eapply mkdir_from_subseteq. }
  assert (out_made out fs1) as Hk1.
  { intros k Hk. by apply (mkdir_from_dirs [] out fs fs1 k). }
  assert (writable_tree ua rq img out fs1) as Hok1.
  { assert (∀ q : path, length out < length q → fs1 !! q = fs !! q) as Hfr.
    { intros q Hq. apply (mkdir_from_frame [] out fs fs1 q Hmk).
      intros k Hk ->. cbn in Hq. rewrite length_take in Hq. lia. }
    destruct Hok as [H1 H2]. split.
    - intros scene n Hin. rewrite Hfr; [by apply H1|].
      unfold scene_dir_of. rewrite length_app. cbn. lia.
    - intros scene t c Hin Hs Ht Hc.
      destruct (channel_path_split ua rq img out scene c) as (x & y & _ & E).
      rewrite Hfr; [by eapply H2|]. rewrite E, length_app. cbn. lia. }
  destruct (split_opened rq fs out fs1 img (mk_is_Some _ _ Himg) Hout Hmk Himg1)
    as (header & _ & _ & Hrun).
  unfold split_lif_to_channels. rewrite Hrun. cbn.
  assert (bool_decide (dtype rq ≠ lit "native") && bool_decide (dtype rq ∉ dtype_map)
          = false) as ->.
  { destruct Hdt as [Hn | Hm].
    - by rewrite (bool_decide_eq_false_2 (dtype rq ≠ lit "native")) by (by intros ?).
    - rewrite (bool_decide_eq_false_2 (dtype rq ∉ dtype_map)) by (by intros ?).
      apply andb_false_r. }
  destruct (for_each_returns
              (λ fs0, out_made out fs0 ∧ writable_tree ua rq img out fs0)
              (img_scenes img)
              (process_scene ua wr rq img out
                 (names_or (sv_channel_names (img_view img (img_first img))) None)
                 (override_of (channel_names rq))))
    with (fs := fs1) as (written & Hw & _); [|done|].
  { intros scene fs2 Hin [Hk2 Hok2]. by apply process_scene_returns. }
  exists written. rewrite (bind_inr _ _ _ _ Hw). cbn.
  by rewrite log_bind.
Qed.

(** C7. On a valid input the call returns. The input is valid when it is a
    LIF container, the dtype is accepted, the output directory can be made,
    no file stands where the directory of a scene goes and no directory
    where a file of a scene goes, the container serves the reads and the
    names the loops ask for, and the external writer takes every volume it
    is handed: the writer is not the exporter's, and where it rejects a
    volume, as of a scene of Z size 0 kept by [include_empty], the call
    raises at that write. A call that returns, returns the paths it handed
    to the writer, in the order of the writes: scene by scene in the order
    of [img.scenes], within a scene timepoint by timepoint from 0, within a
    timepoint channel by channel from 0, a skipped scene giving none. Every
    path ends with ".ome.tif" and is a file when the call returns, and the
    length of the list is the sum over the scenes of T*C, counting 0 for a
    skipped scene. *)
Theorem returned_paths (ua : N → bool) (wr : writer) (rq : request) (fs : fsys) :
  (∀ (fs1 : fsys) img out,
     node_at fs (lif_path rq) = Some (File (Some img)) →
     dtype rq = lit "native" ∨ dtype rq ∈ dtype_map →
     outdir_of rq = inr out →
     mkdir_from [] out fs = inr fs1 →
     writable_tree ua rq img out fs →
     servable ua rq img →
     accepted ua wr rq img out →
     ∃ written, out_res (split_lif_to_channels ua wr rq fs) = inr written) ∧
  (∀ written,
     out_res (split_lif_to_channels ua wr rq fs) = inr written →
     ∃ out img,
       outdir_of rq = inr out ∧
       node_at fs (lif_path rq) = Some (File (Some img)) ∧
       written = expected_paths ua rq img out ∧
       saved_paths (out_trace (split_lif_to_channels ua wr rq fs)) = written ∧
       Forall (λ p, lit ".ome.tif" `suffix_of` path_name p) written ∧
       length written = sum_list_with (scene_count rq img) (img_scenes img) ∧
       Forall (λ p, out_fs (split_lif_to_channels ua wr rq fs) !! p = Some (File None))
              written).
Proof.
  split.
  - intros fs1 img out. apply split_returns.
  - apply split_value.
Qed.

Lemma two_scenes_writable :
  writable_tree no_wide plain_request two_scenes export_dir (disk two_scenes).
Proof.
  split.
  - intros scene x _. unfold disk, scene_dir_of.
    rewrite !lookup_insert_ne by (intros H; by apply (f_equal length) in H).
    done.
  - intros scene t c _ _ _ _.
    destruct (channel_path_split no_wide plain_request two_scenes export_dir scene c)
      as (x & y & _ & ->).
    unfold disk.
    rewrite !lookup_insert_ne by (intros H; by apply (f_equal length) in H).
    done.
Qed.

Lemma two_scenes_servable : servable no_wide plain_request two_scenes.
Proof.
  intros scene t c _ _ _ Hc. split; [done|].
  change (size_of (img_view two_scenes scene) label_C) with 2 in Hc.
  change (scene_names_of plain_request two_scenes scene) with [@None (list N); None].
  destruct c as [|[|c]]; [by eexists.. | lia].
Qed.

Lemma returned_paths_witness :
  (∃ written,
     out_res (split_lif_to_channels no_wide accepts_all plain_request (disk two_scenes)) = inr written) ∧
  ∃ out img,
    outdir_of plain_request = inr out ∧
    node_at (disk two_scenes) (lif_path plain_request) = Some (File (Some img)) ∧
    two_scenes_paths = expected_paths no_wide plain_request img out ∧
    saved_paths (out_trace (split_lif_to_channels no_wide accepts_all plain_request (disk two_scenes)))
      = two_scenes_paths ∧
    Forall (λ p, lit ".ome.tif" `suffix_of` path_name p) two_scenes_paths ∧
    length two_scenes_paths
      = sum_list_with (scene_count plain_request img) (img_scenes img) ∧
    Forall (λ p, out_fs (split_lif_to_channels no_wide accepts_all plain_request (disk two_scenes))
                   !! p = Some (File None)) two_scenes_paths.
Proof.
  pose proof (returned_paths no_wide accepts_all plain_request (disk two_scenes)) as [Hret Hval].
  split.
  - apply (Hret (<[export_dir := Dir]> (disk two_scenes)) two_scenes export_dir).
    + reflexivity.
    + by left.
    + reflexivity.
    + reflexivity.
    + apply two_scenes_writable.
    + apply two_scenes_servable.
    + by intros scene t c _ _ _ _.
  - apply (Hval two_scenes_paths). vm_compute. reflexivity.
Defined.

(** The writer's part cannot be left out: a container with a scene of Z
    size 0 kept by [include_empty] serves every read and name, and nothing
    stands in the way of its output; with a writer that rejects the
    volumes of that scene the call raises at the first write for it, the
    files of the scene before it having been written. *)
Lemma flat_scene_raises :
  servable no_wide keep_empty_request flat_scene ∧
  writable_tree no_wide keep_empty_request flat_scene export_dir (disk flat_scene) ∧
  ¬ accepted no_wide rejects_flat keep_empty_request flat_scene export_dir ∧
  out_res (split_lif_to_channels no_wide rejects_flat keep_empty_request (disk flat_scene))
    = inl ValueError ∧
  saved_paths (out_trace (split_lif_to_channels no_wide rejects_flat keep_empty_request
                            (disk flat_scene)))
    = [ export_dir ++ [lit "scene_A"; lit "sample_scene-A_c00.ome.tif"];
        export_dir ++ [lit "scene_A"; lit "sample_scene-A_c01.ome.tif"];
        export_dir ++ [lit "scene_F"; lit "sample_scene-F_c00.ome.tif"] ].
Proof.
  split; [|split; [|split; [|by vm_compute]]].
  - intros scene t c _ _ _ Hc. split; [by cbn; destruct (decide _)|].
    assert (size_of (img_view flat_scene scene) label_C = 2) as HC
      by (cbn; by destruct (decide _)).
    assert (scene_names_of keep_empty_request flat_scene scene = [None; None]) as ->
      by (unfold scene_names_of; rewrite HC; cbn; by destruct (decide _)).
    rewrite HC in Hc. destruct c as [|[|c]]; [by eexists.. | lia].
  - split.
    + intros scene x _. unfold disk, scene_dir_of.
      rewrite !lookup_insert_ne by (intros H; by apply (f_equal length) in H).
      done.
    + intros scene t c _ _ _ _.
      destruct (channel_path_split no_wide keep_empty_request flat_scene export_dir scene c)
        as (x & y & _ & ->).
      unfold disk.
      rewrite !lookup_insert_ne by (intros H; by apply (f_equal length) in H).
      done.
  - intros H. specialize (H (lit "F") 0 0).
    assert (rejects_flat
              (channel_path no_wide keep_empty_request flat_scene export_dir (lit "F") 0)
              (scene_volume keep_empty_request (img_view flat_scene (lit "F")) (lit "F") 0 0)
              (bigtiff keep_empty_request) = Some ValueError) as E by (by vm_compute).
    rewrite E in H. discriminate H.
    + apply (bool_decide_unpack _). by vm_compute.
    + by vm_compute.
    + vm_compute. lia.
    + vm_compute. lia.
Qed.

(** ** Which paths differ *)

Lemma chars_uint_chars u : chars_uint (uint_chars u) = u.
Proof. induction u; cbn; by f_equal. Qed.

Lemma of_uint_zeros k u :
  Nat.of_uint (chars_uint (replicate k 48%N ++ uint_chars u)) = Nat.of_uint u.
Proof.
  induction k as [|k IH]; cbn [replicate app].
  - by rewrite chars_uint_chars.
  - cbn [chars_uint]. by rewrite N.eqb_refl.
Qed.

(** The index is read back from its two-digit form. *)
Lemma fmt_02d_value c : Nat.of_uint (chars_uint (fmt_02d c)) = c.
Proof. unfold fmt_02d. rewrite of_uint_zeros. apply Unsigned.of_to. Qed.

Lemma index_label_inj c c' : index_label c = index_label c' → c = c'.
Proof.
  unfold index_label. intros H. apply app_inv_head in H.
  by rewrite <- (fmt_02d_value c), <- (fmt_02d_value c'), H.
Qed.

(** A named channel part is not an index label. *)
Lemma named_part_ne_index ua name c : lit "_ch-" ++ _safe ua name ≠ index_label c.
Proof.
  unfold index_label, fmt_02d. intros H. injection H as H.
  destruct (2 - length (uint_chars (Nat.to_uint c))) as [|k]; cbn in H.
  - destruct (Nat.to_uint c); cbn in H; discriminate.
  - discriminate.
Qed.

Lemma out_path_eq ua rq out scene part scene' part' :
  scene_dir_of ua out scene ++ [file_name ua rq scene part] =
  scene_dir_of ua out scene' ++ [file_name ua rq scene' part'] ↔
  _safe ua scene = _safe ua scene' ∧ part = part'.
Proof.
  unfold scene_dir_of, file_name. split.
  - intros H. apply app_inj_tail in H as [Hd Hn].
    apply app_inv_head in Hd. injection Hd as Hd.
    split; [done|]. rewrite Hd in Hn. do 3 apply app_inv_head in Hn.
    by apply app_inv_tail in Hn.
  - by intros [-> ->].
Qed.

(** X1. The path of an output file determines the sanitised scene name
    and the channel part, and nothing else: two files have the same path
    exactly when both agree, whatever their timepoints. The index labels
    of different channels differ, and a named channel part is never an
    index label. *)
Theorem output_paths_differ (ua : N → bool) (rq : request) (out : path)
    (scene scene' part part' : str) (c c' : nat) :
  (scene_dir_of ua out scene ++ [file_name ua rq scene part] =
   scene_dir_of ua out scene' ++ [file_name ua rq scene' part'] ↔
   _safe ua scene = _safe ua scene' ∧ part = part') ∧
  (c ≠ c' → index_label c ≠ index_label c') ∧
  (∀ name, lit "_ch-" ++ _safe ua name ≠ index_label c).
Proof.
  split; [apply out_path_eq|]. split.
  - intros Hne Heq. by apply Hne, index_label_inj.
  - intros name. apply named_part_ne_index.
Qed.

Lemma output_paths_differ_witness :
  index_label 2 ≠ index_label 12 ∧
  export_dir ++ [lit "scene_A"; lit "sample_scene-A_c00.ome.tif"] ≠
  export_dir ++ [lit "scene_B"; lit "sample_scene-B_c00.ome.tif"].
Proof.
  destruct (output_paths_differ no_wide plain_request export_dir
              (lit "A") (lit "B") (lit "_c00") (lit "_c00") 2 12) as (Hp & Hi & _).
  split; [apply Hi; lia|].
  intros Heq.
  assert (_safe no_wide (lit "A") = _safe no_wide (lit "B") ∧ lit "_c00" = lit "_c00")
    as [Hs _]; [|discriminate Hs].
  apply Hp. exact Heq.
Defined.

(** ** Names from the command line *)

Lemma lstrip_head s c : head (lstrip s) = Some c → is_space c = false.
Proof.
  induction s as [|x r IH]; cbn; [done|].
  destruct (is_space x) eqn:Hx; [done|]. cbn. by intros [= <-].
Qed.

Lemma lstrip_drops s : ∃ k, s = take k s ++ lstrip s ∧ lstrip s = drop k s.
Proof.
  induction s as [|x r (k & IH & IH')]; cbn.
  - by exists 0.
  - destruct (is_space x); [|by exists 0].
    exists (S k). cbn. split; [by f_equal | done].
Qed.

Lemma strip_head s c : head (strip s) = Some c → is_space c = false.
Proof.
  unfold strip. rewrite head_reverse. intros Hl.
  destruct (lstrip_drops (reverse (lstrip s))) as (k & _ & Hk).
  rewrite Hk in Hl. rewrite last_lookup, length_drop, lookup_drop in Hl.
  assert (last (reverse (lstrip s)) = Some c) as Hlast.
  { rewrite last_lookup. rewrite <- Hl. f_equal.
    assert (k < length (reverse (lstrip s))); [|lia].
    destruct (decide (k < length (reverse (lstrip s)))); [done|].
    rewrite lookup_ge_None_2 in Hl by lia. done. }
  rewrite last_reverse in Hlast. by apply lstrip_head in Hlast.
Qed.

Lemma strip_last s c : last (strip s) = Some c → is_space c = false.
Proof. unfold strip. rewrite last_reverse. apply lstrip_head. Qed.

Lemma split_comma_plain s : 44%N ∉ s → split_comma s = [s].
Proof.
  induction s as [|c r IH]; [done|]. intros Hs.
  apply not_elem_of_cons in Hs as [Hc Hr]. cbn.
  destruct (c =? 44)%N eqn:E; [apply N.eqb_eq in E; congruence|].
  by rewrite IH.
Qed.

Lemma split_comma_app s r :
  44%N ∉ s → split_comma (s ++ 44%N :: r) = s :: split_comma r.
Proof.
  induction s as [|c s IH]; [done|]. intros Hs.
  apply not_elem_of_cons in Hs as [Hc Hr]. cbn.
  destruct (c =? 44)%N eqn:E; [apply N.eqb_eq in E; congruence|].
  by rewrite IH.
Qed.

Lemma split_join_comma l :
  l ≠ [] → Forall (λ s, 44%N ∉ s) l → split_comma (join_comma l) = l.
Proof.
  induction l as [|s [|s' r] IH]; [done| |]; intros _ Hl.
  - cbn. apply split_comma_plain. by apply Forall_inv in Hl.
  - apply Forall_cons in Hl as [Hs Hl].
    change (join_comma (s :: s' :: r)) with (s ++ 44%N :: join_comma (s' :: r)).
    rewrite split_comma_app by done. f_equal. by apply IH.
Qed.

Lemma lstrip_spaces a r : Forall (λ c, is_space c = true) a → lstrip (a ++ r) = lstrip r.
Proof.
  induction a as [|x a IH]; [done|]. intros H.
  apply Forall_cons in H as [Hx Ha]. cbn. rewrite Hx. by apply IH.
Qed.

Lemma lstrip_id t : (∀ c, head t = Some c → is_space c = false) → lstrip t = t.
Proof. destruct t as [|x t]; [done|]. intros H. cbn. by rewrite (H x). Qed.

Lemma lstrip_split s : ∃ a, s = a ++ lstrip s ∧ Forall (λ c, is_space c = true) a.
Proof.
  induction s as [|x r (a & IH & Ha)]; cbn.
  - by exists [].
  - destruct (is_space x) eqn:Hx; [|by exists []].
    exists (x :: a). split; [cbn; by f_equal | by constructor].
Qed.

Lemma strip_trims s : trims s (strip s).
Proof.
  destruct (lstrip_split s) as (a & Hs & Ha).
  destruct (lstrip_split (reverse (lstrip s))) as (b & Hr & Hb).
  exists a, (reverse b). split; [|split; [done|split; [|split]]].
  - rewrite Hs at 1. f_equal. unfold strip. rewrite <- reverse_app, <- Hr.
    by rewrite reverse_involutive.
  - rewrite Forall_forall in Hb |- *. intros c Hc. apply Hb. by apply elem_of_reverse.
  - apply strip_head.
  - apply strip_last.
Qed.

Lemma trims_strip s t : trims s t → t = strip s.
Proof.
  intros (a & b & -> & Ha & Hb & Hh & Hl). unfold strip.
  rewrite lstrip_spaces by done.
  destruct t as [|x t].
  { cbn [app].
    assert (lstrip b = []) as ->.
    { induction b as [|y b IH]; [done|].
      apply Forall_cons in Hb as [Hy Hb]. cbn. rewrite Hy. by apply IH. }
    done. }
  rewrite (lstrip_id ((x :: t) ++ b)) by (intros c; cbn; intros [= <-]; by apply Hh).
  rewrite reverse_app, lstrip_spaces.
  - rewrite lstrip_id; [by rewrite reverse_involutive|].
    intros c. rewrite head_reverse. apply Hl.
  - rewrite Forall_forall in Hb |- *. intros c Hc. apply Hb. by apply elem_of_reverse.
Qed.

Lemma split_comma_ne s : split_comma s ≠ [].
Proof.
  induction s as [|c r IH]; [done|]. cbn.
  destruct (c =? 44)%N; [done|]. by destruct (split_comma r).
Qed.

Lemma join_cons_ne s r : r ≠ [] → join_comma (s :: r) = s ++ 44%N :: join_comma r.
Proof. by destruct r. Qed.

Lemma join_split_comma s : join_comma (split_comma s) = s.
Proof.
  induction s as [|c r IH]; [done|]. cbn [split_comma].
  destruct (c =? 44)%N eqn:E.
  - apply N.eqb_eq in E as ->.
    rewrite join_cons_ne by apply split_comma_ne. cbn. by f_equal.
  - pose proof (split_comma_ne r) as Hne.
    destruct (split_comma r) as [|piece pieces]; [done|].
    destruct pieces as [|p' ps]; cbn in *; by f_equal.
Qed.

Lemma split_comma_pieces s : Forall (λ x, 44%N ∉ x) (split_comma s).
Proof.
  induction s as [|c r IH]; cbn.
  - constructor; [apply not_elem_of_nil | constructor].
  - destruct (c =? 44)%N eqn:E.
    + constructor; [apply not_elem_of_nil | done].
    + apply N.eqb_neq in E.
      destruct (split_comma r) as [|piece pieces].
      * constructor; [|constructor]. apply not_elem_of_cons. split; [done|].
        apply not_elem_of_nil.
      * apply Forall_cons in IH as [Hp Hps]. constructor; [|done].
        apply not_elem_of_cons. by split.
Qed.

Lemma trims_fmap pieces trimmed :
  Forall2 trims pieces trimmed ↔ trimmed = strip <$> pieces.
Proof.
  split.
  - induction 1 as [|s t ps ts H _ IH]; [done|]. cbn. f_equal; [|done].
    by apply trims_strip.
  - intros ->. induction pieces as [|s ps IH]; constructor; [apply strip_trims | done].
Qed.

(** X2. [_normalize_cli_names] gives [None] for no argument and for an
    empty list; otherwise it gives a list of names none of which is empty
    or starts or ends with whitespace. Which names, exactly: the pieces
    are those between the commas of the argument when there is a single
    argument and it holds a comma, and the arguments themselves otherwise,
    so that a comma in one of several arguments does not split it; each
    piece is trimmed of the whitespace at its two ends, and the pieces
    that are empty once trimmed are dropped, the others keeping their
    order. The list can be empty, which the exporter treats as no
    override. *)
Theorem normalize_cli_names_trimmed (arg_list : option (list str)) :
  (_normalize_cli_names None = None ∧ _normalize_cli_names (Some []) = None) ∧
  (∀ names, _normalize_cli_names arg_list = Some names →
     Forall (λ s, s ≠ [] ∧
                  (∀ c, head s = Some c → is_space c = false) ∧
                  (∀ c, last s = Some c → is_space c = false)) names) ∧
  (∀ names, _normalize_cli_names arg_list = Some names ↔
     ∃ l pieces trimmed,
       arg_list = Some l ∧ l ≠ [] ∧ cli_pieces l pieces ∧
       Forall2 trims pieces trimmed ∧
       names = filter (λ s, s ≠ []) trimmed) ∧
  _normalize_cli_names (Some [lit "DAPI,GFP,RFP"])
    = Some [lit "DAPI"; lit "GFP"; lit "RFP"] ∧
  _normalize_cli_names (Some [lit "DAPI"; lit " GFP "; lit "RFP"])
    = Some [lit "DAPI"; lit "GFP"; lit "RFP"] ∧
  _normalize_cli_names (Some [lit " A , ,B"]) = Some [lit "A"; lit "B"] ∧
  _normalize_cli_names (Some [lit ","]) = Some [] ∧
  override_of (_normalize_cli_names (Some [lit ","])) = None ∧
  _normalize_cli_names (Some [lit "a,b"; lit "c"]) = Some [lit "a,b"; lit "c"].
Proof.
  split; [done|]. split; [|split; [|by vm_compute]].
  { assert (∀ l, Forall (λ s, s ≠ [] ∧
                  (∀ c, head s = Some c → is_space c = false) ∧
                  (∀ c, last s = Some c → is_space c = false)) (stripped l)) as Hs.
    { intros l. unfold stripped. apply Forall_forall. intros s Hin.
      apply list_elem_of_filter in Hin as [Hne Hin].
      apply list_elem_of_fmap in Hin as (s0 & -> & _).
      split; [done|]. split; [apply strip_head | apply strip_last]. }
    intros names. unfold _normalize_cli_names.
    destruct arg_list as [[|s [|s' l]]|]; [done| |by intros [= <-]|done].
    case_bool_decide; by intros [= <-]. }
  intros names. split.
  - unfold _normalize_cli_names.
    destruct arg_list as [[|s [|s' l]]|]; [done| | |done].
    + case_bool_decide as Hc; intros [= <-].
      * exists [s], (split_comma s), (strip <$> split_comma s).
        split; [done|]. split; [done|]. split; [|split; [by apply trims_fmap | done]].
        left. exists s. split; [done|]. split; [done|].
        split; [apply join_split_comma | apply split_comma_pieces].
      * exists [s], [s], (strip <$> [s]).
        split; [done|]. split; [done|]. split; [|split; [by apply trims_fmap | done]].
        right. split; [|done]. by intros s0 [= <-].
    + intros [= <-]. exists (s :: s' :: l), (s :: s' :: l), (strip <$> s :: s' :: l).
      split; [done|]. split; [done|]. split; [|split; [by apply trims_fmap | done]].
      right. split; [|done]. by intros s0.
  - intros (l & pieces & trimmed & -> & Hne & Hp & Ht & ->).
    apply trims_fmap in Ht as ->.
    destruct Hp as [(s & -> & Hc & Hj & Hps) | (Hc & ->)].
    + unfold _normalize_cli_names. rewrite bool_decide_eq_true_2 by done.
      assert (pieces ≠ []) as Hpn.
      { intros ->. cbn in Hj. subst s. by apply elem_of_nil in Hc. }
      rewrite <- Hj, split_join_comma by done. done.
    + destruct l as [|s [|s' l]]; [done| |done].
      unfold _normalize_cli_names. by rewrite bool_decide_eq_false_2 by by apply Hc.
Qed.

Lemma normalize_cli_names_trimmed_witness :
  Forall (λ s, s ≠ [] ∧
               (∀ c, head s = Some c → is_space c = false) ∧
               (∀ c, last s = Some c → is_space c = false))
         [lit "A"; lit "B"] ∧
  (∃ l pieces trimmed,
     Some [lit " A , ,B"] = Some l ∧ l ≠ [] ∧ cli_pieces l pieces ∧
     Forall2 trims pieces trimmed ∧
     [lit "A"; lit "B"] = filter (λ s, s ≠ []) trimmed).
Proof.
  destruct (normalize_cli_names_trimmed (Some [lit " A , ,B"])) as (_ & H1 & H2 & _).
  split.
  - apply H1. vm_compute. reflexivity.
  - apply H2. vm_compute. reflexivity.
Defined.

(** ** Names the sanitiser leaves alone *)

Lemma sub_runs_id ua b s : Forall (λ c, kept ua c = true) s → sub_runs ua b s = s.
Proof.
  intros H. pose proof (sub_runs_keeps ua b s [] H) as E.
  rewrite app_nil_r in E. rewrite E. cbn. apply app_nil_r.
Qed.

Lemma strip_us_id s :
  head s ≠ Some underscore → last s ≠ Some underscore → strip_us s = s.
Proof.
  intros Hh Hl. unfold strip_us, rstrip_us. rewrite (lstrip_us_id s Hh).
  rewrite lstrip_us_id; [apply reverse_involutive|]. by rewrite head_reverse.
Qed.

Lemma safe_clean ua s : clean ua s → _safe ua s = s.
Proof.
  intros (Hne & Hk & Hh & Hl). unfold _safe.
  rewrite sub_runs_id by done. rewrite strip_us_id by done.
  by destruct s.
Qed.

Lemma sub_runs_length ua b s : length (sub_runs ua b s) ≤ length s.
Proof.
  revert b. induction s as [|c r IH]; intros b; cbn; [done|].
  destruct (kept ua c); cbn; [specialize (IH false); lia|].
  destruct b; cbn; [specialize (IH true) | specialize (IH true)]; lia.
Qed.

Lemma lstrip_us_length s : length (lstrip_us s) ≤ length s.
Proof.
  destruct (lstrip_us_suffix s) as (k & Hk).
  rewrite Hk at 2. rewrite length_app. lia.
Qed.

Lemma strip_us_length s : length (strip_us s) ≤ length s.
Proof.
  unfold strip_us, rstrip_us. rewrite length_reverse.
  etrans; [apply lstrip_us_length|]. rewrite length_reverse. apply lstrip_us_length.
Qed.

(** X3. Sanitising is idempotent, and the names it returns unchanged are
    exactly the clean ones: non-empty, made of kept characters, with no
    underscore at either end. The result is never longer than the input,
    unless it is the replacement name. *)
Theorem safe_idempotent (ua : N → bool) (s : str) :
  _safe ua (_safe ua s) = _safe ua s ∧
  (_safe ua s = s ↔ clean ua s) ∧
  clean ua (_safe ua s) ∧
  (_safe ua s = lit "unnamed" ∨ length (_safe ua s) ≤ length s).
Proof.
  assert (clean ua (_safe ua s)) as Hc.
  { split; [apply safe_nonempty|]. split; [apply safe_kept|]. apply safe_head_last. }
  split; [by apply safe_clean|]. split; [|split; [done|]].
  - split; [intros <-; done | apply safe_clean].
  - destruct (safe_cases ua s) as [[_ ->]|[_ ->]]; [by left|right].
    etrans; [apply strip_us_length | apply sub_runs_length].
Qed.

(** ** The sizes of a scene *)

Lemma dict_zip_notin (m : gmap N nat) (labels : list N) (shape : list nat) (k : N) :
  k ∉ take (length shape) labels →
  foldl (λ m kv, <[kv.1 := kv.2]> m) m (zip labels shape) !! k = m !! k.
Proof.
  revert shape m. induction labels as [|a l IH]; intros [|n s] m; cbn; try done.
  intros Hk. apply not_elem_of_cons in Hk as [Hne Hk].
  rewrite IH by done. by rewrite lookup_insert_ne.
Qed.

Lemma dict_zip_last (m : gmap N nat) (labels : list N) (shape : list nat) i k n :
  labels !! i = Some k → shape !! i = Some n →
  k ∉ drop (S i) (take (length shape) labels) →
  foldl (λ m kv, <[kv.1 := kv.2]> m) m (zip labels shape) !! k = Some n.
Proof.
  revert shape m i. induction labels as [|a l IH]; intros [|x s] m [|i]; cbn; try done.
  - intros [= ->] [= ->] Hk. rewrite drop_0 in Hk.
    rewrite dict_zip_notin by done. apply lookup_insert_eq.
  - intros Hl Hs Hk. by apply (IH s _ i).
Qed.

(** X4. The sizes a scene is processed with: a label that is not among
    the dimensions that have a length counts 1; otherwise the length at
    the last position of the label is taken, which for labels without
    repetition is the length at its position. *)
Theorem dimension_sizes (view : scene_view) (label : N) :
  (label ∉ take (length (sv_shape view)) (sv_dims view) → size_of view label = 1) ∧
  (∀ i n, sv_dims view !! i = Some label → sv_shape view !! i = Some n →
     label ∉ drop (S i) (take (length (sv_shape view)) (sv_dims view)) →
     size_of view label = n) ∧
  (NoDup (sv_dims view) →
   ∀ i n, sv_dims view !! i = Some label → sv_shape view !! i = Some n →
     size_of view label = n).
Proof.
  assert (∀ i n, sv_dims view !! i = Some label → sv_shape view !! i = Some n →
     label ∉ drop (S i) (take (length (sv_shape view)) (sv_dims view)) →
     size_of view label = n) as Hlast.
  { intros i n Hl Hs Hk. unfold size_of, size_get, dict_zip, _dim_labels.
    by rewrite (dict_zip_last _ _ _ i label n). }
  split; [|split; [done|]].
  - intros Hk. unfold size_of, size_get, dict_zip, _dim_labels.
    by rewrite dict_zip_notin.
  - intros Hnd i n Hl Hs. apply (Hlast i n Hl Hs).
    intros Hin. apply list_elem_of_lookup in Hin as (j & Hj).
    rewrite lookup_drop in Hj.
    apply lookup_take_Some in Hj as [Hj _].
    pose proof (NoDup_lookup _ _ _ _ Hnd Hl Hj). lia.
Qed.

Lemma dimension_sizes_witness :
  size_of (SceneView (lit "CZYX") [2; 5; 10; 10] NamesNone (λ _ _, true)) label_T = 1 ∧
  size_of (view_TCZYX [3; 2; 5; 10; 10] NamesNone) label_C = 2.
Proof.
  split.
  - apply (dimension_sizes (SceneView (lit "CZYX") [2; 5; 10; 10] NamesNone (λ _ _, true))
             label_T).
    apply (bool_decide_unpack _). vm_compute. exact I.
  - destruct (dimension_sizes (view_TCZYX [3; 2; 5; 10; 10] NamesNone) label_C)
      as (_ & _ & H).
    apply (H ltac:(apply (bool_decide_unpack _); vm_compute; exact I) 1 2);
      vm_compute; reflexivity.
Defined.

(** ** The default output directory *)

Lemma rfind_dot_None s : 46%N ∉ s → rfind_dot s = None.
Proof.
  induction s as [|c r IH]; cbn; [done|].
  intros Hs. apply not_elem_of_cons in Hs as [Hc Hr]. rewrite IH by done.
  destruct (c =? 46)%N eqn:E; [|done]. apply N.eqb_eq in E. congruence.
Qed.

Lemma rfind_dot_app base ext :
  46%N ∉ ext → rfind_dot (base ++ 46%N :: ext) = Some (length base).
Proof.
  intros He. induction base as [|c r IH]; cbn.
  - by rewrite rfind_dot_None.
  - by rewrite IH.
Qed.

Lemma stem_of_ext base ext :
  base ≠ [] → ext ≠ [] → 46%N ∉ ext → stem_of (base ++ 46%N :: ext) = base.
Proof.
  intros Hb He Hd. unfold stem_of. rewrite rfind_dot_app by done.
  rewrite length_app. cbn [length].
  destruct base as [|b0 base]; [done|]. destruct ext as [|e0 ext]; [done|].
  rewrite !bool_decide_eq_true_2 by (cbn; lia). cbn [andb].
  by rewrite take_app_length.
Qed.

Lemma stem_of_plain name : 46%N ∉ name → stem_of name = name.
Proof. intros Hd. unfold stem_of. by rewrite rfind_dot_None. Qed.

Lemma path_split (p : path) : path_name p ≠ [] → p = path_parent p ++ [path_name p].
Proof.
  unfold path_name, path_parent. intros Hn.
  destruct (decide (p = [])) as [->|Hp]; [done|].
  destruct (exists_last Hp) as (q & x & ->).
  by rewrite last_snoc, removelast_last.
Qed.

Lemma path_parent_snoc (d : path) x : path_parent (d ++ [x]) = d.
Proof. apply removelast_last. Qed.

Lemma path_name_snoc (d : path) x : path_name (d ++ [x]) = x.
Proof. unfold path_name. by rewrite last_snoc. Qed.

Lemma export_name_ne name : stem_of name ++ lit "_export" ≠ name.
Proof.
  destruct (stem_of_split name) as (sfx & Hn & Hs). intros E.
  rewrite Hn in E at 2. apply app_inv_head in E. subst sfx.
  destruct Hs as [Hs|Hs]; vm_compute in Hs; congruence.
Qed.

(** X5. The default output directory is the sibling [<stem>_export] of
    the input: it has the parent of the input and differs from the input
    path; an input without a name has none, and the call raises. For a
    name [base.ext] the directory is [base_export], for a name without a
    dot it is [name_export]. *)
Theorem default_outdir_sibling (lif : path) :
  (path_name lif = [] → default_outdir lif = inl ValueError) ∧
  (∀ out, default_outdir lif = inr out →
     path_parent out = path_parent lif ∧
     path_name out = stem_of (path_name lif) ++ lit "_export" ∧
     length out = length lif ∧
     out ≠ lif ∧ ¬ lif `prefix_of` out) ∧
  (∀ (d : path) base ext, base ≠ [] → ext ≠ [] → 46%N ∉ ext →
     default_outdir (d ++ [base ++ 46%N :: ext]) = inr (d ++ [base ++ lit "_export"])) ∧
  (∀ (d : path) name, name ≠ [] → 46%N ∉ name →
     default_outdir (d ++ [name]) = inr (d ++ [name ++ lit "_export"])).
Proof.
  split; [|split; [|split]].
  - unfold default_outdir. by intros ->.
  - intros out. unfold default_outdir.
    destruct (path_name lif) as [|c name] eqn:Hn; [done|]. intros [= <-].
    assert (path_name lif ≠ []) as Hne by (by rewrite Hn).
    pose proof (path_split lif Hne) as Hlif. rewrite Hn in Hlif.
    assert (path_parent lif ++ [stem_of (c :: name) ++ lit "_export"] ≠ lif) as Hd.
    { intros E. pose proof (eq_trans E Hlif) as E'. apply app_inv_head in E'.
      injection E' as E'. by apply export_name_ne in E'. }
    assert (length (path_parent lif ++ [stem_of (c :: name) ++ lit "_export"])
            = length lif) as Hlen.
    { rewrite Hlif at 2. by rewrite !length_app. }
    rewrite path_parent_snoc, path_name_snoc.
    do 4 (split; [done|]).
    intros Hp. apply Hd. symmetry.
    apply prefix_length_eq; [done | lia].
  - intros d base ext Hb He Hd. unfold default_outdir.
    rewrite path_name_snoc, path_parent_snoc.
    destruct (base ++ 46%N :: ext) as [|c n] eqn:E; [by destruct base|].
    rewrite <- E. by rewrite stem_of_ext.
  - intros d name Hn Hd. unfold default_outdir.
    rewrite path_name_snoc, path_parent_snoc.
    destruct name as [|c n]; [done|]. by rewrite stem_of_plain.
Qed.

Lemma default_outdir_sibling_witness :
  default_outdir sample_lif = inr export_dir ∧
  export_dir ≠ sample_lif ∧
  default_outdir [] = inl ValueError.
Proof.
  destruct (default_outdir_sibling sample_lif) as (_ & H2 & H3 & _).
  destruct (default_outdir_sibling []) as (H1 & _).
  split; [|split].
  - apply (H3 data_dir (lit "sample") (lit "lif"));
      apply (bool_decide_unpack _); vm_compute; exact I.
  - destruct (H2 export_dir) as (_ & _ & _ & Hne & _); [vm_compute; reflexivity|].
    exact Hne.
  - apply H1. reflexivity.
Defined.

(** ** When the lookup of a channel name fails *)

Lemma resolve_names_meta x l nC :
  resolve_names None (Some (x :: l)) nC = Some <$> (x :: l).
Proof. done. Qed.

Lemma resolve_names_nometa meta nC :
  truthy meta = false → resolve_names None meta nC = replicate nC None.
Proof. by destruct meta as [[|x l]|]. Qed.

Lemma override_of_None cn : truthy cn = false → override_of cn = None.
Proof. unfold override_of. by intros ->. Qed.

Lemma resolve_override_lookup x l meta nC c :
  c < nC → resolve_names (Some (x :: l)) meta nC !! c = Some ((x :: l) !! c).
Proof.
  intros Hc. rewrite (resolve_names_override (Some (x :: l)) meta nC x l eq_refl).
  rewrite list_lookup_fmap, lookup_seq_lt by done. cbn [fmap option_fmap option_map].
  f_equal. case_bool_decide as Hlt; [done|].
  symmetry. apply lookup_ge_None. lia.
Qed.

Lemma ch_part_lookup ua (names : list (option str)) c o :
  names !! c = Some o →
  ch_part ua names c =
  inr (match o with
       | Some (y :: n) => lit "_ch-" ++ _safe ua (y :: n)
       | _ => index_label c
       end).
Proof.
  intros Hn. unfold ch_part. rewrite Hn.
  destruct names; [done|]. by destruct o as [[|??]|].
Qed.

Lemma ch_part_out ua (names : list (option str)) c :
  names ≠ [] → length names ≤ c → ch_part ua names c = inl IndexError.
Proof.
  intros Hne Hlen. unfold ch_part. destruct names; [done|].
  by rewrite lookup_ge_None_2.
Qed.

Lemma ch_part_exn ua names c e : ch_part ua names c = inl e → e = IndexError.
Proof.
  unfold ch_part. destruct names as [|n0 names]; [done|].
  destruct ((n0 :: names) !! c) as [[[|x n]|]|]; congruence.
Qed.

Lemma ch_part_override ua x l meta nC c :
  c < nC → ∃ part, ch_part ua (resolve_names (Some (x :: l)) meta nC) c = inr part.
Proof.
  intros Hc. erewrite ch_part_lookup; [eauto|]. by apply resolve_override_lookup.
Qed.

Lemma ch_part_nometa ua meta nC c :
  truthy meta = false → c < nC →
  ch_part ua (resolve_names None meta nC) c = inr (index_label c).
Proof.
  intros Hm Hc. rewrite resolve_names_nometa by done.
  rewrite (ch_part_lookup ua _ c None); [done|]. by apply lookup_replicate_2.
Qed.

(** X6. When the channel part of a file name cannot be formed. For a
    channel index below the number of channels, the lookup of the name
    fails, with IndexError and nothing else, exactly when no override is
    in effect and the metadata names are a non-empty list with no entry
    at the index. Without override, a metadata name at the index gives
    the named part, or the index label when it is empty; and with neither
    override nor metadata names the index label is used. *)
Theorem channel_part_cases (ua : N → bool) (cn meta : option (list str)) (nC c : nat) :
  c < nC →
  (ch_part ua (resolve_names (override_of cn) meta nC) c = inl IndexError ↔
     truthy cn = false ∧ ∃ l, meta = Some l ∧ l ≠ [] ∧ length l ≤ c) ∧
  (∀ e, ch_part ua (resolve_names (override_of cn) meta nC) c = inl e → e = IndexError) ∧
  (truthy cn = false → ∀ l name, meta = Some l → l !! c = Some name →
     ch_part ua (resolve_names (override_of cn) meta nC) c =
       inr (match name with
            | [] => index_label c
            | _ => lit "_ch-" ++ _safe ua name
            end)) ∧
  (truthy cn = false → truthy meta = false →
     ch_part ua (resolve_names (override_of cn) meta nC) c = inr (index_label c)).
Proof.
  intros Hc. split; [|split; [apply ch_part_exn|split]].
  - split.
    + intros Hf. destruct (truthy cn) eqn:Ht.
      * unfold override_of in Hf. rewrite Ht in Hf.
        destruct cn as [[|x l]|]; try done.
        destruct (ch_part_override ua x l meta nC c) as (part & Hp); [done|].
        congruence.
      * split; [done|]. rewrite override_of_None in Hf by done.
        destruct (truthy meta) eqn:Hm; [|by rewrite ch_part_nometa in Hf].
        destruct meta as [[|x l]|]; try done.
        exists (x :: l). split; [done|]. split; [done|].
        rewrite resolve_names_meta in Hf.
        destruct (decide (length (x :: l) ≤ c)) as [|Hlt]; [done|].
        destruct (lookup_lt_is_Some_2 (x :: l) c) as [name Hname]; [lia|].
        rewrite (ch_part_lookup ua _ c (Some name)) in Hf; [done|].
        by rewrite list_lookup_fmap, Hname.
    + intros (Ht & l & -> & Hl & Hlen).
      rewrite override_of_None by done.
      destruct l as [|x l]; [done|]. rewrite resolve_names_meta.
      apply ch_part_out; [done|]. by rewrite length_fmap.
  - intros Ht l name -> Hname.
    rewrite override_of_None by done.
    destruct l as [|x l]; [done|]. rewrite resolve_names_meta.
    rewrite (ch_part_lookup ua _ c (Some name)); [|by rewrite list_lookup_fmap, Hname].
    by destruct name.
  - intros Ht Hm. rewrite override_of_None by done. by apply ch_part_nometa.
Qed.

Lemma channel_part_cases_witness :
  ch_part no_wide (resolve_names (override_of None) (Some [lit "DAPI"]) 2) 1
    = inl IndexError ↔
  truthy (@None (list str)) = false ∧
  ∃ l, Some [lit "DAPI"] = Some l ∧ l ≠ [] ∧ length l ≤ 1.
Proof.
  apply (channel_part_cases no_wide None (Some [lit "DAPI"]) 2 1). lia.
Defined.

(** ** What a run changes *)

Lemma touched_refl out tr (fs : fsys) p : touched out tr fs fs p.
Proof. by left. Qed.

Lemma touched_trans out tr1 tr2 (fs fs1 fs2 : fsys) p :
  touched out tr1 fs fs1 p → touched out tr2 fs1 fs2 p →
  touched out (tr1 ++ tr2) fs fs2 p.
Proof.
  unfold touched. rewrite saved_paths_app.
  intros [E1 | [(N1 & D1 & W1) | (N1 & F1 & S1 & W1)]]
         [E2 | [(N2 & D2 & W2) | (N2 & F2 & S2 & W2)]].
  - left. congruence.
  - right; left. rewrite <- E1. done.
  - right; right. rewrite <- E1. split; [done|]. split; [done|].
    split; [|done]. apply elem_of_app. by right.
  - right; left. rewrite E2. done.
  - congruence.
  - congruence.
  - right; right. rewrite E2. split; [done|]. split; [done|].
    split; [|done]. apply elem_of_app. by left.
  - congruence.
  - right; right. split; [done|]. split; [done|].
    split; [|done]. apply elem_of_app. by right.
Qed.

Section Confined.

Variable out : path.

Lemma confined_ret {A} (a : A) : confined out (mret a).
Proof. intros fs p. apply touched_refl. Qed.

Lemma confined_raise {A} e : confined out (raise (A:=A) e).
Proof. intros fs p. apply touched_refl. Qed.

Lemma confined_emit ev : confined out (emit ev).
Proof. intros fs p. apply touched_refl. Qed.

Lemma confined_log rq msg : confined out (_log rq msg).
Proof. intros fs p. rewrite log_eq. apply touched_refl. Qed.

Lemma confined_lift {A} (r : exn + A) : confined out (lift_exn r).
Proof. intros fs p. rewrite lift_exn_eq. apply touched_refl. Qed.

Lemma confined_exists q : confined out (path_exists q).
Proof. intros fs p. apply touched_refl. Qed.

Lemma confined_bind {A B} (m : M A) (k : A → M B) :
  confined out m → (∀ a, confined out (k a)) → confined out (m ≫= k).
Proof.
  intros Hm Hk fs p. rewrite bind_eq.
  destruct (out_res (m fs)) as [e|a]; cbn; [apply Hm|].
  eapply touched_trans; [apply Hm | apply Hk].
Qed.

Lemma confined_for_each {A B} (l : list A) (body : A → M (list B)) :
  (∀ x, confined out (body x)) → confined out (for_each l body).
Proof.
  intros Hb. induction l as [|x r IH]; cbn; [apply confined_ret|].
  apply confined_bind; [apply Hb|]. intros ys.
  apply confined_bind; [apply IH|]. intros zs. apply confined_ret.
Qed.

Lemma confined_get_image_data scene view sel c :
  confined out (get_image_data scene view sel c).
Proof.
  intros fs p. rewrite get_image_data_eq.
  destruct (sv_readable view sel c); apply touched_refl.
Qed.

Lemma confined_open q : confined out (open_image q).
Proof.
  intros fs p. rewrite open_image_eq.
  destruct (node_at fs q) as [[|[?|]]|]; apply touched_refl.
Qed.

End Confined.

(** The creation of a directory makes directories where nothing was, on
    the way to it, and changes nothing else. *)
Lemma mkdir_from_touch d todo (fs fs' : fsys) (p : path) :
  mkdir_from d todo fs = inr fs' →
  fs' !! p = fs !! p ∨
  (fs !! p = None ∧ fs' !! p = Some Dir ∧
   ∃ k, 0 < k ≤ length todo ∧ p = d ++ take k todo).
Proof.
  intros Hmk.
  destruct (decide (p ∈ (λ k, d ++ take k todo) <$> seq 1 (length todo))) as [Hin|Hout].
  - apply list_elem_of_fmap in Hin as (k & -> & Hk). apply elem_of_seq in Hk.
    pose proof (mkdir_from_dirs d todo fs fs' k Hmk ltac:(lia)) as Hd.
    destruct (fs !! (d ++ take k todo)) as [x|] eqn:Hx.
    + left. rewrite Hd. pose proof (mkdir_from_subseteq _ _ _ _ Hmk) as Hsub.
      apply (lookup_weaken _ _ _ _ Hx) in Hsub. congruence.
    + right. split; [done|]. split; [done|]. exists k. split; [lia | done].
  - left. apply (mkdir_from_frame d todo fs fs' p Hmk).
    intros k Hk ->. apply Hout. apply list_elem_of_fmap. exists k.
    split; [done|]. apply elem_of_seq. lia.
Qed.

Lemma take_prefix_snoc {A} (l : list A) x k :
  take k (l ++ [x]) `prefix_of` l ∨ take k (l ++ [x]) = l ++ [x].
Proof.
  destruct (decide (k ≤ length l)) as [Hk|Hk].
  - left. rewrite take_app_le by done. exists (drop k l). by rewrite take_drop.
  - right. apply take_ge. rewrite length_app. cbn. lia.
Qed.

Lemma confined_mkdir (out q : path) :
  q = out ∨ (∃ x, q = out ++ [x]) → confined out (mkdir q).
Proof.
  intros Hq fs p. rewrite mkdir_eq.
  destruct (mkdir_from [] q fs) as [e|fs'] eqn:Hmk; cbn; [apply touched_refl|].
  destruct (mkdir_from_touch [] q fs fs' p Hmk) as [E | (Hn & Hd & k & Hk & ->)];
    [by left|].
  right; left. split; [done|]. split; [done|]. cbn.
  destruct Hq as [-> | [x ->]].
  - left. exists (drop k out). by rewrite take_drop.
  - destruct (take_prefix_snoc out x k) as [H | H]; [by left|]. right. by exists x.
Qed.

Lemma confined_save wr (out : path) v (p : path) b :
  (∃ x y, p = out ++ [x; y]) → confined out (save wr v p b).
Proof.
  intros Hp fs q. rewrite save_eq.
  destruct (wr p v b) as [e|]; [apply touched_refl|].
  assert (p ≠ []) as Hne by (destruct Hp as (x & y & ->); by destruct out).
  assert (node_at fs p = fs !! p) as -> by (by destruct p).
  destruct (fs !! p) as [[|?]|] eqn:Hn; cbn; [apply touched_refl| |];
    (destruct (node_at fs (path_parent p)) as [[|?]|]; cbn;
      [|apply touched_refl|apply touched_refl]);
    (destruct (decide (q = p)) as [->|Hqp];
      [right; right; rewrite lookup_insert_eq, Hn;
       split; [done|]; split; [done|]; split; [apply list_elem_of_here | done]
      |left; by rewrite lookup_insert_ne]).
Qed.

Lemma confined_write_channel ua wr rq (out : path) x scene view labels names t c :
  confined out (write_channel ua wr rq scene (out ++ [x]) view labels names t c).
Proof.
  unfold write_channel.
  apply confined_bind; [apply confined_get_image_data|]. intros zyx.
  apply confined_bind; [apply confined_lift|]. intros part.
  apply confined_bind.
  { apply confined_save. eexists _, _. by rewrite <- app_assoc. }
  intros _. apply confined_bind; [apply confined_log|]. intros _. apply confined_ret.
Qed.

Lemma confined_process_scene ua wr rq img (out : path) base ov scene :
  confined out (process_scene ua wr rq img out base ov scene).
Proof.
  unfold process_scene, set_scene, scene_dir_of.
  apply confined_bind; [apply confined_emit|]. intros _.
  apply confined_bind; [apply confined_mkdir; right; by eexists|]. intros _.
  match goal with |- context [if ?b then _ else _] => destruct b end.
  - apply confined_bind; [apply confined_log|]. intros _. apply confined_ret.
  - apply confined_bind; [apply confined_log|]. intros _.
    apply confined_bind.
    { match goal with |- context [if ?b then _ else _] => destruct b end;
        [apply confined_log | apply confined_ret]. }
    intros _. apply confined_bind; [apply confined_log|]. intros _.
    apply confined_for_each. intros t. apply confined_for_each. intros c.
    apply confined_write_channel.
Qed.

Lemma confined_split ua wr rq (out : path) :
  outdir_of rq = inr out → confined out (split_lif_to_channels ua wr rq).
Proof.
  intros Hout. unfold split_lif_to_channels. rewrite Hout.
  apply confined_bind; [apply confined_exists|]. intros ex.
  destruct (negb ex); [apply confined_raise|].
  intros fs. rewrite bind_eq, lift_exn_eq. cbn -[mbind]. revert fs.
  change (confined out
    (mkdir out;;
     img ← open_image (lif_path rq);
     _log rq (MsgOpened (lif_path rq));;
     _log rq (MsgScenes (length (img_scenes img))
                (_dim_labels (sv_dims (img_view img (img_first img))))
                (sv_shape (img_view img (img_first img))));;
     (if truthy (names_or (sv_channel_names (img_view img (img_first img))) None)
      then _log rq (MsgBaseNames (default []
             (names_or (sv_channel_names (img_view img (img_first img))) None)))
      else mret ());;
     (if truthy (override_of (channel_names rq))
      then _log rq (MsgOverride (default [] (override_of (channel_names rq))))
      else mret ());;
     if bool_decide (dtype rq ≠ lit "native") && bool_decide (dtype rq ∉ dtype_map)
     then raise ValueError else
     written ← for_each (img_scenes img)
                 (process_scene ua wr rq img out
                    (names_or (sv_channel_names (img_view img (img_first img))) None)
                    (override_of (channel_names rq)));
     _log rq (MsgDone (length written) out);;
     mret written)).
  apply confined_bind; [apply confined_mkdir; by left|]. intros _.
  apply confined_bind; [apply confined_open|]. intros img.
  apply confined_bind; [apply confined_log|]. intros _.
  apply confined_bind; [apply confined_log|]. intros _.
  apply confined_bind.
  { destruct (truthy _); [apply confined_log | apply confined_ret]. }
  intros _. apply confined_bind.
  { destruct (truthy _); [apply confined_log | apply confined_ret]. }
  intros _. destruct (_ && _); [apply confined_raise|].
  apply confined_bind.
  { apply confined_for_each. intros scene. apply confined_process_scene. }
  intros written. apply confined_bind; [apply confined_log|]. intros _.
  apply confined_ret.
Qed.

Lemma inflates_split ua wr rq : inflates (lif_path rq) (split_lif_to_channels ua wr rq).
Proof.
  unfold split_lif_to_channels.
  apply inflates_bind.
  { intros fs. apply ext_refl. }
  intros ex. inflate.
Qed.

Lemma split_no_outdir ua wr rq fs e :
  outdir_of rq = inl e → out_fs (split_lif_to_channels ua wr rq fs) = fs.
Proof.
  intros Hout.
  destruct (split_early ua wr rq fs)
    as [[Hex ->] | [(e' & Hex & Hout' & ->) | [(out & e' & Hout' & Hmk & ->) |
        [(out & fs1 & e' & Hout' & Hmk & Himg & ->) |
         (out & fs1 & img & Hex & Hout' & Hmk & Himg)]]]]; try done; congruence.
Qed.

(** X7. What a run changes, whether it returns or fails. With the output
    directory [out], the node at a path is left as it was, or a directory
    is made where nothing was ([out], a directory on the way to it or a
    scene directory directly below it), or a file handed to the writer is
    written two levels below [out] where no directory was. So nothing is
    changed outside [out] and the directories on the way to it, nothing is
    removed, a directory stays a directory, and the node at the input path
    stays as it is. A run that has no output directory changes nothing. *)
Theorem run_confined (ua : N → bool) (wr : writer) (rq : request) (fs : fsys) :
  (∀ out p, outdir_of rq = inr out →
     touched out (out_trace (split_lif_to_channels ua wr rq fs)) fs
       (out_fs (split_lif_to_channels ua wr rq fs)) p) ∧
  (∀ out p, outdir_of rq = inr out →
     ¬ p `prefix_of` out → ¬ out `prefix_of` p →
     out_fs (split_lif_to_channels ua wr rq fs) !! p = fs !! p) ∧
  (∀ e, outdir_of rq = inl e → out_fs (split_lif_to_channels ua wr rq fs) = fs) ∧
  (∀ p, is_Some (fs !! p) → is_Some (out_fs (split_lif_to_channels ua wr rq fs) !! p)) ∧
  (∀ p, fs !! p = Some Dir →
     out_fs (split_lif_to_channels ua wr rq fs) !! p = Some Dir) ∧
  (∀ x, fs !! lif_path rq = Some x →
     out_fs (split_lif_to_channels ua wr rq fs) !! lif_path rq = Some x).
Proof.
  assert (∀ out p, outdir_of rq = inr out →
     touched out (out_trace (split_lif_to_channels ua wr rq fs)) fs
       (out_fs (split_lif_to_channels ua wr rq fs)) p) as Ht.
  { intros out p Hout. by apply confined_split. }
  split; [done|]. split; [|split; [|split; [|split]]].
  - intros out p Hout Hp1 Hp2.
    destruct (Ht out p Hout) as [E | [(_ & _ & [H | [x ->]]) | (_ & _ & _ & x & y & ->)]];
      [done|done| |]; exfalso; apply Hp2; by eexists.
  - intros e. apply split_no_outdir.
  - intros p [x Hx]. destruct (outdir_of rq) as [e|out] eqn:Hout.
    { rewrite (split_no_outdir ua wr rq fs e Hout). by exists x. }
    destruct (Ht out p eq_refl) as [E | [(Hn & _) | (_ & -> & _)]];
      [rewrite E; by exists x | congruence | by eexists].
  - intros p Hp. apply (inflates_split ua wr rq fs p Dir Hp). by left.
  - intros x Hx. apply (inflates_split ua wr rq fs _ x Hx). right; by right.
Qed.

Lemma run_confined_witness :
  out_fs (split_lif_to_channels no_wide accepts_all plain_request (disk two_scenes))
    !! [lit "elsewhere"; lit "notes.txt"]
    = disk two_scenes !! [lit "elsewhere"; lit "notes.txt"] ∧
  out_fs (split_lif_to_channels no_wide accepts_all plain_request (disk two_scenes)) !! sample_lif
    = Some (File (Some two_scenes)).
Proof.
  destruct (run_confined no_wide accepts_all plain_request (disk two_scenes))
    as (_ & H2 & _ & _ & _ & H6).
  split.
  - apply (H2 export_dir); [vm_compute; reflexivity |..];
      apply (bool_decide_unpack _); vm_compute; exact I.
  - apply H6. vm_compute. reflexivity.
Defined.

(** ** The calls of a run, in order *)

Lemma save_trace wr v (p : path) b (fs : fsys) : out_trace (save wr v p b fs) = [EvSave p v b].
Proof.
  rewrite save_eq. destruct (wr p v b) as [e|]; [done|].
  destruct (node_at fs p) as [[|?]|]; [done| |];
    by destruct (node_at fs (path_parent p)) as [[|?]|].
Qed.

Lemma calls_omap tr : calls tr = omap (λ ev, if is_call ev then Some ev else None) tr.
Proof.
  unfold calls. induction tr as [|ev tr IH]; [done|].
  rewrite filter_cons. cbn [omap list_omap]. rewrite <- IH.
  by destruct ev.
Qed.

Lemma calls_prints (b : bool) msg : calls (if b then [EvPrint msg] else []) = [].
Proof. by destruct b. Qed.

Lemma saved_paths_calls tr : saved_paths (calls tr) = saved_paths tr.
Proof.
  unfold calls, saved_paths. induction tr as [|ev tr IH]; [done|].
  rewrite filter_cons. destruct (is_call ev) eqn:Hev.
  - rewrite decide_True by exact I. cbn [omap list_omap]. by rewrite IH.
  - rewrite decide_False by (intros []). rewrite IH. by destruct ev.
Qed.

(** A loop whose rounds make known calls, all of them when they end well,
    makes the calls of its rounds in order, all of them when it ends
    well. *)
Lemma for_each_segment {A B C : Type} (g : event → option C) (f : A → list C)
    (body : A → M (list B)) :
  (∀ x fs, omap g (out_trace (body x fs)) `prefix_of` f x ∧
           (∀ ys, out_res (body x fs) = inr ys → omap g (out_trace (body x fs)) = f x)) →
  ∀ l fs, omap g (out_trace (for_each l body fs)) `prefix_of` (l ≫= f) ∧
          (∀ zs, out_res (for_each l body fs) = inr zs →
                 omap g (out_trace (for_each l body fs)) = l ≫= f).
Proof.
  intros Hb l. induction l as [|x r IH]; intros fs; [done|].
  cbn [for_each]. rewrite bind_cons, bind_eq.
  destruct (Hb x fs) as [Hpre Hall].
  destruct (out_res (body x fs)) as [e|ys] eqn:Hx; cbn.
  { split; [by apply prefix_app_r | done]. }
  rewrite bind_eq. destruct (IH (out_fs (body x fs))) as [Hpre' Hall'].
  rewrite omap_app, (Hall ys eq_refl).
  destruct (out_res (for_each r body (out_fs (body x fs)))) as [e|zs] eqn:Hr; cbn.
  { split; [by apply prefix_app | done]. }
  rewrite app_nil_r, (Hall' zs eq_refl). done.
Qed.

Lemma for_each_calls {A B : Type} (f : A → list event) (body : A → M (list B)) :
  (∀ x fs, calls (out_trace (body x fs)) `prefix_of` f x ∧
           (∀ ys, out_res (body x fs) = inr ys → calls (out_trace (body x fs)) = f x)) →
  ∀ l fs, calls (out_trace (for_each l body fs)) `prefix_of` (l ≫= f) ∧
          (∀ zs, out_res (for_each l body fs) = inr zs →
                 calls (out_trace (for_each l body fs)) = l ≫= f).
Proof.
  intros Hb l fs. rewrite calls_omap. apply for_each_segment.
  intros x fs'. rewrite <- calls_omap. apply Hb.
Qed.

Lemma write_channel_calls ua wr rq scene (scene_dir : path) view labels names t c fs :
  calls (out_trace (write_channel ua wr rq scene scene_dir view labels names t c fs))
    `prefix_of`
    [ EvRead scene (if bool_decide (label_T ∈ labels) then Some t else None) c;
      EvSave (scene_dir ++ [file_name ua rq scene (chan_label ua names c)])
        (Volume scene (if bool_decide (label_T ∈ labels) then Some t else None) c
           (if bool_decide (dtype rq ≠ lit "native") then Some (dtype rq) else None))
        (bigtiff rq) ] ∧
  (∀ ys, out_res (write_channel ua wr rq scene scene_dir view labels names t c fs) = inr ys →
     calls (out_trace (write_channel ua wr rq scene scene_dir view labels names t c fs)) =
     [ EvRead scene (if bool_decide (label_T ∈ labels) then Some t else None) c;
       EvSave (scene_dir ++ [file_name ua rq scene (chan_label ua names c)])
         (Volume scene (if bool_decide (label_T ∈ labels) then Some t else None) c
            (if bool_decide (dtype rq ≠ lit "native") then Some (dtype rq) else None))
         (bigtiff rq) ]).
Proof.
  rewrite write_channel_eq. cbv zeta. unfold chan_label.
  destruct (sv_readable view _ c); cbn [out_res out_trace];
    [|split; [apply prefix_cons, prefix_nil | done]].
  destruct (ch_part ua names c) as [e|part]; cbn [out_res out_trace];
    [split; [apply prefix_cons, prefix_nil | done]|].
  assert (∀ tail, calls tail = [] →
    calls (EvRead scene (if bool_decide (label_T ∈ labels) then Some t else None) c
      :: out_trace (save wr
           (if bool_decide (dtype rq ≠ lit "native")
            then astype (Volume scene
                   (if bool_decide (label_T ∈ labels) then Some t else None) c None)
                   (dtype rq)
            else Volume scene
                   (if bool_decide (label_T ∈ labels) then Some t else None) c None)
           (scene_dir ++ [file_name ua rq scene part]) (bigtiff rq) fs) ++ tail) =
    [ EvRead scene (if bool_decide (label_T ∈ labels) then Some t else None) c;
      EvSave (scene_dir ++ [file_name ua rq scene part])
        (Volume scene (if bool_decide (label_T ∈ labels) then Some t else None) c
           (if bool_decide (dtype rq ≠ lit "native") then Some (dtype rq) else None))
        (bigtiff rq) ]) as Hcalls.
  { intros tail Htail. rewrite save_trace.
    rewrite (app_comm_cons [_] tail (EvRead _ _ _)).
    rewrite calls_app, Htail. by destruct (bool_decide (dtype rq ≠ _)). }
  destruct (out_res (save _ _ _ _ fs)) as [e|[]]; cbn [out_res out_trace].
  - split; [|done]. specialize (Hcalls [] eq_refl). rewrite app_nil_r in Hcalls.
    by rewrite Hcalls.
  - by rewrite (Hcalls _ (calls_prints _ _)).
Qed.

(** A scene that is not skipped, with the calls made before its loops. *)
Lemma process_scene_loops ua wr rq img out base ov scene fs :
  skipped rq (img_view img scene) = false →
  ∃ hdr : list event,
    calls hdr = [] ∧
    process_scene ua wr rq img out base ov scene fs =
    match mkdir_from [] (scene_dir_of ua out scene) fs with
    | inl e =>
        Outcome (inl e) fs [EvSetScene scene; EvMkdir (scene_dir_of ua out scene)]
    | inr fs' =>
        let loops :=
          for_each (seq 0 (size_of (img_view img scene) label_T)) (λ t,
            for_each (seq 0 (size_of (img_view img scene) label_C)) (λ c,
              write_channel ua wr rq scene (scene_dir_of ua out scene)
                (img_view img scene) (_dim_labels (sv_dims (img_view img scene)))
                (resolve_names ov
                   (names_or (sv_channel_names (img_view img scene)) base)
                   (size_of (img_view img scene) label_C)) t c)) in
        Outcome (out_res (loops fs')) (out_fs (loops fs'))
          (EvSetScene scene :: EvMkdir (scene_dir_of ua out scene)
             :: hdr ++ out_trace (loops fs'))
    end.
Proof.
  intros Hs. unfold skipped, size_of in Hs.
  eexists. split; cycle 1.
  - unfold process_scene, set_scene, size_of.
    rewrite emit_bind, bind_eq, mkdir_eq.
    destruct (mkdir_from [] (scene_dir_of ua out scene) fs) as [e|fs']; cbn;
      [reflexivity|].
    rewrite Hs. rewrite log_bind. cbn. rewrite bind_eq.
    rewrite log_if_eq. cbn. rewrite log_bind. cbn.
    do 3 f_equal. apply app3_assoc.
  - rewrite !calls_app.
    repeat match goal with |- context [if ?b then _ else _] => destruct b end;
      reflexivity.
Qed.

Lemma calls_scene_start scene (d : path) tr :
  calls (EvSetScene scene :: EvMkdir d :: tr) = EvSetScene scene :: EvMkdir d :: calls tr.
Proof. done. Qed.

Lemma process_scene_calls ua wr rq img out scene fs :
  calls (out_trace (process_scene ua wr rq img out
     (names_or (sv_channel_names (img_view img (img_first img))) None)
     (override_of (channel_names rq)) scene fs))
    `prefix_of` scene_calls ua rq img out scene ∧
  (∀ ys, out_res (process_scene ua wr rq img out
            (names_or (sv_channel_names (img_view img (img_first img))) None)
            (override_of (channel_names rq)) scene fs) = inr ys →
     calls (out_trace (process_scene ua wr rq img out
        (names_or (sv_channel_names (img_view img (img_first img))) None)
        (override_of (channel_names rq)) scene fs))
     = scene_calls ua rq img out scene).
Proof.
  unfold scene_calls. destruct (skipped rq (img_view img scene)) eqn:Hs.
  - destruct (process_scene_start ua wr rq img out
                (names_or (sv_channel_names (img_view img (img_first img))) None)
                (override_of (channel_names rq)) scene fs)
      as (rest & _ & Hrest & ->).
    rewrite (Hrest Hs).
    destruct (mkdir_from [] (scene_dir_of ua out scene) fs) as [e|fs'] eqn:Hmk;
      cbn [out_res out_trace]; [done|].
    rewrite skip_eq. cbn [out_res out_trace]. rewrite calls_scene_start, calls_prints.
    done.
  - destruct (process_scene_loops ua wr rq img out
                (names_or (sv_channel_names (img_view img (img_first img))) None)
                (override_of (channel_names rq)) scene fs Hs)
      as (hdr & Hhdr & ->).
    destruct (mkdir_from [] (scene_dir_of ua out scene) fs) as [e|fs'] eqn:Hmk;
      cbn [out_res out_trace].
    { split; [|done]. do 2 apply prefix_cons. apply prefix_nil. }
    cbv zeta. rewrite calls_scene_start, calls_app, Hhdr. cbn [app].
    destruct (for_each_calls
      (λ t, c ← seq 0 (size_of (img_view img scene) label_C);
            channel_calls ua rq img out scene t c)
      (λ t, for_each (seq 0 (size_of (img_view img scene) label_C)) (λ c,
              write_channel ua wr rq scene (scene_dir_of ua out scene)
                (img_view img scene) (_dim_labels (sv_dims (img_view img scene)))
                (resolve_names (override_of (channel_names rq))
                   (names_or (sv_channel_names (img_view img scene))
                      (names_or (sv_channel_names (img_view img (img_first img))) None))
                   (size_of (img_view img scene) label_C)) t c))
      (λ t fs1, for_each_calls
         (λ c, channel_calls ua rq img out scene t c) _
         (λ c fs2, write_channel_calls ua wr rq scene _ _ _ _ t c fs2) _ fs1)
      (seq 0 (size_of (img_view img scene) label_T)) fs') as [Hpre Hall].
    split.
    + by do 2 apply prefix_cons.
    + intros ys Hys. by rewrite (Hall ys Hys).
Qed.

Lemma opened_same (fs fs1 : fsys) (L out : path) img img' :
  node_at fs L = Some (File (Some img)) →
  mkdir_from [] out fs = inr fs1 →
  node_at fs1 L = Some (File (Some img')) → img' = img.
Proof.
  intros Hn Hmk Hn'. destruct L as [|x r]; [done|]. cbn in *.
  pose proof (mkdir_from_subseteq _ _ _ _ Hmk) as Hsub.
  apply (lookup_weaken _ _ _ _ Hn) in Hsub. congruence.
Qed.

Lemma split_calls ua wr rq fs img out :
  node_at fs (lif_path rq) = Some (File (Some img)) →
  outdir_of rq = inr out →
  calls (out_trace (split_lif_to_channels ua wr rq fs))
    `prefix_of` expected_calls ua rq img out ∧
  (∀ written, out_res (split_lif_to_channels ua wr rq fs) = inr written →
     calls (out_trace (split_lif_to_channels ua wr rq fs)) = expected_calls ua rq img out).
Proof.
  intros Himg0 Hout0. unfold expected_calls.
  destruct (split_early ua wr rq fs)
    as [[Hex ->] | [(e & Hex & Hout & ->) | [(out' & e & Hout & Hmk & ->) |
        [(out' & fs1 & e & Hout & Hmk & Himg & ->) |
         (out' & fs1 & img' & Hex & Hout & Hmk & Himg)]]]];
    try (split; [apply prefix_nil | done]).
  - assert (out' = out) as -> by congruence.
    split; [|done]. apply prefix_cons, prefix_nil.
  - assert (out' = out) as -> by congruence.
    split; [|done]. do 2 apply prefix_cons. apply prefix_nil.
  - assert (out' = out) as -> by congruence.
    assert (img' = img) as -> by (by eapply opened_same).
    destruct (split_opened rq fs out fs1 img Hex Hout Hmk Himg)
      as (header & Hcalls & _ & Hrun).
    unfold split_lif_to_channels. rewrite Hrun. cbn [out_res out_trace].
    rewrite calls_app, Hcalls. cbn [app].
    destruct (bool_decide (dtype rq ≠ lit "native") && bool_decide (dtype rq ∉ dtype_map));
      [split; [|done]; do 2 apply prefix_cons; apply prefix_nil|].
    rewrite bind_eq.
    destruct (for_each_calls (scene_calls ua rq img out)
                (process_scene ua wr rq img out
                   (names_or (sv_channel_names (img_view img (img_first img))) None)
                   (override_of (channel_names rq)))
                (λ scene fs2, process_scene_calls ua wr rq img out scene fs2)
                (img_scenes img) fs1) as [Hpre Hall].
    destruct (out_res (for_each _ _ fs1)) as [e|l] eqn:Hl; cbn [out_res out_trace].
    + split; [|done]. by do 2 apply prefix_cons.
    + rewrite log_bind. cbn [out_res out_trace].
      rewrite !calls_app, (Hall l eq_refl), calls_prints. cbn. by rewrite !app_nil_r.
Qed.

(** X8. The calls of a run, in order. On an input that is a container,
    the calls other than printing are an initial segment of the expected
    ones, whether the run returns or fails, and all of them when it
    returns: the output directory is made, the container is opened, and
    scene by scene, in the order of the container, the scene is selected,
    its directory is made and, unless the scene is skipped, for each
    timepoint and within it for each channel the Z-stack is read and then
    written, before the next is read. Each write has the path of its
    channel, the stack of its scene, timepoint and channel, read with a T
    selector only when the scene has a T label and cast to [dtype] unless
    that is native, and the BigTIFF flag of the request. The list
    returned is the list of the paths of the writes. *)
Theorem calls_in_order (ua : N → bool) (wr : writer) (rq : request) (fs : fsys)
    (img : image) (out : path) :
  node_at fs (lif_path rq) = Some (File (Some img)) →
  outdir_of rq = inr out →
  calls (out_trace (split_lif_to_channels ua wr rq fs))
    `prefix_of` expected_calls ua rq img out ∧
  (∀ written, out_res (split_lif_to_channels ua wr rq fs) = inr written →
     calls (out_trace (split_lif_to_channels ua wr rq fs)) = expected_calls ua rq img out ∧
     written = saved_paths (expected_calls ua rq img out)).
Proof.
  intros Himg Hout. destruct (split_calls ua wr rq fs img out Himg Hout) as [Hpre Hall].
  split; [done|]. intros written Hw. split; [by eapply Hall|].
  rewrite <- (Hall written Hw), saved_paths_calls.
  by destruct (split_value ua wr rq fs written Hw) as (_ & _ & _ & _ & _ & Hs & _).
Qed.

Lemma calls_in_order_witness :
  calls (out_trace (split_lif_to_channels no_wide accepts_all plain_request (disk two_scenes)))
    `prefix_of` expected_calls no_wide plain_request two_scenes export_dir ∧
  (∀ written,
     out_res (split_lif_to_channels no_wide accepts_all plain_request (disk two_scenes)) = inr written →
     calls (out_trace (split_lif_to_channels no_wide accepts_all plain_request (disk two_scenes)))
       = expected_calls no_wide plain_request two_scenes export_dir ∧
     written = saved_paths (expected_calls no_wide plain_request two_scenes export_dir)).
Proof.
  apply (calls_in_order no_wide accepts_all plain_request (disk two_scenes) two_scenes export_dir).
  - vm_compute. reflexivity.
  - vm_compute. reflexivity.
Defined.

(** ** What [verbose] changes *)

Lemma same_calls_refl {A} (m : M A) : same_calls m m.
Proof. by intros fs. Qed.

Lemma same_calls_bind {A B} (m m' : M A) (k k' : A → M B) :
  same_calls m m' → (∀ a, same_calls (k a) (k' a)) → same_calls (m ≫= k) (m' ≫= k').
Proof.
  intros Hm Hk fs. rewrite !bind_eq. destruct (Hm fs) as (Hr & Hf & Hc).
  rewrite <- Hr. destruct (out_res (m fs)) as [e|a]; cbn; [done|].
  rewrite <- Hf. destruct (Hk a (out_fs (m fs))) as (Hr' & Hf' & Hc').
  by rewrite !calls_app, Hc, Hc'.
Qed.

Lemma same_calls_for_each {A B} (l : list A) (body body' : A → M (list B)) :
  (∀ x, same_calls (body x) (body' x)) → same_calls (for_each l body) (for_each l body').
Proof.
  intros Hb. induction l as [|x r IH]; cbn; [apply same_calls_refl|].
  apply same_calls_bind; [apply Hb|]. intros ys.
  apply same_calls_bind; [apply IH|]. intros zs. apply same_calls_refl.
Qed.

Lemma same_calls_log rq rq' msg msg' : same_calls (_log rq msg) (_log rq' msg').
Proof. intros fs. rewrite !log_eq. cbn. by destruct (verbose rq), (verbose rq'). Qed.

Lemma same_calls_write_channel ua wr rq v scene scene_dir view labels names t c :
  same_calls (write_channel ua wr (with_verbose v rq) scene scene_dir view labels names t c)
             (write_channel ua wr rq scene scene_dir view labels names t c).
Proof.
  unfold write_channel.
  apply same_calls_bind; [apply same_calls_refl|]. intros zyx.
  apply same_calls_bind; [apply same_calls_refl|]. intros part.
  apply same_calls_bind; [apply same_calls_refl|]. intros _.
  apply same_calls_bind; [apply same_calls_log|]. intros _. apply same_calls_refl.
Qed.

Lemma same_calls_process_scene ua wr rq v img out base ov scene :
  same_calls (process_scene ua wr (with_verbose v rq) img out base ov scene)
             (process_scene ua wr rq img out base ov scene).
Proof.
  unfold process_scene.
  apply same_calls_bind; [apply same_calls_refl|]. intros _.
  apply same_calls_bind; [apply same_calls_refl|]. intros _.
  change (include_empty (with_verbose v rq)) with (include_empty rq).
  match goal with |- context [if ?b then _ else _] => destruct b end.
  - apply same_calls_bind; [apply same_calls_log|]. intros _. apply same_calls_refl.
  - apply same_calls_bind; [apply same_calls_log|]. intros _.
    apply same_calls_bind.
    { match goal with |- context [if ?b then _ else _] => destruct b end;
        [apply same_calls_log | apply same_calls_refl]. }
    intros _. apply same_calls_bind; [apply same_calls_log|]. intros _.
    apply same_calls_for_each. intros t. apply same_calls_for_each. intros c.
    apply same_calls_write_channel.
Qed.

Lemma same_calls_split ua wr rq v :
  same_calls (split_lif_to_channels ua wr (with_verbose v rq)) (split_lif_to_channels ua wr rq).
Proof.
  unfold split_lif_to_channels.
  change (lif_path (with_verbose v rq)) with (lif_path rq).
  change (channel_names (with_verbose v rq)) with (channel_names rq).
  change (dtype (with_verbose v rq)) with (dtype rq).
  change (outdir_of (with_verbose v rq)) with (outdir_of rq).
  apply same_calls_bind; [apply same_calls_refl|]. intros ex.
  destruct (negb ex); [apply same_calls_refl|].
  apply same_calls_bind; [apply same_calls_refl|]. intros out.
  apply same_calls_bind; [apply same_calls_refl|]. intros _.
  apply same_calls_bind; [apply same_calls_refl|]. intros img.
  apply same_calls_bind; [apply same_calls_log|]. intros _.
  apply same_calls_bind; [apply same_calls_log|]. intros _.
  apply same_calls_bind.
  { destruct (truthy _); [apply same_calls_log | apply same_calls_refl]. }
  intros _. apply same_calls_bind.
  { destruct (truthy _); [apply same_calls_log | apply same_calls_refl]. }
  intros _. destruct (_ && _); [apply same_calls_refl|].
  apply same_calls_bind.
  { apply same_calls_for_each. intros scene. apply same_calls_process_scene. }
  intros written. apply same_calls_bind; [apply same_calls_log|]. intros _.
  apply same_calls_refl.
Qed.

Lemma silent_ret {A} (a : A) : silent (mret a).
Proof. by intros fs. Qed.

Lemma silent_raise {A} e : silent (raise (A:=A) e).
Proof. by intros fs. Qed.

Lemma silent_emit ev : is_call ev = true → silent (emit ev).
Proof. intros Hev fs. cbn. unfold calls. cbn. by rewrite Hev. Qed.

Lemma silent_log rq msg : verbose rq = false → silent (_log rq msg).
Proof. intros Hv fs. rewrite log_eq, Hv. done. Qed.

Lemma silent_lift {A} (r : exn + A) : silent (lift_exn r).
Proof. intros fs. by rewrite lift_exn_eq. Qed.

Lemma silent_exists p : silent (path_exists p).
Proof. by intros fs. Qed.

Lemma silent_bind {A B} (m : M A) (k : A → M B) :
  silent m → (∀ a, silent (k a)) → silent (m ≫= k).
Proof.
  intros Hm Hk fs. rewrite bind_eq.
  destruct (out_res (m fs)) as [e|a]; cbn; [apply Hm|].
  by rewrite calls_app, Hm, Hk.
Qed.

Lemma silent_for_each {A B} (l : list A) (body : A → M (list B)) :
  (∀ x, silent (body x)) → silent (for_each l body).
Proof.
  intros Hb. induction l as [|x r IH]; cbn; [apply silent_ret|].
  apply silent_bind; [apply Hb|]. intros ys.
  apply silent_bind; [apply IH|]. intros zs. apply silent_ret.
Qed.

Lemma silent_mkdir p : silent (mkdir p).
Proof. intros fs. rewrite mkdir_eq. by destruct (mkdir_from [] p fs). Qed.

Lemma silent_save wr v p b : silent (save wr v p b).
Proof. intros fs. by rewrite save_trace. Qed.

Lemma silent_get_image_data scene view sel c : silent (get_image_data scene view sel c).
Proof. intros fs. rewrite get_image_data_eq. by destruct (sv_readable view sel c). Qed.

Lemma silent_open p : silent (open_image p).
Proof. intros fs. rewrite open_image_eq. by destruct (node_at fs p) as [[|[?|]]|]. Qed.

Lemma silent_split ua wr rq :
  verbose rq = false → silent (split_lif_to_channels ua wr rq).
Proof.
  intros Hv.
  assert (∀ msg, silent (_log rq msg)) as Hlog by (intros msg; by apply silent_log).
  unfold split_lif_to_channels, process_scene, write_channel, set_scene.
  repeat first
    [ apply Hlog | apply silent_ret | apply silent_raise | apply silent_emit; reflexivity
    | apply silent_lift | apply silent_exists
    | apply silent_mkdir | apply silent_save | apply silent_get_image_data
    | apply silent_open
    | apply silent_for_each; intros ?
    | apply silent_bind; [|intros ?]
    | match goal with |- silent (if ?b then _ else _) => destruct b end ].
Qed.

(** X9. What [verbose] changes: the printing and nothing else. The same
    request with another [verbose] has the same outcome (the value or the
    exception), leaves the same file system and makes the same calls other
    than printing, in the same order; with [verbose] false nothing is
    printed at all. With [verbose] true, the last thing a run that returns
    does is to print the number of paths it returns with the output
    directory. *)
Theorem verbose_only_prints (ua : N → bool) (wr : writer) (rq : request) (v : bool) (fs : fsys) :
  out_res (split_lif_to_channels ua wr (with_verbose v rq) fs)
    = out_res (split_lif_to_channels ua wr rq fs) ∧
  out_fs (split_lif_to_channels ua wr (with_verbose v rq) fs)
    = out_fs (split_lif_to_channels ua wr rq fs) ∧
  calls (out_trace (split_lif_to_channels ua wr (with_verbose v rq) fs))
    = calls (out_trace (split_lif_to_channels ua wr rq fs)) ∧
  out_trace (split_lif_to_channels ua wr (with_verbose false rq) fs)
    = calls (out_trace (split_lif_to_channels ua wr rq fs)) ∧
  (verbose rq = true → ∀ written,
     out_res (split_lif_to_channels ua wr rq fs) = inr written →
     ∃ out, outdir_of rq = inr out ∧
       last (out_trace (split_lif_to_channels ua wr rq fs))
         = Some (EvPrint (MsgDone (length written) out))).
Proof.
  destruct (same_calls_split ua wr rq v fs) as (Hr & Hf & Hc).
  do 3 (split; [done|]). split.
  - destruct (same_calls_split ua wr rq false fs) as (_ & _ & <-).
    symmetry. by apply silent_split.
  - intros Hv written Hw.
    destruct (split_ok_inv ua wr rq fs written Hw)
      as (out & fs1 & img & header & Hout & _ & _ & _ & _ & _ & ->).
    exists out. split; [done|]. rewrite Hv, !app_assoc. apply last_snoc.
Qed.

Lemma verbose_only_prints_witness :
  ∃ out, outdir_of plain_request = inr out ∧
    last (out_trace (split_lif_to_channels no_wide accepts_all plain_request (disk two_scenes)))
      = Some (EvPrint (MsgDone 4 out)).
Proof.
  destruct (verbose_only_prints no_wide accepts_all plain_request true (disk two_scenes))
    as (_ & _ & _ & _ & H).
  apply (H eq_refl two_scenes_paths). vm_compute. reflexivity.
Defined.

(** ** What the exception of a failed run tells *)

Lemma last_app_keep {A} (t1 t2 : list A) x : last t2 = Some x → last (t1 ++ t2) = Some x.
Proof. intros H. by rewrite last_app, H. Qed.

Lemma scene_fault_app wr rq img e (fs' : fsys) t1 t2 :
  scene_fault wr rq img e fs' t2 → scene_fault wr rq img e fs' (t1 ++ t2).
Proof.
  intros [(p & v & b & Hl & H) | H].
  { left. exists p, v, b. split; [by apply last_app_keep | done]. }
  right. revert H. destruct e; cbn; try done.
  - intros (Ho & s & t & c & Hl & H). split; [done|]. exists s, t, c.
    split; [by apply last_app_keep | done].
  - intros (q & x & Hl & H). exists q, x. split; [by apply last_app_keep | done].
  - intros (q & k & x & Hl & H). exists q, k, x. split; [by apply last_app_keep | done].
  - intros (p & v & b & Hl & H). exists p, v, b. split; [by apply last_app_keep | done].
  - intros (s & t & c & Hl & H). exists s, t, c. split; [by apply last_app_keep | done].
Qed.

(** A loop that fails failed in one of its rounds. *)
Lemma for_each_fails {A B : Type} (L : path) (I : fsys → Prop)
    (E : exn → fsys → list event → Prop) (body : A → M (list B)) (l : list A) :
  (∀ x, inflates L (body x)) →
  (∀ fs F, I fs → ext L fs F → I F) →
  (∀ e fs' t1 t2, E e fs' t2 → E e fs' (t1 ++ t2)) →
  (∀ x fs e, x ∈ l → I fs → out_res (body x fs) = inl e →
     E e (out_fs (body x fs)) (out_trace (body x fs))) →
  ∀ fs e, I fs → out_res (for_each l body fs) = inl e →
    E e (out_fs (for_each l body fs)) (out_trace (for_each l body fs)).
Proof.
  intros Hi Hmono Hpre. induction l as [|x r IH]; intros Hb fs e HI; [done|].
  cbn [for_each]. rewrite bind_eq.
  destruct (out_res (body x fs)) as [e0|ys] eqn:Hx; cbn.
  { intros [= <-]. apply Hb; [apply list_elem_of_here | done..]. }
  rewrite bind_eq.
  destruct (out_res (for_each r body (out_fs (body x fs)))) as [e1|zs] eqn:Hr; cbn; [|done].
  intros [= <-]. apply Hpre. apply IH; [| |done].
  - intros y fs0 e0 Hy. apply Hb. by apply list_elem_of_further.
  - eapply Hmono; [exact HI | apply Hi].
Qed.

(** Why the creation of a directory fails: a file is in the way, at the
    directory itself or above it. *)
Lemma mkdir_from_fails d todo (fs : fsys) e :
  mkdir_from d todo fs = inl e →
  (e = FileExistsError ∧ ∃ x, fs !! (d ++ todo) = Some (File x)) ∨
  (e = NotADirectoryError ∧
   ∃ k x, 0 < k < length todo ∧ fs !! (d ++ take k todo) = Some (File x)).
Proof.
  revert d fs. induction todo as [|y r IH]; intros d fs; cbn; [done|].
  destruct (fs !! (d ++ [y])) as [[|x]|] eqn:Hq.
  - intros H. destruct (IH _ _ H) as [(-> & x & Hx) | (-> & k & x & Hk & Hx)].
    + left. split; [done|]. exists x. by rewrite <- app_assoc in Hx.
    + right. split; [done|]. exists (S k), x. split; [lia|].
      by rewrite <- app_assoc in Hx.
  - destruct r as [|z r]; intros [= <-].
    + left. split; [done|]. by exists x.
    + right. split; [done|]. exists 1, x. split; [cbn; lia|]. exact Hq.
  - intros H.
    assert (∀ (q : path) x, <[d ++ [y] := Dir]> fs !! q = Some (File x) →
                            fs !! q = Some (File x)) as Hins.
    { intros q x. destruct (decide (d ++ [y] = q)) as [<-|Hne].
      - by rewrite lookup_insert_eq.
      - by rewrite lookup_insert_ne. }
    destruct (IH _ _ H) as [(-> & x & Hx) | (-> & k & x & Hk & Hx)].
    + left. split; [done|]. exists x. apply Hins in Hx. by rewrite <- app_assoc in Hx.
    + right. split; [done|]. exists (S k), x. split; [lia|].
      apply Hins in Hx. by rewrite <- app_assoc in Hx.
Qed.

Lemma mkdir_fault wr rq img (q : path) (fs : fsys) e hd :
  mkdir_from [] q fs = inl e →
  scene_fault wr rq img e fs (hd ++ [EvMkdir q]).
Proof.
  intros H. right.
  destruct (mkdir_from_fails _ _ _ _ H) as [(-> & x & Hx) | (-> & k & x & Hk & Hx)];
    cbn in *.
  - exists q, x. by rewrite last_snoc.
  - exists q, k, x. by rewrite last_snoc.
Qed.

(** A write whose parent directory exists fails when the writer rejects
    it, or on a directory at its path; the file system is as it was. *)
Lemma save_fails wr v (p : path) b (fs : fsys) e :
  p ≠ [] → node_at fs (path_parent p) = Some Dir →
  out_res (save wr v p b fs) = inl e →
  (wr p v b = Some e ∨ (e = IsADirectoryError ∧ fs !! p = Some Dir)) ∧
  out_fs (save wr v p b fs) = fs.
Proof.
  intros Hne Hpar. rewrite save_eq, Hpar.
  destruct (wr p v b) as [e'|]; cbn; [intros [= <-]; by split; [left|]|].
  assert (node_at fs p = fs !! p) as -> by (by destruct p).
  destruct (fs !! p) as [[|?]|]; cbn; [|done..]. intros [= <-]. by split; [right|].
Qed.

Lemma ch_part_fails ua rq meta nC c e :
  c < nC →
  ch_part ua (resolve_names (override_of (channel_names rq)) meta nC) c = inl e →
  e = IndexError ∧ override_of (channel_names rq) = None ∧
  resolve_names (override_of (channel_names rq)) meta nC ≠ [] ∧
  length (resolve_names (override_of (channel_names rq)) meta nC) ≤ c.
Proof.
  intros Hc Hf. split; [by eapply ch_part_exn|].
  split.
  - destruct (override_of (channel_names rq)) as [ov|] eqn:Hov; [|done].
    apply override_of_Some in Hov as [_ Hne]. destruct ov as [|x l]; [done|].
    destruct (ch_part_override ua x l meta nC c Hc) as (part & Hp). congruence.
  - unfold ch_part in Hf.
    destruct (resolve_names (override_of (channel_names rq)) meta nC) as [|n0 names];
      [done|].
    split; [done|].
    destruct ((n0 :: names) !! c) as [[[|x n]|]|] eqn:Hl; try done.
    by apply lookup_ge_None.
Qed.

Lemma write_channel_fails ua wr rq img scene (d : path) t c (fs : fsys) e :
  c < size_of (img_view img scene) label_C →
  fs !! d = Some Dir →
  out_res (write_channel ua wr rq scene d (img_view img scene)
             (_dim_labels (sv_dims (img_view img scene)))
             (scene_names_of rq img scene) t c fs) = inl e →
  scene_fault wr rq img e
    (out_fs (write_channel ua wr rq scene d (img_view img scene)
               (_dim_labels (sv_dims (img_view img scene)))
               (scene_names_of rq img scene) t c fs))
    (out_trace (write_channel ua wr rq scene d (img_view img scene)
                  (_dim_labels (sv_dims (img_view img scene)))
                  (scene_names_of rq img scene) t c fs)).
Proof.
  intros Hc Hd. rewrite write_channel_eq. cbv zeta.
  destruct (sv_readable (img_view img scene) _ c) eqn:Hread; cbn; cycle 1.
  { intros [= <-]. right. cbn. eauto. }
  destruct (ch_part ua (scene_names_of rq img scene) c) as [e0|part] eqn:Hpart; cbn.
  { intros [= <-]. destruct (ch_part_fails _ _ _ _ _ _ Hc Hpart) as (-> & Hov & Hne & Hlen).
    right. cbn. split; [done|]. eexists _, _, _. split; [done|]. split; [done|].
    split; done. }
  destruct (out_res (save _ _ _ _ fs)) as [e0|[]] eqn:Hs; cbn; [|done].
  intros [= <-].
  apply save_fails in Hs as ([Hw | (-> & Hp)] & Hfs);
    [| |by destruct d|rewrite path_parent_snoc; by destruct d].
  - left. eexists _, _, _. rewrite save_trace. split; [done|]. exact Hw.
  - right. rewrite Hfs. cbn. eexists _, _, _. rewrite save_trace. split; [done|].
    exact Hp.
Qed.

Lemma process_scene_fails ua wr rq img out scene (fs : fsys) e :
  out_res (process_scene ua wr rq img out
             (names_or (sv_channel_names (img_view img (img_first img))) None)
             (override_of (channel_names rq)) scene fs) = inl e →
  scene_fault wr rq img e
    (out_fs (process_scene ua wr rq img out
               (names_or (sv_channel_names (img_view img (img_first img))) None)
               (override_of (channel_names rq)) scene fs))
    (out_trace (process_scene ua wr rq img out
                  (names_or (sv_channel_names (img_view img (img_first img))) None)
                  (override_of (channel_names rq)) scene fs)).
Proof.
  destruct (skipped rq (img_view img scene)) eqn:Hs.
  - destruct (process_scene_start ua wr rq img out
                (names_or (sv_channel_names (img_view img (img_first img))) None)
                (override_of (channel_names rq)) scene fs)
      as (rest & _ & Hrest & ->).
    rewrite (Hrest Hs).
    destruct (mkdir_from [] (scene_dir_of ua out scene) fs) as [e0|fs'] eqn:Hmk; cbn.
    + intros [= <-]. by apply (mkdir_fault wr rq img _ fs e0 [EvSetScene scene]).
    + by rewrite skip_eq.
  - destruct (process_scene_run ua wr rq img out
                (names_or (sv_channel_names (img_view img (img_first img))) None)
                (override_of (channel_names rq)) scene fs Hs)
      as (hdr & Hhdr & ->).
    destruct (mkdir_from [] (scene_dir_of ua out scene) fs) as [e0|fs'] eqn:Hmk; cbn.
    + intros [= <-]. by apply (mkdir_fault wr rq img _ fs e0 [EvSetScene scene]).
    + intros Hf.
      apply (scene_fault_app wr rq img e _
               (EvSetScene scene :: EvMkdir (scene_dir_of ua out scene) :: hdr)).
      revert Hf.
      apply (for_each_fails (lif_path rq)
               (λ fs0, fs0 !! scene_dir_of ua out scene = Some Dir)
               (scene_fault wr rq img)).
      * intros t. inflate.
      * intros fs0 F H0 HF. apply (HF _ _ H0). by left.
      * intros e0 fs0 t1 t2. apply scene_fault_app.
      * intros t fs0 e0 _ H0.
        apply (for_each_fails (lif_path rq)
                 (λ fs0, fs0 !! scene_dir_of ua out scene = Some Dir)
                 (scene_fault wr rq img)); [| | | |exact H0].
        -- intros c. inflate.
        -- intros fs1 F H1 HF. apply (HF _ _ H1). by left.
        -- intros e1 fs1 t1 t2. apply scene_fault_app.
        -- intros c fs1 e1 Hc H1. apply elem_of_seq in Hc.
           apply write_channel_fails; [lia | done].
      * pose proof (mkdir_from_target _ _ _ Hmk) as Ht.
        unfold scene_dir_of in *. by destruct out.
Qed.

Lemma split_unopened ua wr rq (fs fs1 : fsys) out :
  is_Some (node_at fs (lif_path rq)) →
  outdir_of rq = inr out →
  mkdir_from [] out fs = inr fs1 →
  (∀ img, node_at fs1 (lif_path rq) ≠ Some (File (Some img))) →
  split_lif_to_channels ua wr rq fs =
    Outcome (inl ReaderError) fs1 [EvMkdir out; EvOpen (lif_path rq)].
Proof.
  intros Hex Hout Hmk Hno. unfold split_lif_to_channels.
  rewrite path_exists_bind, bool_decide_eq_true_2 by done.
  cbv beta iota delta [negb].
  rewrite bind_eq, lift_exn_eq, Hout. cbn.
  rewrite bind_eq, mkdir_eq, Hmk. cbn.
  rewrite bind_eq, open_image_eq.
  destruct (node_at fs1 (lif_path rq)) as [[|[img|]]|] eqn:Himg; cbn; try done.
  by destruct (Hno img).
Qed.

Lemma outdir_of_fails rq e :
  outdir_of rq = inl e →
  e = ValueError ∧ outdir rq = None ∧ path_name (lif_path rq) = [].
Proof.
  unfold outdir_of, default_outdir. destruct (outdir rq); [done|].
  destruct (path_name (lif_path rq)); [|done]. by intros [= <-].
Qed.

Lemma container_before (fs fs1 : fsys) (L out : path) img :
  mkdir_from [] out fs = inr fs1 →
  node_at fs1 L = Some (File (Some img)) → node_at fs L = Some (File (Some img)).
Proof.
  intros Hmk. destruct L as [|x r]; [done|]. cbn. by eapply mkdir_from_files.
Qed.

Lemma container_after (fs fs1 : fsys) (L out : path) img :
  mkdir_from [] out fs = inr fs1 →
  node_at fs L = Some (File (Some img)) → node_at fs1 L = Some (File (Some img)).
Proof.
  intros Hmk. destruct L as [|x r]; [done|]. cbn. intros Hn.
  eapply lookup_weaken; [exact Hn|]. by eapply mkdir_from_subseteq.
Qed.

Lemma scenes_fault ua wr rq img out (fs1 : fsys) e header :
  out_res (for_each (img_scenes img)
             (process_scene ua wr rq img out
                (names_or (sv_channel_names (img_view img (img_first img))) None)
                (override_of (channel_names rq))) fs1) = inl e →
  scene_fault wr rq img e
    (out_fs (for_each (img_scenes img)
               (process_scene ua wr rq img out
                  (names_or (sv_channel_names (img_view img (img_first img))) None)
                  (override_of (channel_names rq))) fs1))
    (header ++ out_trace (for_each (img_scenes img)
               (process_scene ua wr rq img out
                  (names_or (sv_channel_names (img_view img (img_first img))) None)
                  (override_of (channel_names rq))) fs1)).
Proof.
  intros Hl. apply scene_fault_app.
  apply (for_each_fails (lif_path rq) (λ _, True) (scene_fault wr rq img));
    [| | | |done|exact Hl].
  - intros scene. inflate.
  - done.
  - intros e1 fs0 t1 t2. apply scene_fault_app.
  - intros scene fs0 e1 _ _. apply process_scene_fails.
Qed.

Lemma fault_failure wr rq (fs : fsys) img e (fs' : fsys) tr :
  node_at fs (lif_path rq) = Some (File (Some img)) →
  scene_fault wr rq img e fs' tr → failure wr rq fs e fs' tr.
Proof.
  intros Himg [H | H]; [by left|]. right. revert H.
  destruct e; cbn; try done; eauto.
Qed.

Lemma split_failure ua wr rq (fs : fsys) e :
  out_res (split_lif_to_channels ua wr rq fs) = inl e →
  failure wr rq fs e (out_fs (split_lif_to_channels ua wr rq fs))
    (out_trace (split_lif_to_channels ua wr rq fs)).
Proof.
  destruct (split_early ua wr rq fs)
    as [[Hex ->] | [(e' & Hex & Hout & ->) | [(out & e' & Hout & Hmk & ->) |
        [(out & fs1 & e' & Hout & Hmk & Himg & Hrun) |
         (out & fs1 & img & Hex & Hout & Hmk & Himg)]]]].
  - intros [= <-]. right. by cbn.
  - intros [= <-]. cbn. destruct (outdir_of_fails rq e' Hout) as (-> & Ho & Hn).
    right. cbn. by left.
  - intros [= <-]. cbn. right.
    destruct (mkdir_from_fails _ _ _ _ Hmk) as [(-> & x & Hx) | (-> & k & x & Hk & Hx)];
      cbn in *; eauto 10.
  - assert (is_Some (node_at fs (lif_path rq))) as Hex.
    { destruct (node_at fs (lif_path rq)) eqn:Hn; [done|].
      rewrite (split_missing ua wr rq fs Hn) in Hrun. done. }
    assert (∀ img, node_at fs1 (lif_path rq) ≠ Some (File (Some img))) as Hno.
    { intros img. destruct Himg as [-> | [-> | ->]]; done. }
    rewrite (split_unopened ua wr rq fs fs1 out Hex Hout Hmk Hno).
    intros [= <-]. cbn. right. left. split; [done|].
    intros img Hn. by apply (Hno img), (container_after fs fs1 _ out).
  - destruct (split_opened rq fs out fs1 img Hex Hout Hmk Himg)
      as (header & Hcalls & Hsaved & Hrun).
    pose proof (container_before fs fs1 _ out img Hmk Himg) as Himg0.
    unfold split_lif_to_channels. rewrite Hrun. cbn.
    destruct (bool_decide (dtype rq ≠ lit "native")) eqn:Hd1;
      [destruct (bool_decide (dtype rq ∉ dtype_map)) eqn:Hd2|]; cbn.
    + intros [= <-]. cbn. right. right.
      apply bool_decide_eq_true in Hd1. apply bool_decide_eq_true in Hd2.
      split; [done|]. split; [done|]. exists out. by rewrite app_nil_r.
    + rewrite bind_eq.
      destruct (out_res (for_each _ _ fs1)) as [e0|l] eqn:Hl; cbn;
        [|by rewrite log_bind].
      intros [= <-].
      apply (fault_failure wr rq fs img); [done|]. by apply scenes_fault.
    + rewrite bind_eq.
      destruct (out_res (for_each _ _ fs1)) as [e0|l] eqn:Hl; cbn;
        [|by rewrite log_bind].
      intros [= <-].
      apply (fault_failure wr rq fs img); [done|]. by apply scenes_fault.
Qed.

(** X10. What the exception of a failed run tells; in every case the
    last call of the run is the one that failed. Whatever the exception,
    the external writer may have raised it, rejecting the last write of
    the run: so it is for the validation error, a ValueError, on a volume
    of Z size 0 kept by [include_empty], and for the OSError on a name
    that is too long. When the writer did not raise it, the exception is
    one of these. FileNotFoundError: nothing exists at the input path, and
    nothing was done. ValueError: either no output directory was given and
    the input path has no name (nothing was done), or [dtype] is not an
    accepted one (the output directory was made and the container
    opened). FileExistsError and NotADirectoryError: a file is at the
    directory to be made, or above it. ReaderError: the input could not be
    opened as a container, or a volume could not be read. IndexError: no
    override is in effect and the names of the scene are a non-empty list
    with no entry for a channel of the scene. IsADirectoryError: a
    directory is at the path of an output file. *)
Theorem failure_causes (ua : N → bool) (wr : writer) (rq : request) (fs : fsys) (e : exn) :
  out_res (split_lif_to_channels ua wr rq fs) = inl e →
  failure wr rq fs e (out_fs (split_lif_to_channels ua wr rq fs))
    (out_trace (split_lif_to_channels ua wr rq fs)).
Proof. apply split_failure. Qed.

Lemma failure_causes_witness :
  failure accepts_all plain_request (disk fallback_names) IndexError
    (out_fs (split_lif_to_channels no_wide accepts_all plain_request (disk fallback_names)))
    (out_trace (split_lif_to_channels no_wide accepts_all plain_request (disk fallback_names))) ∧
  failure rejects_flat keep_empty_request (disk flat_scene) ValueError
    (out_fs (split_lif_to_channels no_wide rejects_flat keep_empty_request (disk flat_scene)))
    (out_trace (split_lif_to_channels no_wide rejects_flat keep_empty_request
                  (disk flat_scene))).
Proof.
  split.
  - apply (failure_causes no_wide accepts_all plain_request (disk fallback_names) IndexError).
    vm_compute. reflexivity.
  - apply (failure_causes no_wide rejects_flat keep_empty_request (disk flat_scene)
             ValueError).
    vm_compute. reflexivity.
Defined.

(** ** Files written before a failure *)

Lemma settled_quiet {A} (m : M A) :
  (∀ fs, saved_paths (out_trace (m fs)) = []) → settled m.
Proof. intros H fs. rewrite H. constructor. Qed.

Lemma settled_bind {A B} (L : path) (m : M A) (k : A → M B) :
  settled m → (∀ a, inflates L (k a)) → (∀ a, settled (k a)) → settled (m ≫= k).
Proof.
  intros Hm Hi Hk fs. rewrite bind_eq.
  destruct (out_res (m fs)) as [e|a] eqn:Hr; cbn.
  { eapply Forall_impl; [apply Hm|]. intros p [Hp | [_ Hp]]; [by left|].
    right. split; [by exists e | done]. }
  rewrite saved_paths_app. apply Forall_app. split.
  - eapply Forall_impl; [apply Hm|]. intros p [Hp | [[e He] _]]; [|congruence].
    left. eapply written_kept; [exact Hp | apply Hi].
  - eapply Forall_impl; [apply Hk|]. intros p [Hp | [He (v & b & Hl)]]; [by left|].
    right. split; [done|]. exists v, b. by apply last_app_keep.
Qed.

Lemma settled_for_each {A B} (L : path) (l : list A) (body : A → M (list B)) :
  (∀ x, inflates L (body x)) → (∀ x, settled (body x)) → settled (for_each l body).
Proof.
  intros Hi Hb. induction l as [|x r IH]; cbn; [by apply settled_quiet|].
  apply (settled_bind L); [apply Hb | |].
  { intros ys. apply inflates_bind; [by apply inflates_for_each|].
    intros zs. apply inflates_ret. }
  intros ys. apply (settled_bind L); [apply IH | intros zs; apply inflates_ret |].
  intros zs. by apply settled_quiet.
Qed.

Lemma settled_save wr v (p : path) b : settled (save wr v p b).
Proof.
  intros fs. rewrite save_trace. cbn. constructor; [|constructor].
  rewrite save_eq. destruct (wr p v b) as [e|]; cbn; [right; eauto|].
  destruct (node_at fs p) as [[|?]|]; cbn; [right; eauto| |];
    (destruct (node_at fs (path_parent p)) as [[|?]|]; cbn;
       [left; apply lookup_insert_eq | right; eauto | right; eauto]).
Qed.

Lemma settled_log rq msg : settled (_log rq msg).
Proof. apply settled_quiet. intros fs. rewrite log_eq. by destruct (verbose rq). Qed.

Lemma settled_mkdir p : settled (mkdir p).
Proof. apply settled_quiet. intros fs. rewrite mkdir_eq. by destruct (mkdir_from [] p fs). Qed.

Lemma settled_write_channel ua wr rq scene scene_dir view labels names t c :
  settled (write_channel ua wr rq scene scene_dir view labels names t c).
Proof.
  unfold write_channel.
  apply (settled_bind (lif_path rq)).
  { apply settled_quiet. intros fs. rewrite get_image_data_eq.
    by destruct (sv_readable view _ c). }
  { intros zyx. apply inflates_bind; [apply inflates_lift|]. intros part.
    apply inflates_bind; [apply inflates_save, out_path_ne|]. intros _. inflate. }
  intros zyx. apply (settled_bind (lif_path rq)).
  { apply settled_quiet. intros fs. by rewrite lift_exn_eq. }
  { intros part. apply inflates_bind; [apply inflates_save, out_path_ne|].
    intros _. inflate. }
  intros part. apply (settled_bind (lif_path rq)); [apply settled_save | intros _; inflate |].
  intros _. apply (settled_bind (lif_path rq)); [apply settled_log | intros _; inflate |].
  intros _. by apply settled_quiet.
Qed.

Lemma settled_process_scene ua wr rq img out base ov scene :
  settled (process_scene ua wr rq img out base ov scene).
Proof.
  unfold process_scene, set_scene.
  apply (settled_bind (lif_path rq)); [by apply settled_quiet | intros _; inflate |].
  intros _.
  apply (settled_bind (lif_path rq)); [apply settled_mkdir | intros _; inflate |].
  intros _.
  match goal with |- context [if ?b then _ else _] => destruct b end.
  - apply (settled_bind (lif_path rq)); [apply settled_log | intros _; inflate |].
    intros _. by apply settled_quiet.
  - apply (settled_bind (lif_path rq)); [apply settled_log | intros _; inflate |].
    intros _. apply (settled_bind (lif_path rq)); [|intros _; inflate|].
    { match goal with |- context [if ?b then _ else _] => destruct b end;
        [apply settled_log | by apply settled_quiet]. }
    intros _.
    apply (settled_bind (lif_path rq)); [apply settled_log | intros _; inflate |].
    intros _.
    apply (settled_for_each (lif_path rq)); [intros t; inflate|]. intros t.
    apply (settled_for_each (lif_path rq)); [intros c; inflate|]. intros c.
    apply settled_write_channel.
Qed.

Lemma settled_split ua wr rq : settled (split_lif_to_channels ua wr rq).
Proof.
  unfold split_lif_to_channels.
  apply (settled_bind (lif_path rq)); [by apply settled_quiet | intros ex; inflate |].
  intros ex. destruct (negb ex); [by apply settled_quiet|].
  apply (settled_bind (lif_path rq)); [|intros out; inflate|].
  { apply settled_quiet. intros fs. by rewrite lift_exn_eq. }
  intros out.
  apply (settled_bind (lif_path rq)); [apply settled_mkdir | intros _; inflate |].
  intros _. apply (settled_bind (lif_path rq)); [|intros img; inflate|].
  { apply settled_quiet. intros fs. rewrite open_image_eq.
    by destruct (node_at fs (lif_path rq)) as [[|[?|]]|]. }
  intros img.
  apply (settled_bind (lif_path rq)); [apply settled_log | intros _; inflate |].
  intros _.
  apply (settled_bind (lif_path rq)); [apply settled_log | intros _; inflate |].
  intros _. apply (settled_bind (lif_path rq)); [|intros _; inflate|].
  { destruct (truthy _); [apply settled_log | by apply settled_quiet]. }
  intros _. apply (settled_bind (lif_path rq)); [|intros _; inflate|].
  { destruct (truthy _); [apply settled_log | by apply settled_quiet]. }
  intros _. destruct (_ && _); [by apply settled_quiet|].
  apply (settled_bind (lif_path rq)); [|intros written; inflate|].
  { apply (settled_for_each (lif_path rq)); [intros scene; inflate|].
    intros scene. apply settled_process_scene. }
  intros written.
  apply (settled_bind (lif_path rq)); [apply settled_log | intros _; inflate |].
  intros _. by apply settled_quiet.
Qed.

Lemma calls_last_save tr p v b :
  last tr = Some (EvSave p v b) → last (calls tr) = Some (EvSave p v b).
Proof.
  intros H. apply last_Some in H as [tr' ->].
  rewrite calls_app. cbn. apply last_snoc.
Qed.

Lemma failed_save wr rq (fs fs' : fsys) e tr p v b :
  failure wr rq fs e fs' tr → last tr = Some (EvSave p v b) →
  wr p v b = Some e ∨ (e = IsADirectoryError ∧ fs' !! p = Some Dir).
Proof.
  intros [(p' & v' & b' & Hl' & Hw) | Hf] Hl; [left; congruence|]. right.
  destruct e; cbn in Hf.
  - destruct Hf as (_ & -> & _). done.
  - destruct Hf as [(_ & _ & -> & _) | (_ & _ & out & Hc)]; [done|].
    apply calls_last_save in Hl. rewrite Hc in Hl. done.
  - destruct Hf as (img & _ & _ & s & t & c & Hl' & _). congruence.
  - destruct Hf as (q & x & Hl' & _). congruence.
  - destruct Hf as (q & k & x & Hl' & _). congruence.
  - destruct Hf as (p' & v' & b' & Hl' & Hd). split; [done|]. congruence.
  - done.
  - destruct Hf as [[Hl' _] | (img & _ & s & t & c & Hl' & _)]; congruence.
Qed.

(** X11. Nothing is rolled back. When a run ends, whether it returns or
    fails, every path that was handed to the writer holds a written file;
    the one exception is the write that made the run fail, which is then
    the last call of the run: either the writer rejected it and raised the
    exception of the run, whatever that is and whatever is at the path,
    or the run raised IsADirectoryError and a directory is at the path. *)
Theorem partial_output_stays (ua : N → bool) (wr : writer) (rq : request) (fs : fsys) :
  Forall (λ p,
      out_fs (split_lif_to_channels ua wr rq fs) !! p = Some (File None) ∨
      ∃ e v b,
        out_res (split_lif_to_channels ua wr rq fs) = inl e ∧
        last (out_trace (split_lif_to_channels ua wr rq fs)) = Some (EvSave p v b) ∧
        (wr p v b = Some e ∨
         (e = IsADirectoryError ∧
          out_fs (split_lif_to_channels ua wr rq fs) !! p = Some Dir)))
    (saved_paths (out_trace (split_lif_to_channels ua wr rq fs))).
Proof.
  eapply Forall_impl; [apply settled_split|].
  intros p [Hp | [[e He] (v & b & Hl)]]; [by left|]. right.
  exists e, v, b. split; [done|]. split; [done|].
  exact (failed_save wr rq fs _ e _ p v b (split_failure ua wr rq fs e He) Hl).
Qed.

(** ** Scenes without channels or timepoints *)

Lemma for_each_idle {A B} (l : list A) (body : A → M (list B)) (fs : fsys) :
  (∀ x fs, body x fs = Outcome (inr []) fs []) →
  for_each l body fs = Outcome (inr []) fs [].
Proof.
  intros Hb. induction l as [|x r IH]; [done|].
  cbn [for_each]. rewrite bind_eq, Hb. cbn. rewrite bind_eq, IH. done.
Qed.

(** X12. A scene with no channel or no timepoint yields no file, also
    with [include_empty]: it hands nothing to the writer, leaves every
    file as it was and, unless its directory cannot be made, contributes
    the empty list. So [include_empty] matters only for a scene with
    channels and Z = 0. *)
Theorem no_channel_no_file (ua : N → bool) (wr : writer) (rq : request) (img : image)
    (out : path) (base ov : option (list str)) (scene : str) (fs : fsys) :
  size_of (img_view img scene) label_C = 0 ∨ size_of (img_view img scene) label_T = 0 →
  saved_paths (out_trace (process_scene ua wr rq img out base ov scene fs)) = [] ∧
  (∀ p x, out_fs (process_scene ua wr rq img out base ov scene fs) !! p = Some (File x)
          ↔ fs !! p = Some (File x)) ∧
  match mkdir_from [] (scene_dir_of ua out scene) fs with
  | inl e => out_res (process_scene ua wr rq img out base ov scene fs) = inl e
  | inr _ => out_res (process_scene ua wr rq img out base ov scene fs) = inr []
  end.
Proof.
  intros Hz.
  assert (∀ fs', mkdir_from [] (scene_dir_of ua out scene) fs = inr fs' →
            ∀ p x, fs' !! p = Some (File x) ↔ fs !! p = Some (File x)) as Hfiles.
  { intros fs' Hmk p x. split; [by eapply mkdir_from_files|].
    intros Hp. eapply lookup_weaken; [exact Hp|]. by eapply mkdir_from_subseteq. }
  destruct (skipped rq (img_view img scene)) eqn:Hs.
  - destruct (process_scene_start ua wr rq img out base ov scene fs)
      as (rest & _ & Hrest & ->).
    rewrite (Hrest Hs).
    destruct (mkdir_from [] (scene_dir_of ua out scene) fs) as [e|fs'] eqn:Hmk; cbn;
      [done|].
    rewrite skip_eq. cbn. split; [by destruct (verbose rq)|]. split; [|done].
    by apply Hfiles.
  - destruct (process_scene_run ua wr rq img out base ov scene fs Hs)
      as (hdr & Hhdr & ->).
    destruct (mkdir_from [] (scene_dir_of ua out scene) fs) as [e|fs'] eqn:Hmk; cbn;
      [done|].
    assert (for_each (seq 0 (size_of (img_view img scene) label_T)) (λ t,
              for_each (seq 0 (size_of (img_view img scene) label_C)) (λ c,
                write_channel ua wr rq scene (scene_dir_of ua out scene)
                  (img_view img scene) (_dim_labels (sv_dims (img_view img scene)))
                  (resolve_names ov
                     (names_or (sv_channel_names (img_view img scene)) base)
                     (size_of (img_view img scene) label_C)) t c)) fs'
            = Outcome (inr []) fs' []) as ->.
    { destruct Hz as [-> | ->]; [|done].
      apply for_each_idle. by intros t fs0. }
    cbn. rewrite saved_paths_app, Hhdr. split; [done|]. split; [|done].
    by apply Hfiles.
Qed.

Lemma no_channel_no_file_witness :
  saved_paths (out_trace (process_scene no_wide accepts_all
     (Request sample_lif None false (lit "native") true true None)
     with_empty export_dir None None (lit "E") (disk with_empty))) = [] ∧
  (∀ p x, out_fs (process_scene no_wide accepts_all
             (Request sample_lif None false (lit "native") true true None)
             with_empty export_dir None None (lit "E") (disk with_empty)) !! p
            = Some (File x)
          ↔ disk with_empty !! p = Some (File x)) ∧
  out_res (process_scene no_wide accepts_all
     (Request sample_lif None false (lit "native") true true None)
     with_empty export_dir None None (lit "E") (disk with_empty)) = inr [].
Proof.
  pose proof (no_channel_no_file no_wide accepts_all
                (Request sample_lif None false (lit "native") true true None)
                with_empty export_dir None None (lit "E") (disk with_empty)
                (or_introl eq_refl)) as (H1 & H2 & H3).
  split; [exact H1|]. split; [exact H2|]. exact H3.
Defined.

(** ** The command line *)

Lemma main_eq ua wr args (fs : fsys) :
  main ua wr args fs =
  Outcome (match out_res (split_lif_to_channels ua wr (main_request args) fs) with
           | inl e => inl e
           | inr _ => inr ()
           end)
          (out_fs (split_lif_to_channels ua wr (main_request args) fs))
          (out_trace (split_lif_to_channels ua wr (main_request args) fs)).
Proof.
  unfold main. rewrite bind_eq.
  destruct (out_res (split_lif_to_channels ua wr (main_request args) fs)); cbn; [done|].
  by rewrite app_nil_r.
Qed.

Lemma dtype_name_accepted d : dtype_name d = lit "native" ∨ dtype_name d ∈ dtype_map.
Proof.
  destruct d; [by left|right..]; apply (bool_decide_unpack _); vm_compute; exact I.
Qed.

Lemma stripped_nonempty l : Forall (λ s, s ≠ []) (stripped l).
Proof.
  unfold stripped. apply Forall_forall. intros s Hin.
  by apply list_elem_of_filter in Hin as [Hne _].
Qed.

Lemma normalize_nonempty arg_list names :
  _normalize_cli_names arg_list = Some names → Forall (λ s, s ≠ []) names.
Proof.
  unfold _normalize_cli_names.
  destruct arg_list as [[|s [|s' l]]|]; [done| |by intros [= <-]; apply stripped_nonempty|done].
  case_bool_decide; intros [= <-]; apply stripped_nonempty.
Qed.

(** X13. The command line. [main] makes the call of the exporter with
    [verbose] the negation of [--quiet] and the normalised names, and
    drops the list it returns: the outcome, the file system and the calls
    are those of that call. As the parser accepts the listed values of
    [--dtype] only, the exporter itself raises ValueError only for an input
    path without a name when [--outdir] is absent, before anything is
    done; any other ValueError is the writer's, raised as it rejected the
    last write of the run, as it does for a volume of Z size 0 kept by
    [--include-empty]. The names of [--channel-names] are an override
    exactly when the normalised list is not empty; each of them then names
    its channel, as none is empty, so that the channel part is [_ch-] with
    the sanitised name; and an IndexError of the run is then the writer's
    too. With [--quiet] nothing is printed. *)
Theorem main_command_line (ua : N → bool) (wr : writer) (args : namespace) (fs : fsys) :
  (out_fs (main ua wr args fs) = out_fs (split_lif_to_channels ua wr (main_request args) fs) ∧
   out_trace (main ua wr args fs)
     = out_trace (split_lif_to_channels ua wr (main_request args) fs) ∧
   (∀ e, out_res (main ua wr args fs) = inl e ↔
         out_res (split_lif_to_channels ua wr (main_request args) fs) = inl e)) ∧
  (out_res (main ua wr args fs) = inl ValueError →
   (ns_outdir args = None ∧ path_name (ns_lif_path args) = [] ∧
    out_trace (main ua wr args fs) = [] ∧ out_fs (main ua wr args fs) = fs) ∨
   rejected wr ValueError (out_trace (main ua wr args fs))) ∧
  (∀ names, _normalize_cli_names (ns_channel_names args) = Some names → names ≠ [] →
     override_of (channel_names (main_request args)) = Some names ∧
     (out_res (main ua wr args fs) = inl IndexError →
      rejected wr IndexError (out_trace (main ua wr args fs))) ∧
     ∀ meta nC c name, c < nC → names !! c = Some name →
       ch_part ua (resolve_names (Some names) meta nC) c
         = inr (lit "_ch-" ++ _safe ua name)) ∧
  (_normalize_cli_names (ns_channel_names args) = None ∨
   _normalize_cli_names (ns_channel_names args) = Some [] →
   override_of (channel_names (main_request args)) = None) ∧
  (ns_quiet args = true → calls (out_trace (main ua wr args fs)) = out_trace (main ua wr args fs)).
Proof.
  rewrite main_eq. cbn [out_res out_fs out_trace].
  split; [|split; [|split; [|split]]].
  - split; [done|]. split; [done|]. intros e.
    destruct (out_res (split_lif_to_channels ua wr (main_request args) fs)); split; congruence.
  - intros He.
    assert (out_res (split_lif_to_channels ua wr (main_request args) fs) = inl ValueError)
      as Hv by (destruct (out_res (split_lif_to_channels ua wr (main_request args) fs));
                congruence).
    pose proof (split_failure ua wr _ fs _ Hv) as Hf. cbn in Hf.
    destruct Hf as [Hr | [(Ho & Hn & Ht & Hfs) | (Hd1 & Hd2 & _)]];
      [by right | by left |].
    by destruct (dtype_name_accepted (ns_dtype args)).
  - intros names Hn Hne. cbn [main_request channel_names]. rewrite Hn.
    assert (override_of (Some names) = Some names) as Hov by (by destruct names).
    split; [done|]. split.
    + intros He.
      assert (out_res (split_lif_to_channels ua wr (main_request args) fs) = inl IndexError)
        as Hv by (destruct (out_res (split_lif_to_channels ua wr (main_request args) fs));
                  congruence).
      destruct (split_failure ua wr _ fs _ Hv) as [Hr | (img & _ & Hnone & _)]; [done|].
      cbn [main_request channel_names] in Hnone. rewrite Hn in Hnone. congruence.
    + intros meta nC c name Hc Hname. destruct names as [|x l]; [done|].
      rewrite (ch_part_lookup ua _ c (Some name)).
      * pose proof (normalize_nonempty _ _ Hn) as Hall.
        rewrite Forall_forall in Hall.
        assert (name ≠ []) as Hnz by (apply Hall; by eapply list_elem_of_lookup_2).
        by destruct name.
      * by rewrite resolve_override_lookup, Hname.
  - cbn [main_request channel_names]. by intros [-> | ->].
  - intros Hq. apply silent_split. cbn. by rewrite Hq.
Qed.

Lemma main_command_line_witness :
  override_of (channel_names (main_request
     (Namespace sample_lif None false Native false true (Some [lit "DAPI,GFP"]))))
    = Some [lit "DAPI"; lit "GFP"] ∧
  (out_res (main no_wide accepts_all
     (Namespace sample_lif None false Native false true (Some [lit "DAPI,GFP"]))
     (disk three_channels)) = inl IndexError →
   rejected accepts_all IndexError
     (out_trace (main no_wide accepts_all
        (Namespace sample_lif None false Native false true (Some [lit "DAPI,GFP"]))
        (disk three_channels)))) ∧
  ch_part no_wide (resolve_names (Some [lit "DAPI"; lit "GFP"]) None 3) 1
    = inr (lit "_ch-" ++ _safe no_wide (lit "GFP")).
Proof.
  destruct (main_command_line no_wide accepts_all
              (Namespace sample_lif None false Native false true (Some [lit "DAPI,GFP"]))
              (disk three_channels)) as (_ & _ & H & _).
  destruct (H [lit "DAPI"; lit "GFP"]) as (H1 & H2 & H3);
    [vm_compute; reflexivity | done |].
  split; [exact H1|]. split; [exact H2|].
  apply H3; [lia | reflexivity].
Defined.

(** ** The two ways to give names on the command line *)

(** X14. The two ways to give names on the command line agree: for a
    non-empty list of names that hold no comma, the single argument made
    of the names separated by commas is normalised to the same list as the
    names given as separate arguments. *)
Theorem cli_names_two_forms (names : list str) :
  names ≠ [] → Forall (λ s, 44%N ∉ s) names →
  split_comma (join_comma names) = names ∧
  _normalize_cli_names (Some [join_comma names]) = _normalize_cli_names (Some names).
Proof.
  intros Hne Hl. split; [by apply split_join_comma|].
  destruct names as [|s [|s' r]]; [done|done|].
  unfold _normalize_cli_names at 1.
  rewrite bool_decide_eq_true_2.
  - by rewrite split_join_comma.
  - change (join_comma (s :: s' :: r)) with (s ++ 44%N :: join_comma (s' :: r)).
    apply elem_of_app. right. apply list_elem_of_here.
Qed.

Lemma cli_names_two_forms_witness :
  split_comma (join_comma [lit "DAPI"; lit " GFP"; lit "RFP"])
    = [lit "DAPI"; lit " GFP"; lit "RFP"] ∧
  _normalize_cli_names (Some [join_comma [lit "DAPI"; lit " GFP"; lit "RFP"]])
    = _normalize_cli_names (Some [lit "DAPI"; lit " GFP"; lit "RFP"]).
Proof.
  apply (cli_names_two_forms [lit "DAPI"; lit " GFP"; lit "RFP"]).
  - done.
  - apply (bool_decide_unpack _). vm_compute. exact I.
Defined.

(** ** Names that are joined to paths *)

Lemma uint_chars_no_slash u : slash ∉ uint_chars u.
Proof.
  induction u; cbn; [apply not_elem_of_nil|..];
    (apply not_elem_of_cons; split; [done | exact IHu]).
Qed.

Lemma index_label_no_slash c : slash ∉ index_label c.
Proof.
  unfold index_label, fmt_02d. rewrite !not_elem_of_app. split; [|split].
  - apply (bool_decide_unpack _). vm_compute. exact I.
  - intros H. by apply elem_of_replicate in H as [H _].
  - apply uint_chars_no_slash.
Qed.

Lemma ch_part_no_slash ua names c part :
  ch_part ua names c = inr part → slash ∉ part.
Proof.
  assert (slash ∉ lit "_ch-") as Hch
    by (apply (bool_decide_unpack _); vm_compute; exact I).
  unfold ch_part. destruct names as [|n0 names].
  { intros ?; simplify_eq. apply index_label_no_slash. }
  destruct ((n0 :: names) !! c) as [[[|x n]|]|]; intros ?; simplify_eq;
    try apply index_label_no_slash.
  rewrite not_elem_of_app. split; [done | apply safe_no_slash].
Qed.

Lemma stem_of_no_slash name : slash ∉ name → slash ∉ stem_of name.
Proof.
  destruct (stem_of_split name) as (sfx & Hn & _). rewrite Hn at 1.
  rewrite not_elem_of_app. by intros [H _].
Qed.

(** X15. The names the exporter joins to paths are single components,
    whatever the names of the scenes and of the channels in the
    container: the name of a scene directory and, for an input whose
    name holds no separator, the name of an output file hold no
    separator and are neither empty nor [.] nor [..]. So every output
    path lies exactly two levels below the output directory. *)
Theorem output_names_single_component (ua : N → bool) (rq : request) (scene : str)
    (names : list (option str)) (c : nat) (part : str) (out : path) :
  ch_part ua names c = inr part →
  slash ∉ path_name (lif_path rq) →
  (slash ∉ lit "scene_" ++ _safe ua scene) ∧
  2 < length (lit "scene_" ++ _safe ua scene) ∧
  (slash ∉ file_name ua rq scene part) ∧
  2 < length (file_name ua rq scene part) ∧
  scene_dir_of ua out scene ++ [file_name ua rq scene part]
    = out ++ [lit "scene_" ++ _safe ua scene; file_name ua rq scene part].
Proof.
  intros Hpart Hname.
  assert (slash ∉ lit "scene_") as H1 by (apply (bool_decide_unpack _); vm_compute; exact I).
  assert (slash ∉ lit "_scene-") as H2 by (apply (bool_decide_unpack _); vm_compute; exact I).
  assert (slash ∉ lit ".ome.tif") as H3 by (apply (bool_decide_unpack _); vm_compute; exact I).
  split; [|split; [|split; [|split]]].
  - rewrite not_elem_of_app. split; [done | apply safe_no_slash].
  - rewrite length_app. change (length (lit "scene_")) with 6. lia.
  - unfold file_name. rewrite !not_elem_of_app.
    split; [by apply stem_of_no_slash|]. split; [done|].
    split; [apply safe_no_slash|]. split; [by eapply ch_part_no_slash | done].
  - unfold file_name. rewrite !length_app. change (length (lit ".ome.tif")) with 8. lia.
  - unfold scene_dir_of. by rewrite <- app_assoc.
Qed.

Lemma output_names_single_component_witness :
  (slash ∉ lit "scene_" ++ _safe no_wide (lit "../up")) ∧
  2 < length (lit "scene_" ++ _safe no_wide (lit "../up")) ∧
  (slash ∉ file_name no_wide plain_request (lit "../up") (lit "_ch-a_b")) ∧
  2 < length (file_name no_wide plain_request (lit "../up") (lit "_ch-a_b")) ∧
  scene_dir_of no_wide export_dir (lit "../up")
    ++ [file_name no_wide plain_request (lit "../up") (lit "_ch-a_b")]
    = export_dir ++ [lit "scene_" ++ _safe no_wide (lit "../up");
                     file_name no_wide plain_request (lit "../up") (lit "_ch-a_b")].
Proof.
  apply (output_names_single_component no_wide plain_request (lit "../up")
           [Some (lit "a/b")] 0 (lit "_ch-a_b") export_dir).
  - vm_compute. reflexivity.
  - apply (bool_decide_unpack _). vm_compute. exact I.
Defined.

(** ** When no file is overwritten *)

Lemma NoDup_fmap_inj {A B} (f : A → B) (l : list A) x y :
  NoDup (f <$> l) → x ∈ l → y ∈ l → f x = f y → x = y.
Proof.
  induction l as [|a l IH]; [by intros _ Hx; apply elem_of_nil in Hx|].
  rewrite fmap_cons, NoDup_cons. intros [Ha Hl] Hx Hy Hf.
  apply elem_of_cons in Hx as [->|Hx]; apply elem_of_cons in Hy as [->|Hy].
  - done.
  - destruct Ha. rewrite Hf. apply list_elem_of_fmap. by exists y.
  - destruct Ha. rewrite <- Hf. apply list_elem_of_fmap. by exists x.
  - by apply IH.
Qed.

Lemma scene_paths_elem ua rq img out scene p :
  p ∈ scene_paths ua rq img out scene →
  ∃ c, c < size_of (img_view img scene) label_C ∧ p = channel_path ua rq img out scene c.
Proof.
  unfold scene_paths. destruct (skipped rq (img_view img scene)).
  { by intros H; apply elem_of_nil in H. }
  intros H. apply list_elem_of_bind in H as (t & H & _).
  apply list_elem_of_bind in H as (c & H & Hc).
  apply list_elem_of_singleton in H. apply elem_of_seq in Hc.
  exists c. split; [lia | done].
Qed.

Lemma channel_path_eq ua rq img out scene scene' c c' :
  channel_path ua rq img out scene c = channel_path ua rq img out scene' c' →
  _safe ua scene = _safe ua scene' ∧
  chan_label ua (scene_names_of rq img scene) c
    = chan_label ua (scene_names_of rq img scene') c'.
Proof. unfold channel_path. apply out_path_eq. Qed.

Lemma chan_label_index ua cn meta nC c :
  truthy cn = false → truthy meta = false → c < nC →
  chan_label ua (resolve_names (override_of cn) meta nC) c = index_label c.
Proof.
  intros Hcn Hm Hc. unfold chan_label.
  by rewrite override_of_None, ch_part_nometa.
Qed.

Lemma scene_paths_NoDup ua rq img out scene :
  (skipped rq (img_view img scene) = false → size_of (img_view img scene) label_T ≤ 1) →
  (∀ c c', c < size_of (img_view img scene) label_C →
           c' < size_of (img_view img scene) label_C →
           chan_label ua (scene_names_of rq img scene) c
             = chan_label ua (scene_names_of rq img scene) c' → c = c') →
  NoDup (scene_paths ua rq img out scene).
Proof.
  intros HT Hinj. unfold scene_paths.
  destruct (skipped rq (img_view img scene)); [constructor|].
  specialize (HT eq_refl).
  destruct (size_of (img_view img scene) label_T) as [|[|n]]; [constructor| |lia].
  cbn [seq]. rewrite bind_cons. change (mbind ?f []) with (@nil path). rewrite app_nil_r.
  apply NoDup_bind; [| |apply NoDup_seq].
  - intros c c' p Hc Hc' Hp Hp'.
    apply list_elem_of_singleton in Hp. apply list_elem_of_singleton in Hp'.
    apply elem_of_seq in Hc. apply elem_of_seq in Hc'.
    apply Hinj; [lia..|]. subst p. by apply channel_path_eq in Hp' as [_ ?].
  - intros c _. apply NoDup_singleton.
Qed.

(** X16. When no file is overwritten within a run. If the sanitised
    names of the scenes are pairwise distinct, no scene that is processed
    has more than one timepoint, and within each scene different channels
    have different channel parts, the paths of the run are pairwise
    distinct: a run that returns hands every path to the writer once, and
    returns it once. The channel parts are different in particular when
    there is neither an override nor a metadata name, as the index labels
    of different channels differ. *)
Theorem distinct_paths (ua : N → bool) (wr : writer) (rq : request) (img : image) (out : path) :
  NoDup (_safe ua <$> img_scenes img) →
  (∀ scene, scene ∈ img_scenes img → skipped rq (img_view img scene) = false →
     size_of (img_view img scene) label_T ≤ 1) →
  (∀ scene c c', scene ∈ img_scenes img →
     c < size_of (img_view img scene) label_C →
     c' < size_of (img_view img scene) label_C →
     chan_label ua (scene_names_of rq img scene) c
       = chan_label ua (scene_names_of rq img scene) c' → c = c') →
  NoDup (expected_paths ua rq img out) ∧
  (∀ fs written,
     node_at fs (lif_path rq) = Some (File (Some img)) → outdir_of rq = inr out →
     out_res (split_lif_to_channels ua wr rq fs) = inr written →
     NoDup written ∧
     NoDup (saved_paths (out_trace (split_lif_to_channels ua wr rq fs)))) ∧
  (∀ cn meta nC c c',
     truthy cn = false → truthy meta = false → c < nC → c' < nC →
     chan_label ua (resolve_names (override_of cn) meta nC) c
       = chan_label ua (resolve_names (override_of cn) meta nC) c' → c = c').
Proof.
  intros Hscenes HT Hparts.
  assert (NoDup (expected_paths ua rq img out)) as Hnd.
  { unfold expected_paths. apply NoDup_bind; [| |by eapply NoDup_fmap_1].
    - intros s s' p Hs Hs' Hp Hp'.
      apply scene_paths_elem in Hp as (c & _ & ->).
      apply scene_paths_elem in Hp' as (c' & _ & Hp').
      apply channel_path_eq in Hp' as [Hsafe _].
      by eapply (NoDup_fmap_inj (_safe ua)).
    - intros s Hs. apply scene_paths_NoDup; [by apply HT|].
      intros c c'. by apply Hparts. }
  split; [done|]. split.
  - intros fs written Himg Hout Hw.
    destruct (split_value ua wr rq fs written Hw)
      as (out' & img' & Hout' & Himg' & -> & Hsaved & _).
    assert (out' = out) as -> by congruence.
    assert (img' = img) as -> by congruence.
    by rewrite Hsaved.
  - intros cn meta nC c c' Hcn Hm Hc Hc'.
    rewrite !chan_label_index by done. apply index_label_inj.
Qed.

Lemma distinct_paths_witness :
  NoDup (expected_paths no_wide plain_request two_scenes export_dir) ∧
  (∀ fs written,
     node_at fs (lif_path plain_request) = Some (File (Some two_scenes)) →
     outdir_of plain_request = inr export_dir →
     out_res (split_lif_to_channels no_wide accepts_all plain_request fs) = inr written →
     NoDup written ∧
     NoDup (saved_paths (out_trace (split_lif_to_channels no_wide accepts_all plain_request fs)))) ∧
  (∀ cn meta nC c c',
     truthy cn = false → truthy meta = false → c < nC → c' < nC →
     chan_label no_wide (resolve_names (override_of cn) meta nC) c
       = chan_label no_wide (resolve_names (override_of cn) meta nC) c' → c = c').
Proof.
  apply (distinct_paths no_wide accepts_all plain_request two_scenes export_dir).
  - apply (bool_decide_unpack _). vm_compute. exact I.
  - intros scene _ _. vm_compute. lia.
  - intros scene c c' _ Hc Hc'.
    change (scene_names_of plain_request two_scenes scene)
      with (resolve_names (override_of None) None
              (size_of (img_view two_scenes scene) label_C)).
    rewrite !chan_label_index by done. apply index_label_inj.
Defined.

(** ** Where the code departs from its documentation *)

(** C2 (the code at the failing input). With two timepoints and one
    channel the call writes twice, the volume of timepoint 0 and then the
    volume of timepoint 1, both to the same path, and returns that path
    twice: the file name holds no timepoint. *)
Theorem timepoints_share_path :
  out_res (split_lif_to_channels no_wide accepts_all plain_request (disk two_timepoints)) =
    inr [ scene_S ++ [lit "sample_scene-S_c00.ome.tif"];
          scene_S ++ [lit "sample_scene-S_c00.ome.tif"] ] ∧
  saved_volumes
    (out_trace (split_lif_to_channels no_wide accepts_all plain_request (disk two_timepoints))) =
    [ (scene_S ++ [lit "sample_scene-S_c00.ome.tif"], Volume (lit "S") (Some 0) 0 None);
      (scene_S ++ [lit "sample_scene-S_c00.ome.tif"], Volume (lit "S") (Some 1) 0 None) ].
Proof. split; vm_compute; reflexivity. Qed.

(** C3 (the code at the failing input). Scene A has one channel, named
    by the metadata; scene B has two channels and no names of its own, so
    the names of the file, a list of length 1, are used for it: the names
    of scene B have length 1 for two channels, its channel 0 is written and
    the lookup of its channel 1 raises IndexError. The same happens when
    the metadata of a scene itself names fewer channels than the scene
    has. *)
Theorem short_names_raise :
  size_of (img_view fallback_names (lit "B")) label_C = 2 ∧
  scene_names_of plain_request fallback_names (lit "B") = [Some (lit "DAPI")] ∧
  ch_part no_wide (scene_names_of plain_request fallback_names (lit "B")) 1
    = inl IndexError ∧
  out_res (split_lif_to_channels no_wide accepts_all plain_request (disk fallback_names))
    = inl IndexError ∧
  saved_paths (out_trace (split_lif_to_channels no_wide accepts_all plain_request (disk fallback_names))) =
    [ export_dir ++ [lit "scene_A"; lit "sample_scene-A_ch-DAPI.ome.tif"];
      export_dir ++ [lit "scene_B"; lit "sample_scene-B_ch-DAPI.ome.tif"] ] ∧
  scene_names_of plain_request short_names (lit "S") = [Some (lit "DAPI")] ∧
  out_res (split_lif_to_channels no_wide accepts_all plain_request (disk short_names))
    = inl IndexError.
Proof. repeat split; vm_compute; reflexivity. Qed.
